(** * GPU scheduler core: a shallow embedding and its properties

    The development follows the Go packages of the scheduler:
    [models] (tenant, job, GPU, node, allocation), [utils] (errors and
    configuration), [storage] (the repository, here the row tables of the
    PostgreSQL implementation), and [core] (queue, allocator, preemptor,
    scheduler).  Definitions come first, theorems after them. *)

From Stdlib Require Import ZArith Lia ZifyNat Bool String Sorted.
From stdpp Require Import base option list gmap strings pretty.

Local Open Scope Z_scope.

(* ===================================================================== *)
(** ** Machine integers and time *)
(* ===================================================================== *)

(** Go's [int] (on the 64-bit targets the scheduler is built for) and
    [int64] are two's-complement 64-bit integers whose arithmetic wraps. *)
Module Int.

Definition min_int : Z := - 2 ^ 63.
Definition max_int : Z := 2 ^ 63 - 1.

Definition wrap (z : Z) : Z := (z + 2 ^ 63) mod 2 ^ 64 - 2 ^ 63.

Definition add (a b : Z) : Z := wrap (a + b).
Definition sub (a b : Z) : Z := wrap (a - b).
Definition neg (a : Z) : Z := wrap (- a).

Definition in_range (z : Z) : Prop := min_int <= z <= max_int.

(** [len(s)] of a slice. *)
Definition len {A} (l : list A) : Z := Z.of_nat (length l).

End Int.

(** [time.Time] is an instant, counted in nanoseconds; [time.Duration] is an
    [int64] number of nanoseconds and [Time.Sub] saturates at its bounds. *)
Module Time.

Definition Time := Z.
Definition Duration := Z.

Definition Before (t u : Time) : bool := t <? u.

Definition Sub (t u : Time) : Duration :=
  Z.max Int.min_int (Z.min Int.max_int (t - u)).

(** [time.Since(t)] read at the instant [now]. *)
Definition Since (now t : Time) : Duration := Sub now t.

Definition Minute : Duration := 60 * 1000000000.
Definition Hour : Duration := 60 * Minute.

End Time.

(* ===================================================================== *)
(** ** Package models *)
(* ===================================================================== *)

(** [type JobState string] with its six constants; a job row may carry any
    string. *)
Definition JobState := string.

Definition JobStatePending : JobState := "pending".
Definition JobStateRunning : JobState := "running".
Definition JobStateCompleted : JobState := "completed".
Definition JobStateFailed : JobState := "failed".
Definition JobStatePreempted : JobState := "preempted".
Definition JobStateCancelled : JobState := "cancelled".

(** [==] on job states. *)
Definition JobState_eqb (a b : JobState) : bool := String.eqb a b.

(** The fields of [models.Job] that the scheduling core reads or writes. *)
Record Job := mkJob {
  jID : string;
  jTenantID : string;
  jState : JobState;
  jPriority : Z;
  jGPUCount : Z;
  jGPUMemoryMB : Z;
  jCPUCores : Z;
  jMemoryMB : Z;
  jGangScheduling : bool;
  jSubmittedAt : Time.Time;
  jScheduledAt : option Time.Time;
  jStartedAt : option Time.Time;
  jCompletedAt : option Time.Time;
  jPreemptedCount : Z
}.

Definition job_submitted (j : Job) (now : Time.Time) : Job :=
  mkJob (jID j) (jTenantID j) JobStatePending (jPriority j) (jGPUCount j)
        (jGPUMemoryMB j) (jCPUCores j) (jMemoryMB j) (jGangScheduling j)
        now (jScheduledAt j) (jStartedAt j) (jCompletedAt j)
        (jPreemptedCount j).

Definition job_started (j : Job) (now : Time.Time) : Job :=
  mkJob (jID j) (jTenantID j) JobStateRunning (jPriority j) (jGPUCount j)
        (jGPUMemoryMB j) (jCPUCores j) (jMemoryMB j) (jGangScheduling j)
        (jSubmittedAt j) (Some now) (Some now) (jCompletedAt j)
        (jPreemptedCount j).

Definition job_preempted (j : Job) : Job :=
  mkJob (jID j) (jTenantID j) JobStatePreempted (jPriority j) (jGPUCount j)
        (jGPUMemoryMB j) (jCPUCores j) (jMemoryMB j) (jGangScheduling j)
        (jSubmittedAt j) (jScheduledAt j) (jStartedAt j) (jCompletedAt j)
        (Int.add (jPreemptedCount j) 1).

(** [models.Tenant]: quota ceilings, current usage and the preemption policy
    bit. *)
Record Tenant := mkTenant {
  tID : string;
  tMaxGPUs : Z;
  tMaxGPUMemoryMB : Z;
  tMaxCPUCores : Z;
  tMaxMemoryMB : Z;
  tMaxConcurrentJobs : Z;
  tCurrentGPUs : Z;
  tCurrentGPUMemory : Z;
  tCurrentCPUCores : Z;
  tCurrentMemory : Z;
  tCurrentJobs : Z;
  tAllowPreemption : bool
}.

(** [Tenant.HasAvailableQuota]. *)
Definition HasAvailableQuota (t : Tenant) (gpus gpuMemory cpus memory : Z)
  : bool :=
  (Int.add (tCurrentGPUs t) gpus <=? tMaxGPUs t) &&
  (Int.add (tCurrentGPUMemory t) gpuMemory <=? tMaxGPUMemoryMB t) &&
  (Int.add (tCurrentCPUCores t) cpus <=? tMaxCPUCores t) &&
  (Int.add (tCurrentMemory t) memory <=? tMaxMemoryMB t) &&
  (Int.add (tCurrentJobs t) 1 <=? tMaxConcurrentJobs t).

(** [Tenant.UpdateUsage]. *)
Definition UpdateUsage (t : Tenant)
    (gpuDelta gpuMemDelta cpuDelta memDelta jobDelta : Z) : Tenant :=
  mkTenant (tID t) (tMaxGPUs t) (tMaxGPUMemoryMB t) (tMaxCPUCores t)
           (tMaxMemoryMB t) (tMaxConcurrentJobs t)
           (Int.add (tCurrentGPUs t) gpuDelta)
           (Int.add (tCurrentGPUMemory t) gpuMemDelta)
           (Int.add (tCurrentCPUCores t) cpuDelta)
           (Int.add (tCurrentMemory t) memDelta)
           (Int.add (tCurrentJobs t) jobDelta)
           (tAllowPreemption t).

(** [type GPUHealth string] with its four constants. *)
Definition GPUHealth := string.

Definition HealthHealthy : GPUHealth := "healthy".
Definition HealthWarning : GPUHealth := "warning".
Definition HealthDegraded : GPUHealth := "degraded".
Definition HealthUnhealthy : GPUHealth := "unhealthy".

(** [==] on health values. *)
Definition GPUHealth_eqb (a b : GPUHealth) : bool := String.eqb a b.

(** [models.GPU]: identity, owning node, binding, thermal state, health. *)
Record GPU := mkGPU {
  gID : string;
  gNodeID : string;
  gAllocated : bool;
  gAllocationID : string;
  gJobID : string;
  gTenantID : string;
  gCoolingPeriod : Time.Time;
  gThermalThrottle : bool;
  gHealth : GPUHealth
}.

(** [GPU.IsAvailable], with the clock reading of [time.Since] explicit. *)
Definition IsAvailable (g : GPU) (now : Time.Time) : bool :=
  negb (gAllocated g) &&
  GPUHealth_eqb (gHealth g) HealthHealthy &&
  negb (gThermalThrottle g) &&
  (0 <? Time.Since now (gCoolingPeriod g)).

Definition gpu_bind (g : GPU) (allocID jobID tenantID : string) : GPU :=
  mkGPU (gID g) (gNodeID g) true allocID jobID tenantID
        (gCoolingPeriod g) (gThermalThrottle g) (gHealth g).

Definition gpu_unbind (g : GPU) : GPU :=
  mkGPU (gID g) (gNodeID g) false "" "" ""
        (gCoolingPeriod g) (gThermalThrottle g) (gHealth g).

(** [models.Node]: availability counters and status bits. *)
Record Node := mkNode {
  nID : string;
  nTotalGPUs : Z;
  nAvailableGPUs : Z;
  nTotalCPUCores : Z;
  nAvailableCPUCores : Z;
  nTotalMemoryMB : Z;
  nAvailableMemoryMB : Z;
  nOnline : bool;
  nSchedulable : bool;
  nDrainingMode : bool
}.

(** [Node.HasCapacity]. *)
Definition HasCapacity (n : Node) (gpus cpus memoryMB : Z) : bool :=
  nOnline n && nSchedulable n && negb (nDrainingMode n) &&
  (gpus <=? nAvailableGPUs n) &&
  (cpus <=? nAvailableCPUCores n) &&
  (memoryMB <=? nAvailableMemoryMB n).

Definition node_with_available (n : Node) (gpus cpus mem : Z) : Node :=
  mkNode (nID n) (nTotalGPUs n) gpus (nTotalCPUCores n) cpus
         (nTotalMemoryMB n) mem (nOnline n) (nSchedulable n)
         (nDrainingMode n).

(** [node.Available* -= ...] of [createAllocation]. *)
Definition node_take (n : Node) (gpus cpus mem : Z) : Node :=
  node_with_available n
    (Int.sub (nAvailableGPUs n) gpus)
    (Int.sub (nAvailableCPUCores n) cpus)
    (Int.sub (nAvailableMemoryMB n) mem).

(** [node.Available* += ...] of [Free] and [Preempt]. *)
Definition node_give (n : Node) (gpus cpus mem : Z) : Node :=
  node_with_available n
    (Int.add (nAvailableGPUs n) gpus)
    (Int.add (nAvailableCPUCores n) cpus)
    (Int.add (nAvailableMemoryMB n) mem).

(** [type AllocationState string] with its seven constants. *)
Definition AllocationState := string.

Definition AllocationPending : AllocationState := "pending".
Definition AllocationActive : AllocationState := "active".
Definition AllocationPreempted : AllocationState := "preempted".
Definition AllocationCheckpointed : AllocationState := "checkpointed".
Definition AllocationMigrating : AllocationState := "migrating".
Definition AllocationCompleted : AllocationState := "completed".
Definition AllocationFailed : AllocationState := "failed".

(** [models.Allocation]. *)
Record Allocation := mkAllocation {
  aID : string;
  aJobID : string;
  aTenantID : string;
  aState : AllocationState;
  aGPUIDs : list string;
  aNodeID : string;
  aCPUCores : Z;
  aMemoryMB : Z;
  aAllocatedAt : Time.Time;
  aPlannedDuration : Time.Duration;
  aActualDuration : Time.Duration;
  aPreemptedAt : option Time.Time;
  aPreemptedBy : string;
  aPreemptionReason : string;
  aCompletedAt : option Time.Time
}.

(** The writes of [Allocator.Free] to the record: state, [CompletedAt], then
    [Allocation.CalculateDuration] (its [CompletedAt] is never nil there). *)
Definition alloc_completed (a : Allocation) (now : Time.Time) : Allocation :=
  mkAllocation (aID a) (aJobID a) (aTenantID a) AllocationCompleted
    (aGPUIDs a) (aNodeID a) (aCPUCores a) (aMemoryMB a) (aAllocatedAt a)
    (aPlannedDuration a) (Time.Sub now (aAllocatedAt a))
    (aPreemptedAt a) (aPreemptedBy a) (aPreemptionReason a) (Some now).

(** The writes of [Preemptor.Preempt] to an allocation record. *)
Definition alloc_preempted (a : Allocation) (now : Time.Time)
    (preemptorID : string) : Allocation :=
  mkAllocation (aID a) (aJobID a) (aTenantID a) AllocationPreempted
    (aGPUIDs a) (aNodeID a) (aCPUCores a) (aMemoryMB a) (aAllocatedAt a)
    (aPlannedDuration a) (aActualDuration a)
    (Some now) preemptorID "higher priority job" (aCompletedAt a).

(** [models.AllocationRequest] (the placement hints are never read by the
    allocator). *)
Record AllocationRequest := mkRequest {
  rJobID : string;
  rTenantID : string;
  rGPUCount : Z;
  rGPUMemoryMB : Z;
  rCPUCores : Z;
  rMemoryMB : Z;
  rGangScheduling : bool
}.

(** [models.AllocationResult]. *)
Record AllocationResult := mkResult {
  resSuccess : bool;
  resAllocationID : string;
  resGPUIDs : list string;
  resNodeID : string;
  resMessage : string
}.

(* ===================================================================== *)
(** ** Package utils: errors and configuration *)
(* ===================================================================== *)

(** The calls of [storage.Repository] that the core makes.  An
    implementation may fail on any of them. *)
Inductive StoreOp :=
| OpCreateJob (id : string)
| OpUpdateJob (id : string)
| OpListJobsByState (s : JobState)
| OpGetTenant (id : string)
| OpUpdateTenant (id : string)
| OpGetGPU (id : string)
| OpUpdateGPU (id : string)
| OpListGPUsByNode (nodeID : string)
| OpGetNode (id : string)
| OpUpdateNode (id : string)
| OpListNodes
| OpCreateAllocation (id : string)
| OpGetAllocation (id : string)
| OpUpdateAllocation (id : string)
| OpGetJobAllocations (jobID : string).

(** Error values: the sentinels of [utils], the structured errors, the two
    queue errors of [core], [fmt.Errorf] with and without [%w], an error
    raised by the store itself, and a run-time panic (which ends the
    scheduler; the model reports it as the error of the call). *)
Inductive error :=
| ErrInsufficientResources
| ErrGPUNotFound
| ErrNodeNotFound
| ErrJobNotFound
| ErrTenantNotFound
| ErrAllocationNotFound
| ErrGangSchedulingFailed
| InsufficientResourcesError (msg : string)
| QuotaExceededError (tenantID resource : string)
                     (requested quota current : Z)
| QueueFullError (maxSize : Z)
| JobAlreadyInQueueError (jobID : string)
| Errorf (msg : string)
| Wrapf (msg : string) (err : error)
| StoreError (op : StoreOp)
| Panic (msg : string).

(** [utils.IsResourceError]: [errors.As] / [errors.Is] walk the chain of
    wrapped errors. *)
Fixpoint IsResourceError (e : error) : bool :=
  match e with
  | ErrInsufficientResources => true
  | InsufficientResourcesError _ => true
  | Wrapf _ e' => IsResourceError e'
  | _ => false
  end.

(** [utils.IsQuotaExceeded] (the sentinel [ErrQuotaExceeded] is never
    returned by the core). *)
Fixpoint IsQuotaExceeded (e : error) : bool :=
  match e with
  | QuotaExceededError _ _ _ _ _ => true
  | Wrapf _ e' => IsQuotaExceeded e'
  | _ => false
  end.

Inductive result (A : Type) :=
| Ok (a : A)
| Err (e : error).
Arguments Ok {A} a.
Arguments Err {A} e.

Definition is_ok {A} (r : result A) : bool :=
  match r with Ok _ => true | Err _ => false end.

(** [utils.SchedulerConfig] (the float [ThermalThreshold] is left out; no
    function of the core reads it). *)
Record SchedulerConfig := mkConfig {
  SchedulingInterval : Z;
  MaxQueueSize : Z;
  EnablePreemption : bool;
  EnableGangScheduling : bool;
  EnableThermalAware : bool;
  DefaultPriority : Z
}.

(* ===================================================================== *)
(** ** Package storage: the repository *)
(* ===================================================================== *)

(** Row tables keyed by the primary key [id].  A table is the list of its
    rows in the order an unordered [SELECT] returns them. *)
Section Table.
Context {R : Type} (key : R -> string).

Definition tbl_find (id : string) (t : list R) : option R :=
  List.find (fun r => String.eqb (key r) id) t.

(** gorm's [Create]: a second row with the same primary key is refused. *)
Definition tbl_create (r : R) (t : list R) : option (list R) :=
  match tbl_find (key r) t with
  | Some _ => None
  | None => Some (t ++ [r])
  end.

(** gorm's [Save]: update the row with this primary key, insert it when
    there is none. *)
Fixpoint tbl_save (r : R) (t : list R) : list R :=
  match t with
  | [] => [r]
  | x :: t' =>
      if String.eqb (key x) (key r) then r :: t' else x :: tbl_save r t'
  end.

Definition tbl_unique (t : list R) : Prop := NoDup (map key t).
End Table.

(** The store: the five tables, and the calls on which it fails. *)
Record Repository := mkRepo {
  jobs : list Job;
  tenants : list Tenant;
  gpus : list GPU;
  nodes : list Node;
  allocations : list Allocation;
  fails : StoreOp -> bool
}.

Definition no_faults : StoreOp -> bool := fun _ => false.

Definition with_jobs (r : Repository) (x : list Job) : Repository :=
  mkRepo x (tenants r) (gpus r) (nodes r) (allocations r) (fails r).
Definition with_tenants (r : Repository) (x : list Tenant) : Repository :=
  mkRepo (jobs r) x (gpus r) (nodes r) (allocations r) (fails r).
Definition with_gpus (r : Repository) (x : list GPU) : Repository :=
  mkRepo (jobs r) (tenants r) x (nodes r) (allocations r) (fails r).
Definition with_nodes (r : Repository) (x : list Node) : Repository :=
  mkRepo (jobs r) (tenants r) (gpus r) x (allocations r) (fails r).
Definition with_allocations (r : Repository) (x : list Allocation)
  : Repository :=
  mkRepo (jobs r) (tenants r) (gpus r) (nodes r) x (fails r).

(** A read: the store's own failure first, then the lookup. *)
Definition store_get {R} (r : Repository) (op : StoreOp)
    (row : option R) (notFound : error) : result R :=
  if fails r op then Err (StoreError op)
  else match row with Some x => Ok x | None => Err notFound end.

Definition store_list {R} (r : Repository) (op : StoreOp) (rows : list R)
  : result (list R) :=
  if fails r op then Err (StoreError op) else Ok rows.

Definition store_write (r : Repository) (op : StoreOp)
    (r' : option Repository) : result Repository :=
  if fails r op then Err (StoreError op)
  else match r' with Some x => Ok x | None => Err (StoreError op) end.

(** Job operations. *)
Definition CreateJob (r : Repository) (job : Job) : result Repository :=
  store_write r (OpCreateJob (jID job))
    (with_jobs r <$> tbl_create jID job (jobs r)).

Definition UpdateJob (r : Repository) (job : Job) : result Repository :=
  store_write r (OpUpdateJob (jID job))
    (Some (with_jobs r (tbl_save jID job (jobs r)))).

Definition ListJobsByState (r : Repository) (s : JobState)
  : result (list Job) :=
  store_list r (OpListJobsByState s)
    (List.filter (fun j => JobState_eqb (jState j) s) (jobs r)).

(** Tenant operations. *)
Definition GetTenant (r : Repository) (id : string) : result Tenant :=
  store_get r (OpGetTenant id) (tbl_find tID id (tenants r))
    ErrTenantNotFound.

Definition UpdateTenant (r : Repository) (t : Tenant) : result Repository :=
  store_write r (OpUpdateTenant (tID t))
    (Some (with_tenants r (tbl_save tID t (tenants r)))).

(** GPU operations. *)
Definition GetGPU (r : Repository) (id : string) : result GPU :=
  store_get r (OpGetGPU id) (tbl_find gID id (gpus r)) ErrGPUNotFound.

Definition UpdateGPU (r : Repository) (g : GPU) : result Repository :=
  store_write r (OpUpdateGPU (gID g))
    (Some (with_gpus r (tbl_save gID g (gpus r)))).

Definition ListGPUsByNode (r : Repository) (nodeID : string)
  : result (list GPU) :=
  store_list r (OpListGPUsByNode nodeID)
    (List.filter (fun g => String.eqb (gNodeID g) nodeID) (gpus r)).

(** Node operations; [ListNodes] selects the online nodes. *)
Definition GetNode (r : Repository) (id : string) : result Node :=
  store_get r (OpGetNode id) (tbl_find nID id (nodes r)) ErrNodeNotFound.

Definition UpdateNode (r : Repository) (n : Node) : result Repository :=
  store_write r (OpUpdateNode (nID n))
    (Some (with_nodes r (tbl_save nID n (nodes r)))).

Definition ListNodes (r : Repository) : result (list Node) :=
  store_list r OpListNodes (List.filter nOnline (nodes r)).

(** Allocation operations. *)
Definition CreateAllocation (r : Repository) (a : Allocation)
  : result Repository :=
  store_write r (OpCreateAllocation (aID a))
    (with_allocations r <$> tbl_create aID a (allocations r)).

Definition GetAllocation (r : Repository) (id : string)
  : result Allocation :=
  store_get r (OpGetAllocation id) (tbl_find aID id (allocations r))
    ErrAllocationNotFound.

Definition UpdateAllocation (r : Repository) (a : Allocation)
  : result Repository :=
  store_write r (OpUpdateAllocation (aID a))
    (Some (with_allocations r (tbl_save aID a (allocations r)))).

Definition GetJobAllocations (r : Repository) (jobID : string)
  : result (list Allocation) :=
  store_list r (OpGetJobAllocations jobID)
    (List.filter (fun a => String.eqb (aJobID a) jobID) (allocations r)).

(** A write whose error the caller only logs: the store is left as it was
    when the write fails. *)
Definition logged (r : Repository) (w : result Repository) : Repository :=
  match w with Ok r' => r' | Err _ => r end.

(* ===================================================================== *)
(** ** Package core: the priority queue *)
(* ===================================================================== *)

(** [QueueItem].  The queue holds pointers to its items; [Index] is the
    item's position in the heap, kept up to date by [Swap], [Push], [Pop].
    [Job] points to the caller's job.  The item holds the job's value
    here, which is what the pointer shows as long as no caller writes to a
    job while it is queued; the scheduler, the only caller of the queue in
    the program, never does. *)
Record QueueItem := mkItem {
  qJob : Job;
  qPriority : Z;
  qIndex : Z;
  qEnqueuedAt : Time.Time;
  qAgingBoost : Z
}.

Definition set_index (it : QueueItem) (i : Z) : QueueItem :=
  mkItem (qJob it) (qPriority it) i (qEnqueuedAt it) (qAgingBoost it).

Definition add_boost (it : QueueItem) (d : Z) : QueueItem :=
  mkItem (qJob it) (qPriority it) (qIndex it) (qEnqueuedAt it)
         (Int.add (qAgingBoost it) d).

Abbreviation PriorityQueue := (list QueueItem).

(** The priority that [Less] compares: [Priority + AgingBoost]. *)
Definition total_priority (it : QueueItem) : Z :=
  Int.add (qPriority it) (qAgingBoost it).

(** The body of [PriorityQueue.Less] on the two items. *)
Definition item_less (a b : QueueItem) : bool :=
  let totalPriorityI := total_priority a in
  let totalPriorityJ := total_priority b in
  if negb (totalPriorityI =? totalPriorityJ)
  then totalPriorityJ <? totalPriorityI
  else Time.Before (qEnqueuedAt a) (qEnqueuedAt b).

(** The methods of [heap.Interface] on [PriorityQueue].  Positions are
    natural numbers; the heap only passes positions below [Len]. *)
Definition pq_Len (pq : PriorityQueue) : nat := length pq.

Definition pq_Less (pq : PriorityQueue) (i j : nat) : bool :=
  match pq !! i, pq !! j with
  | Some a, Some b => item_less a b
  | _, _ => false
  end.

Definition pq_Swap (pq : PriorityQueue) (i j : nat) : PriorityQueue :=
  match pq !! i, pq !! j with
  | Some a, Some b =>
      <[j := set_index a (Z.of_nat j)]> (<[i := set_index b (Z.of_nat i)]> pq)
  | _, _ => pq
  end.

Definition pq_Push (pq : PriorityQueue) (item : QueueItem) : PriorityQueue :=
  pq ++ [set_index item (Z.of_nat (length pq))].

Definition pq_Pop (pq : PriorityQueue) : option (QueueItem * PriorityQueue) :=
  match last pq with
  | Some item => Some (set_index item (-1), removelast pq)
  | None => None
  end.

(** Go's [container/heap], on this interface. *)

(** [heap.up]: [i := (j - 1) / 2] is the parent; at [j = 0] Go's division
    truncates [-1 / 2] to [0], which is what the subtraction on [nat] gives. *)
Fixpoint up_loop (fuel : nat) (pq : PriorityQueue) (j : nat)
  : PriorityQueue :=
  match fuel with
  | O => pq
  | S fuel' =>
      let i := ((j - 1) / 2)%nat in
      if (i =? j)%nat || negb (pq_Less pq j i) then pq
      else up_loop fuel' (pq_Swap pq i j) i
  end.

Definition heap_up (pq : PriorityQueue) (j : nat) : PriorityQueue :=
  up_loop (S j) pq j.

(** [heap.down]: returns the heap and the last position of the element. *)
Fixpoint down_loop (fuel : nat) (pq : PriorityQueue) (i n : nat)
  : PriorityQueue * nat :=
  match fuel with
  | O => (pq, i)
  | S fuel' =>
      let j1 := (2 * i + 1)%nat in
      if (n <=? j1)%nat then (pq, i)
      else
        let j2 := (j1 + 1)%nat in
        let j := if (j2 <? n)%nat && pq_Less pq j2 j1 then j2 else j1 in
        if negb (pq_Less pq j i) then (pq, i)
        else down_loop fuel' (pq_Swap pq i j) j n
  end.

Definition heap_down (pq : PriorityQueue) (i0 n : nat)
  : PriorityQueue * bool :=
  let '(pq', i) := down_loop n pq i0 n in (pq', (i0 <? i)%nat).

(** [heap.Init]: [for i := n/2 - 1; i >= 0; i--  down(h, i, n)]. *)
Definition heap_Init (pq : PriorityQueue) : PriorityQueue :=
  let n := pq_Len pq in
  fold_left (fun h i => fst (heap_down h i n)) (rev (seq 0 (n / 2))) pq.

(** [heap.Push]. *)
Definition heap_Push (pq : PriorityQueue) (x : QueueItem) : PriorityQueue :=
  let pq' := pq_Push pq x in
  heap_up pq' (pq_Len pq' - 1).

(** [heap.Pop]; Go panics on an empty heap, [Dequeue] never calls it so. *)
Definition heap_Pop (pq : PriorityQueue)
  : option (QueueItem * PriorityQueue) :=
  let n := (pq_Len pq - 1)%nat in
  pq_Pop (fst (heap_down (pq_Swap pq 0 n) 0 n)).

(** [Queue].  [jobMap] maps a job id to the pointer of its item, the same
    object as in [items]; it is its key set that matters here. *)
Record Queue := mkQueue {
  items : PriorityQueue;
  jobMap : gset string;
  maxSize : Z
}.

Definition NewQueue (maxSize : Z) : Queue :=
  mkQueue (heap_Init []) ∅ maxSize.

(** [Queue.Enqueue]; [now] is the reading of [time.Now()]. *)
Definition Enqueue (q : Queue) (job : Job) (now : Time.Time)
  : result Queue :=
  if maxSize q <=? Int.len (items q) then Err (QueueFullError (maxSize q))
  else if bool_decide (jID job ∈ jobMap q)
  then Err (JobAlreadyInQueueError (jID job))
  else
    let item := mkItem job (jPriority job) 0 now 0 in
    Ok (mkQueue (heap_Push (items q) item)
                ({[ jID job ]} ∪ jobMap q)
                (maxSize q)).

(** [Queue.Dequeue], up to the item that [heap.Pop] returns. *)
Definition Dequeue_item (q : Queue) : option (QueueItem * Queue) :=
  if (length (items q) =? 0)%nat then None
  else
    match heap_Pop (items q) with
    | Some (item, pq') =>
        Some (item, mkQueue pq' (jobMap q ∖ {[ jID (qJob item) ]}) (maxSize q))
    | None => None
    end.

Definition Dequeue (q : Queue) : option Job * Queue :=
  match Dequeue_item q with
  | Some (item, q') => (Some (qJob item), q')
  | None => (None, q)
  end.

(** [Queue.Peek]. *)
Definition Peek (q : Queue) : option Job :=
  qJob <$> items q !! 0%nat.

Definition Size (q : Queue) : Z := Int.len (items q).

Definition IsEmpty (q : Queue) : bool := Size q =? 0.

(** [Queue.ApplyAging]. *)
Definition ApplyAging (q : Queue) (agingFactor : Z)
    (ageThreshold : Time.Duration) (now : Time.Time) : Queue :=
  let aged :=
    map (fun item =>
           let waitTime := Time.Sub now (qEnqueuedAt item) in
           if ageThreshold <? waitTime then add_boost item agingFactor
           else item)
        (items q) in
  mkQueue (heap_Init aged) (jobMap q) (maxSize q).

(* ===================================================================== *)
(** ** Package core: the allocator *)
(* ===================================================================== *)

(** What an allocator method hands back: the result pointer (nil or not),
    the error (nil or not), and the store after the call. *)
Record AllocOutcome := mkOutcome {
  outResult : option AllocationResult;
  outErr : option error;
  outRepo : Repository
}.

(** [generateAllocationID]: ["alloc-%d"] of [time.Now().UnixNano()]. *)
Definition generateAllocationID (now : Time.Time) : string :=
  "alloc-" +:+ pretty now.

(** The loop of [createAllocation] that marks the GPUs; a failed
    [UpdateGPU] is logged and the loop goes on. *)
Definition mark_gpus (r : Repository) (gs : list GPU)
    (allocID jobID tenantID : string) : Repository :=
  fold_left
    (fun r g => logged r (UpdateGPU r (gpu_bind g allocID jobID tenantID)))
    gs r.

(** [Allocator.createAllocation].  [now] is the clock during the call:
    the readings for the allocation id and for [AllocatedAt] are taken as
    one. *)
Definition createAllocation (r : Repository) (request : AllocationRequest)
    (node : Node) (gs : list GPU) (now : Time.Time) : AllocOutcome :=
  let gpuIDs := map gID gs in
  let allocation :=
    mkAllocation (generateAllocationID now) (rJobID request)
      (rTenantID request) AllocationActive gpuIDs (nID node)
      (rCPUCores request) (rMemoryMB request) now (1 * Time.Hour) 0
      None "" "" None in
  match CreateAllocation r allocation with
  | Err err =>
      mkOutcome None (Some (Wrapf "failed to create allocation" err)) r
  | Ok r1 =>
      let r2 := mark_gpus r1 gs (aID allocation) (rJobID request)
                          (rTenantID request) in
      let node' := node_take node (Int.len gs) (rCPUCores request)
                             (rMemoryMB request) in
      let r3 := logged r2 (UpdateNode r2 node') in
      mkOutcome
        (Some (mkResult true (aID allocation) gpuIDs (nID node) ""))
        None r3
  end.

(** The inner loop of [gangSchedule]: collect available GPUs and stop as
    soon as their number is the requested one. *)
Fixpoint gang_collect (gs : list GPU) (availGPUs : list GPU) (count : Z)
    (now : Time.Time) : list GPU :=
  match gs with
  | [] => availGPUs
  | gpu :: rest =>
      if IsAvailable gpu now then
        let availGPUs' := availGPUs ++ [gpu] in
        if Int.len availGPUs' =? count then availGPUs'
        else gang_collect rest availGPUs' count now
      else gang_collect rest availGPUs count now
  end.

(** [Allocator.gangSchedule]. *)
Fixpoint gangSchedule (r : Repository) (request : AllocationRequest)
    (nodes : list Node) (now : Time.Time) : AllocOutcome :=
  match nodes with
  | [] =>
      mkOutcome
        (Some (mkResult false "" [] ""
           "gang scheduling failed - insufficient resources on single node"))
        (Some ErrGangSchedulingFailed) r
  | node :: rest =>
      if rGPUCount request <=? nAvailableGPUs node then
        match ListGPUsByNode r (nID node) with
        | Err _ => gangSchedule r request rest now
        | Ok gs =>
            let availGPUs := gang_collect gs [] (rGPUCount request) now in
            if Int.len availGPUs =? rGPUCount request
            then createAllocation r request node availGPUs now
            else gangSchedule r request rest now
        end
      else gangSchedule r request rest now
  end.

(** The search loop of [bestFitSchedule]: the state is
    [(minWaste, bestNode with bestGPUs)].  [availGPUs[:GPUCount]] panics for
    a negative count. *)
Fixpoint best_fit_search (r : Repository) (request : AllocationRequest)
    (nodes : list Node) (now : Time.Time) (minWaste : Z)
    (best : option (Node * list GPU))
  : result (option (Node * list GPU)) :=
  match nodes with
  | [] => Ok best
  | node :: rest =>
      match ListGPUsByNode r (nID node) with
      | Err _ => best_fit_search r request rest now minWaste best
      | Ok gs =>
          let availGPUs := List.filter (fun g => IsAvailable g now) gs in
          if rGPUCount request <=? Int.len availGPUs then
            let waste := Int.sub (Int.len availGPUs) (rGPUCount request) in
            if waste <? minWaste then
              if rGPUCount request <? 0
              then Err (Panic "slice bounds out of range")
              else best_fit_search r request rest now waste
                     (Some (node,
                            take (Z.to_nat (rGPUCount request)) availGPUs))
            else best_fit_search r request rest now minWaste best
          else best_fit_search r request rest now minWaste best
      end
  end.

(** [Allocator.bestFitSchedule]. *)
Definition bestFitSchedule (r : Repository) (request : AllocationRequest)
    (nodes : list Node) (now : Time.Time) : AllocOutcome :=
  match best_fit_search r request nodes now 999999 None with
  | Err e => mkOutcome None (Some e) r
  | Ok None =>
      mkOutcome (Some (mkResult false "" [] "" "no suitable node found"))
                (Some ErrInsufficientResources) r
  | Ok (Some (bestNode, bestGPUs)) =>
      createAllocation r request bestNode bestGPUs now
  end.

(** [Allocator.Allocate]. *)
Definition Allocate (r : Repository) (request : AllocationRequest)
    (now : Time.Time) : AllocOutcome :=
  match ListNodes r with
  | Err err => mkOutcome None (Some (Wrapf "failed to list nodes" err)) r
  | Ok nodes =>
      let availableNodes :=
        List.filter
          (fun node => HasCapacity node (rGPUCount request)
                         (rCPUCores request) (rMemoryMB request))
          nodes in
      if (length availableNodes =? 0)%nat then
        mkOutcome
          (Some (mkResult false "" [] ""
                   "no nodes with sufficient capacity"))
          (Some ErrInsufficientResources) r
      else if rGangScheduling request
      then gangSchedule r request availableNodes now
      else bestFitSchedule r request availableNodes now
  end.

(** The loop that unbinds the GPUs of an allocation, shared in shape by
    [Free] and [Preempt]: a GPU that cannot be read is skipped, a failed
    [UpdateGPU] is logged. *)
Definition free_gpus (r : Repository) (gpuIDs : list string) : Repository :=
  fold_left
    (fun r gpuID =>
       match GetGPU r gpuID with
       | Err _ => r
       | Ok gpu => logged r (UpdateGPU r (gpu_unbind gpu))
       end)
    gpuIDs r.

(** [Allocator.Free]: the error it returns (if any) and the store after. *)
Definition Free (r : Repository) (allocationID : string) (now : Time.Time)
  : option error * Repository :=
  match GetAllocation r allocationID with
  | Err err => (Some err, r)
  | Ok allocation =>
      let allocation' := alloc_completed allocation now in
      match UpdateAllocation r allocation' with
      | Err err => (Some err, r)
      | Ok r1 =>
          let r2 := free_gpus r1 (aGPUIDs allocation') in
          match GetNode r2 (aNodeID allocation') with
          | Err err => (Some err, r2)
          | Ok node =>
              let node' := node_give node (Int.len (aGPUIDs allocation'))
                             (aCPUCores allocation') (aMemoryMB allocation') in
              match UpdateNode r2 node' with
              | Err err => (Some err, r2)
              | Ok r3 => (None, r3)
              end
          end
      end
  end.

(* ===================================================================== *)
(** ** Package core: the preemptor *)
(* ===================================================================== *)

(** The first loop of [SelectVictims]: running jobs of lower priority whose
    tenant can be read and allows preemption. *)
Definition is_candidate (r : Repository) (requestingJob job : Job) : bool :=
  if jPriority job <? jPriority requestingJob then
    match GetTenant r (jTenantID job) with
    | Err _ => false
    | Ok tenant => tAllowPreemption tenant
    end
  else false.

(** The second loop: [(lowestPriority, victim)], replaced on a strictly
    lower priority. *)
Definition pick_victim (candidates : list Job) : option Job :=
  snd (fold_left
         (fun '(lowestPriority, victim) candidate =>
            if jPriority candidate <? lowestPriority
            then (jPriority candidate, Some candidate)
            else (lowestPriority, victim))
         candidates (999999, None)).

(** [Preemptor.SelectVictims]. *)
Definition SelectVictims (r : Repository) (requestingJob : Job)
  : result (list Job) :=
  match ListJobsByState r JobStateRunning with
  | Err err => Err err
  | Ok runningJobs =>
      let candidates := List.filter (is_candidate r requestingJob) runningJobs in
      if (length candidates =? 0)%nat then Ok []
      else
        match pick_victim candidates with
        | Some victim => Ok [victim]
        | None => Ok []
        end
  end.

(** The body of the loop of [Preempt] over the victim's allocations. *)
Definition preempt_allocation (r : Repository) (alloc : Allocation)
    (now : Time.Time) (preemptorID : string) : Repository :=
  let alloc' := alloc_preempted alloc now preemptorID in
  let r1 := logged r (UpdateAllocation r alloc') in
  let r2 := free_gpus r1 (aGPUIDs alloc') in
  match GetNode r2 (aNodeID alloc') with
  | Err _ => r2
  | Ok node =>
      let node' := node_give node (Int.len (aGPUIDs alloc'))
                     (aCPUCores alloc') (aMemoryMB alloc') in
      logged r2 (UpdateNode r2 node')
  end.

(** [Preemptor.Preempt]. *)
Definition Preempt (r : Repository) (victim : Job) (preemptorID : string)
    (now : Time.Time) : option error * Repository :=
  let victim' := job_preempted victim in
  match UpdateJob r victim' with
  | Err err => (Some (Wrapf "failed to update victim job" err), r)
  | Ok r1 =>
      match GetJobAllocations r1 (jID victim') with
      | Err err => (Some err, r1)
      | Ok allocs =>
          (None,
           fold_left (fun r alloc => preempt_allocation r alloc now preemptorID)
                     allocs r1)
      end
  end.

(* ===================================================================== *)
(** ** Package core: the scheduler *)
(* ===================================================================== *)

(** [Scheduler], without its lock, [running] flag and stop channel. *)
Record Scheduler := mkScheduler {
  queue : Queue;
  storage : Repository;
  config : SchedulerConfig;
  scheduledJobs : Z;
  failedJobs : Z;
  preemptedJobs : Z
}.

Definition NewScheduler (config : SchedulerConfig) (storage : Repository)
  : Scheduler :=
  mkScheduler (NewQueue (MaxQueueSize config)) storage config 0 0 0.

Definition with_queue (s : Scheduler) (q : Queue) : Scheduler :=
  mkScheduler q (storage s) (config s) (scheduledJobs s) (failedJobs s)
              (preemptedJobs s).

Definition with_storage (s : Scheduler) (r : Repository) : Scheduler :=
  mkScheduler (queue s) r (config s) (scheduledJobs s) (failedJobs s)
              (preemptedJobs s).

(** [Scheduler.validateJob]. *)
Definition validateJob (job : Job) : option error :=
  if jGPUCount job <=? 0 then Some (Errorf "GPU count must be positive")
  else if 8 <? jGPUCount job then Some (Errorf "GPU count cannot exceed 8")
  else if String.eqb (jTenantID job) ""
  then Some (Errorf "tenant ID is required")
  else None.

(** [Scheduler.SubmitJob]: the error returned (if any) and the scheduler
    after the call.  [now] is the clock during the call: the reading for
    [SubmittedAt] and the one [Enqueue] takes are taken as one. *)
Definition SubmitJob (s : Scheduler) (job : Job) (now : Time.Time)
  : option error * Scheduler :=
  match validateJob job with
  | Some err => (Some (Wrapf "job validation failed" err), s)
  | None =>
      match GetTenant (storage s) (jTenantID job) with
      | Err err => (Some (Wrapf "failed to get tenant" err), s)
      | Ok tenant =>
          if negb (HasAvailableQuota tenant (jGPUCount job) (jGPUMemoryMB job)
                     (jCPUCores job) (jMemoryMB job))
          then (Some (QuotaExceededError (tID tenant) "GPUs" (jGPUCount job)
                        (tMaxGPUs tenant) (tCurrentGPUs tenant)), s)
          else
            let job' := job_submitted job now in
            match CreateJob (storage s) job' with
            | Err err => (Some (Wrapf "failed to create job" err), s)
            | Ok r1 =>
                match Enqueue (queue s) job' now with
                | Err err =>
                    (Some (Wrapf "failed to enqueue job" err),
                     with_storage s r1)
                | Ok q1 => (None, with_queue (with_storage s r1) q1)
                end
            end
      end
  end.

(** [Scheduler.tryAllocateJob]. *)
Definition tryAllocateJob (r : Repository) (job : Job) (now : Time.Time)
  : result bool * Repository :=
  let request :=
    mkRequest (jID job) (jTenantID job) (jGPUCount job) (jGPUMemoryMB job)
              (jCPUCores job) (jMemoryMB job) (jGangScheduling job) in
  let out := Allocate r request now in
  match outErr out with
  | Some err => (Err err, outRepo out)
  | None =>
      (Ok (match outResult out with
           | Some res => resSuccess res
           | None => false
           end),
       outRepo out)
  end.

(** [Scheduler.startJob]. *)
Definition startJob (r : Repository) (job : Job) (now : Time.Time)
  : option error * Repository :=
  let job' := job_started job now in
  match UpdateJob r job' with
  | Err err => (Some err, r)
  | Ok r1 =>
      match GetTenant r1 (jTenantID job') with
      | Err err => (Some err, r1)
      | Ok tenant =>
          let tenant' :=
            UpdateUsage tenant (jGPUCount job') (jGPUMemoryMB job')
                        (jCPUCores job') (jMemoryMB job') 1 in
          match UpdateTenant r1 tenant' with
          | Err err => (Some err, r1)
          | Ok r2 => (None, r2)
          end
      end
  end.

(** The loop of [tryPreemption] over the victims: stops at the first
    failed [Preempt]; counts the preempted jobs. *)
Fixpoint preempt_all (r : Repository) (victims : list Job)
    (preemptorID : string) (now : Time.Time) (count : Z)
  : bool * Repository * Z :=
  match victims with
  | [] => (true, r, count)
  | victim :: rest =>
      match Preempt r victim preemptorID now with
      | (Some _, r') => (false, r', count)
      | (None, r') => preempt_all r' rest preemptorID now (Int.add count 1)
      end
  end.

(** [Scheduler.tryPreemption]. *)
Definition tryPreemption (s : Scheduler) (job : Job) (now : Time.Time)
  : bool * Scheduler :=
  if negb (EnablePreemption (config s)) then (false, s)
  else
    match SelectVictims (storage s) job with
    | Err _ => (false, s)
    | Ok victims =>
        if (length victims =? 0)%nat then (false, s)
        else
          let '(ok, r', count) :=
            preempt_all (storage s) victims (jID job) now (preemptedJobs s) in
          (ok, mkScheduler (queue s) r' (config s) (scheduledJobs s)
                 (failedJobs s) count)
    end.

(** The loop of [schedulingCycle].  [fuel] bounds the number of iterations
    looked at; iteration [k] reads the clock as [clock k].  The cycle runs
    alone: between its calls the queue and the store are changed by no
    other goroutine. *)
Fixpoint cycle_loop (fuel : nat) (clock : nat -> Time.Time) (k : nat)
    (s : Scheduler) : Scheduler :=
  match fuel with
  | O => s
  | S fuel' =>
      if IsEmpty (queue s) then s
      else
        match Peek (queue s) with
        | None => s
        | Some job =>
            let now := clock k in
            match tryAllocateJob (storage s) job now with
            | (Err err, r1) =>
                let s1 := with_storage s r1 in
                if EnablePreemption (config s1) && IsResourceError err then
                  match tryPreemption s1 job now with
                  | (true, s2) => cycle_loop fuel' clock (S k) s2
                  | (false, s2) => s2
                  end
                else s1
            | (Ok allocated, r1) =>
                let s1 := with_storage s r1 in
                if allocated then
                  let q' := snd (Dequeue (queue s1)) in
                  let s2 :=
                    match startJob (storage s1) job now with
                    | (Some _, r2) =>
                        mkScheduler q' r2 (config s1) (scheduledJobs s1)
                          (Int.add (failedJobs s1) 1) (preemptedJobs s1)
                    | (None, r2) =>
                        mkScheduler q' r2 (config s1)
                          (Int.add (scheduledJobs s1) 1) (failedJobs s1)
                          (preemptedJobs s1)
                    end in
                  cycle_loop fuel' clock (S k) s2
                else s1
            end
        end
  end.

(** [Scheduler.schedulingCycle]: aging at [now], then the loop. *)
Definition schedulingCycle (fuel : nat) (now : Time.Time)
    (clock : nat -> Time.Time) (s : Scheduler) : Scheduler :=
  let s0 := with_queue s (ApplyAging (queue s) 10 (5 * Time.Minute) now) in
  cycle_loop fuel clock 0 s0.

(** The loop of [loadPendingJobs]: a failed [Enqueue] is logged and the loop
    goes on; the [k]-th call of [Enqueue] reads the clock as [clock k]. *)
Fixpoint enqueue_all (q : Queue) (js : list Job) (clock : nat -> Time.Time)
    (k : nat) : Queue :=
  match js with
  | [] => q
  | job :: rest =>
      let q' := match Enqueue q job (clock k) with
                | Ok q1 => q1
                | Err _ => q
                end in
      enqueue_all q' rest clock (S k)
  end.

(** [Scheduler.loadPendingJobs]. *)
Definition loadPendingJobs (s : Scheduler) (clock : nat -> Time.Time)
  : option error * Scheduler :=
  match ListJobsByState (storage s) JobStatePending with
  | Err err => (Some err, s)
  | Ok js => (None, with_queue s (enqueue_all (queue s) js clock 0))
  end.

(** What [Scheduler.Start] does before it waits for the first tick: it
    loads the pending jobs and only logs an error of the load. *)
Definition startup (config : SchedulerConfig) (storage : Repository)
    (clock : nat -> Time.Time) : Scheduler :=
  snd (loadPendingJobs (NewScheduler config storage) clock).

(** [Scheduler.freeJobResources], the release path of [CancelJob]. *)
Definition freeJobResources (r : Repository) (job : Job) (now : Time.Time)
  : option error * Repository :=
  match GetJobAllocations r (jID job) with
  | Err err => (Some err, r)
  | Ok allocs =>
      let r1 := fold_left (fun r alloc => snd (Free r (aID alloc) now))
                          allocs r in
      match GetTenant r1 (jTenantID job) with
      | Err err => (Some err, r1)
      | Ok tenant =>
          let tenant' :=
            UpdateUsage tenant (Int.neg (jGPUCount job))
              (Int.neg (jGPUMemoryMB job)) (Int.neg (jCPUCores job))
              (Int.neg (jMemoryMB job)) (-1) in
          match UpdateTenant r1 tenant' with
          | Err err => (Some err, r1)
          | Ok r2 => (None, r2)
          end
      end
  end.

(* ===================================================================== *)
(** ** Specification predicates *)
(* ===================================================================== *)

(** Quota admission for a tenant and a job: every dimension of
    (current + request) is within the ceiling, and one more job fits.  The
    sums are the ones the program forms, in 64-bit arithmetic. *)
Definition quota_within (t : Tenant) (job : Job) : Prop :=
  Int.add (tCurrentGPUs t) (jGPUCount job) <= tMaxGPUs t /\
  Int.add (tCurrentGPUMemory t) (jGPUMemoryMB job) <= tMaxGPUMemoryMB t /\
  Int.add (tCurrentCPUCores t) (jCPUCores job) <= tMaxCPUCores t /\
  Int.add (tCurrentMemory t) (jMemoryMB job) <= tMaxMemoryMB t /\
  Int.add (tCurrentJobs t) 1 <= tMaxConcurrentJobs t.

(** The same with the sums taken in the integers. *)
Definition quota_within_exact (t : Tenant) (job : Job) : Prop :=
  tCurrentGPUs t + jGPUCount job <= tMaxGPUs t /\
  tCurrentGPUMemory t + jGPUMemoryMB job <= tMaxGPUMemoryMB t /\
  tCurrentCPUCores t + jCPUCores job <= tMaxCPUCores t /\
  tCurrentMemory t + jMemoryMB job <= tMaxMemoryMB t /\
  tCurrentJobs t + 1 <= tMaxConcurrentJobs t.

(** The five sums fit in 64 bits. *)
Definition sums_fit (t : Tenant) (job : Job) : Prop :=
  Int.in_range (tCurrentGPUs t + jGPUCount job) /\
  Int.in_range (tCurrentGPUMemory t + jGPUMemoryMB job) /\
  Int.in_range (tCurrentCPUCores t + jCPUCores job) /\
  Int.in_range (tCurrentMemory t + jMemoryMB job) /\
  Int.in_range (tCurrentJobs t + 1).


(** The scheduler with the option [enable_thermal_aware] set to [b]. *)
Definition with_thermal (s : Scheduler) (b : bool) : Scheduler :=
  mkScheduler (queue s) (storage s)
    (mkConfig (SchedulingInterval (config s)) (MaxQueueSize (config s))
              (EnablePreemption (config s)) (EnableGangScheduling (config s))
              b (DefaultPriority (config s)))
    (scheduledJobs s) (failedJobs s) (preemptedJobs s).

(* ===================================================================== *)
(** ** Example scenarios *)
(* ===================================================================== *)

(** One tenant, one node with two GPUs. *)
Definition ex_config : SchedulerConfig := mkConfig 1000 100 true true true 100.

Definition ex_tenant : Tenant :=
  mkTenant "team-a" 4 64000 32 128000 10 0 0 0 0 0 true.

(** The same tenant while its job [job-low] runs. *)
Definition ex_tenant_charged : Tenant :=
  mkTenant "team-a" 4 64000 32 128000 10 2 32000 4 8000 1 true.

Definition ex_gpu_free (id : string) : GPU :=
  mkGPU id "node-1" false "" "" "" 0 false HealthHealthy.

Definition ex_gpu_bound (id : string) : GPU :=
  mkGPU id "node-1" true "alloc-20" "job-low" "team-a" 0 false HealthHealthy.

Definition ex_node_idle : Node :=
  mkNode "node-1" 2 2 8 8 16000 16000 true true false.

Definition ex_node_busy : Node :=
  mkNode "node-1" 2 0 8 4 16000 8000 true true false.

Definition ex_job : Job :=
  mkJob "job-1" "team-a" JobStatePending 100 2 32000 4 8000 false
        0 None None None 0.

(** An idle cluster, a store that never fails. *)
Definition ex_idle : Repository :=
  mkRepo [] [ex_tenant] [ex_gpu_free "gpu-1"; ex_gpu_free "gpu-2"]
         [ex_node_idle] [] no_faults.

(** A scheduler whose queue has no room. *)
Definition ex_config_full : SchedulerConfig :=
  mkConfig 1000 0 true true true 100.

(** [job-low] runs on both GPUs of the node under allocation [alloc-20]. *)
Definition ex_victim : Job :=
  mkJob "job-low" "team-a" JobStateRunning 100 2 32000 4 8000 false
        10 (Some 20) (Some 20) None 0.

Definition ex_alloc : Allocation :=
  mkAllocation "alloc-20" "job-low" "team-a" AllocationActive
    ["gpu-1"; "gpu-2"] "node-1" 4 8000 20 (1 * Time.Hour) 0 None "" "" None.

Definition ex_running : Repository :=
  mkRepo [ex_victim] [ex_tenant_charged]
         [ex_gpu_bound "gpu-1"; ex_gpu_bound "gpu-2"]
         [ex_node_busy] [ex_alloc] no_faults.

(** A gang request for both GPUs, on a store whose [UpdateGPU] fails for
    [gpu-2]. *)
Definition ex_gang_request : AllocationRequest :=
  mkRequest "job-gang" "team-a" 2 32000 4 8000 true.

Definition fail_update_gpu2 (op : StoreOp) : bool :=
  match op with
  | OpUpdateGPU id => String.eqb id "gpu-2"
  | _ => false
  end.

Definition ex_idle_faulty : Repository :=
  mkRepo [] [ex_tenant] [ex_gpu_free "gpu-1"; ex_gpu_free "gpu-2"]
         [ex_node_idle] [] fail_update_gpu2.

(** Thermal awareness switched off; the only GPU is free and healthy but
    throttled. *)
Definition ex_config_no_thermal : SchedulerConfig :=
  mkConfig 1000 100 true true false 100.

Definition ex_gpu_throttled : GPU :=
  mkGPU "gpu-1" "node-1" false "" "" "" 0 true HealthHealthy.

Definition ex_node_one : Node :=
  mkNode "node-1" 1 1 8 8 16000 16000 true true false.

Definition ex_small_job : Job :=
  mkJob "job-1" "team-a" JobStatePending 100 1 16000 4 8000 false
        0 None None None 0.

Definition ex_throttled : Repository :=
  mkRepo [ex_small_job] [ex_tenant] [ex_gpu_throttled] [ex_node_one] []
         no_faults.

(** Head-of-line scenario: one GPU of the node is unhealthy, the other is
    free.  [job-high] (2 GPUs) is ahead of [job-small] (1 GPU, which would
    fit); nothing runs, so there is nothing to preempt. *)
Definition ex_gpu_unhealthy : GPU :=
  mkGPU "gpu-1" "node-1" false "" "" "" 0 false HealthUnhealthy.

Definition ex_node_one_of_two : Node :=
  mkNode "node-1" 2 1 8 8 16000 16000 true true false.

Definition ex_one_free : Repository :=
  mkRepo [] [ex_tenant] [ex_gpu_unhealthy; ex_gpu_free "gpu-2"]
         [ex_node_one_of_two] [] no_faults.

Definition ex_high_job : Job :=
  mkJob "job-high" "team-a" JobStatePending 500 2 32000 4 8000 false
        0 None None None 0.

Definition ex_blocked : Scheduler :=
  snd (SubmitJob
         (snd (SubmitJob (NewScheduler ex_config ex_one_free)
                 ex_small_job 10))
         ex_high_job 20).

(** A request of valid shape for the largest 64-bit amount of GPU memory,
    by the tenant whose job [job-low] runs (32000 of its 64000 MB in
    use). *)
Definition ex_huge_job : Job :=
  mkJob "job-huge" "team-a" JobStatePending 100 1 Int.max_int 4 8000 false
        0 None None None 0.

(** The candidates of victim selection, in the order the store lists the
    running jobs. *)
Definition candidates (r : Repository) (requestingJob : Job) : list Job :=
  List.filter (is_candidate r requestingJob)
    (List.filter (fun j => JobState_eqb (jState j) JobStateRunning) (jobs r)).

(** [started_at] as an instant ([None] never occurs for a job that was
    started by the scheduler). *)
Definition started (j : Job) : Time.Time := default 0 (jStartedAt j).

(** Two running jobs of equal priority; the one listed first started
    later. *)
Definition ex_late : Job :=
  mkJob "job-late" "team-a" JobStateRunning 100 1 16000 2 4000 false
        25 (Some 30) (Some 30) None 0.

Definition ex_early : Job :=
  mkJob "job-early" "team-a" JobStateRunning 100 1 16000 2 4000 false
        15 (Some 20) (Some 20) None 0.

Definition ex_ties : Repository :=
  mkRepo [ex_late; ex_early] [ex_tenant_charged]
         [ex_gpu_free "gpu-1"; ex_gpu_free "gpu-2"] [ex_node_busy] []
         no_faults.

(* ===================================================================== *)
(** ** The heap order of the queue *)
(* ===================================================================== *)

(** Position of the parent in the implicit binary tree. *)
Definition parent (c : nat) : nat := (c - 1) / 2.

(** The pair (parent of [c], [c]) is in heap order, for positions below
    [n] whose parent is at [lo] or above. *)
Definition heap_pair (pq : PriorityQueue) (n lo c : nat) : Prop :=
  (c < n)%nat -> (0 < c)%nat -> (lo <= parent c)%nat ->
  pq_Less pq c (parent c) = false.

(** The heap invariant of [container/heap]: no element is [Less] than its
    parent. *)
Definition heap_ok (pq : PriorityQueue) : Prop :=
  forall c, heap_pair pq (length pq) 0 c.

(** The transposition of positions [i] and [j]. *)
Definition tr (i j x : nat) : nat :=
  if decide (x = i) then j else if decide (x = j) then i else x.

(** An item without its position. *)
Definition strip (it : QueueItem) : QueueItem := set_index it 0.

(** Histories of a queue. *)
Inductive queue_op :=
| OpEnqueue (job : Job) (now : Time.Time)
| OpDequeue
| OpApplyAging (agingFactor : Z) (ageThreshold : Time.Duration)
               (now : Time.Time).

Definition apply_op (q : Queue) (op : queue_op) : Queue :=
  match op with
  | OpEnqueue job now =>
      match Enqueue q job now with Ok q' => q' | Err _ => q end
  | OpDequeue => snd (Dequeue q)
  | OpApplyAging f t now => ApplyAging q f t now
  end.

Definition run_ops (ops : list queue_op) (q : Queue) : Queue :=
  fold_left apply_op ops q.

(** The jobs returned by [n] successive calls of [Dequeue]. *)
Fixpoint dequeue_many (n : nat) (q : Queue) : list Job :=
  match n with
  | O => []
  | S n' =>
      match Dequeue q with
      | (Some job, q') => job :: dequeue_many n' q'
      | (None, _) => []
      end
  end.

(** The same calls, keeping the queue items of the returned jobs. *)
Fixpoint drain (n : nat) (q : Queue) : list QueueItem :=
  match n with
  | O => []
  | S n' =>
      match Dequeue_item q with
      | Some (item, q') => item :: drain n' q'
      | None => []
      end
  end.

(** Two queued jobs: [job-urgent], of a priority close to the largest
    64-bit integer, and [job-routine].  Both have waited more than five
    minutes when the scheduling cycle ages the queue by 10. *)
Definition ex_urgent_job : Job :=
  mkJob "job-urgent" "team-a" JobStatePending (Int.max_int - 5) 1 16000 2
        4000 false 0 None None None 0.

Definition ex_routine_job : Job :=
  mkJob "job-routine" "team-a" JobStatePending 100 1 16000 2 4000 false
        1 None None None 0.

Definition ex_aged_queue : Queue :=
  run_ops [OpEnqueue ex_urgent_job 0; OpEnqueue ex_routine_job 1;
           OpApplyAging 10 (5 * Time.Minute) (6 * Time.Minute)]
          (NewQueue 100).

(** The child that [heap.down] compares with the element at [i]: the
    right one when it exists and is [Less] than the left one. *)
Definition pick_child (pq : PriorityQueue) (i n : nat) : nat :=
  if (2 * i + 1 + 1 <? n)%nat && pq_Less pq (2 * i + 1 + 1) (2 * i + 1)
  then (2 * i + 1 + 1)%nat else (2 * i + 1)%nat.

(** What the queue records of an enqueued job: the job and the instant of
    its [Enqueue]. *)
Definition enqueued (it : QueueItem) : Job * Time.Time :=
  (qJob it, qEnqueuedAt it).

(** The jobs [js] with the clock readings of successive [Enqueue] calls,
    counted from the [k]-th reading. *)
Fixpoint stamped (clock : nat -> Time.Time) (k : nat) (js : list Job)
  : list (Job * Time.Time) :=
  match js with
  | [] => []
  | job :: rest => (job, clock k) :: stamped clock (S k) rest
  end.

(** The Pending rows of the job table, in the order the store lists them. *)
Definition pending_jobs (r : Repository) : list Job :=
  List.filter (fun j => JobState_eqb (jState j) JobStatePending) (jobs r).

(** A backlog of two Pending jobs of equal priority; the row listed first
    was submitted later. *)
Definition ex_job_b : Job :=
  mkJob "job-b" "team-a" JobStatePending 100 1 16000 2 4000 false
        200 None None None 0.

Definition ex_job_a : Job :=
  mkJob "job-a" "team-a" JobStatePending 100 1 16000 2 4000 false
        100 None None None 0.

Definition ex_backlog : Repository :=
  mkRepo [ex_job_b; ex_job_a] [ex_tenant]
         [ex_gpu_free "gpu-1"; ex_gpu_free "gpu-2"] [ex_node_idle] []
         no_faults.

Definition ex_config_one : SchedulerConfig :=
  mkConfig 1000 1 true true true 100.

Definition ex_clock (k : nat) : Time.Time := 1000 + Z.of_nat k.

(** The two outcomes of a gang request: the gang-scheduling failure with
    the store [r] unchanged, or one Active allocation on one of the nodes
    [ns], with as many GPUs of that node as requested, each bound to the
    allocation, and the node's counters decremented. *)
Definition gang_all_or_nothing (r : Repository) (request : AllocationRequest)
    (ns : list Node) (now : Time.Time) (out : AllocOutcome) : Prop :=
  (outErr out = Some ErrGangSchedulingFailed /\ outRepo out = r) \/
  (exists node gs,
     outErr out = None /\ In node ns /\
     Int.len gs = rGPUCount request /\
     Forall (fun g => In g (gpus r) /\ gNodeID g = nID node /\
                      IsAvailable g now = true) gs /\
     allocations (outRepo out) =
       allocations r ++
       [mkAllocation (generateAllocationID now) (rJobID request)
          (rTenantID request) AllocationActive (map gID gs) (nID node)
          (rCPUCores request) (rMemoryMB request) now (1 * Time.Hour) 0
          None "" "" None] /\
     Forall (fun g =>
               tbl_find gID (gID g) (gpus (outRepo out))
               = Some (gpu_bind g (generateAllocationID now)
                         (rJobID request) (rTenantID request))) gs /\
     (forall id, id ∉ map gID gs ->
        tbl_find gID id (gpus (outRepo out)) = tbl_find gID id (gpus r)) /\
     nodes (outRepo out) =
       tbl_save nID
         (node_take node (rGPUCount request) (rCPUCores request)
            (rMemoryMB request))
         (nodes r)).
(* ===================================================================== *)
(** ** Further methods of the models and of [utils] *)
(* ===================================================================== *)

(** [Job.IsTerminal]. *)
Definition Job_IsTerminal (j : Job) : bool :=
  JobState_eqb (jState j) JobStateCompleted ||
  JobState_eqb (jState j) JobStateFailed ||
  JobState_eqb (jState j) JobStateCancelled.

(** [Job.IsActive]. *)
Definition Job_IsActive (j : Job) : bool :=
  JobState_eqb (jState j) JobStateRunning ||
  JobState_eqb (jState j) JobStatePending.

(** The string a [JobState] is. *)
Definition JobState_string (s : JobState) : string := s.

(** The writes of [CancelJob] to the job: state and completion time. *)
Definition job_cancelled (j : Job) (now : Time.Time) : Job :=
  mkJob (jID j) (jTenantID j) JobStateCancelled (jPriority j) (jGPUCount j)
        (jGPUMemoryMB j) (jCPUCores j) (jMemoryMB j) (jGangScheduling j)
        (jSubmittedAt j) (jScheduledAt j) (jStartedAt j) (Some now)
        (jPreemptedCount j).

(** [utils.IsNotFound]: [errors.Is] against the five not-found sentinels,
    through the chain of wrapped errors. *)
Fixpoint IsNotFound (e : error) : bool :=
  match e with
  | ErrJobNotFound | ErrTenantNotFound | ErrGPUNotFound
  | ErrNodeNotFound | ErrAllocationNotFound => true
  | Wrapf _ e' => IsNotFound e'
  | _ => false
  end.

(** Multiplication of two 64-bit integers. *)
Definition Int_mul (a b : Z) : Z := Int.wrap (a * b).

(** [PostgresRepository.GetJob]: [ErrJobNotFound] when there is no such
    row.  [fault] is the error of the database for this read, if it
    reports one. *)
Definition GetJob (r : Repository) (fault : option error) (jobID : string)
  : result Job :=
  match fault with
  | Some err => Err err
  | None =>
      match tbl_find jID jobID (jobs r) with
      | Some job => Ok job
      | None => Err ErrJobNotFound
      end
  end.

(* ===================================================================== *)
(** ** The queue: removal, lookup, position *)
(* ===================================================================== *)

(** [heap.Remove]:
    [n := h.Len() - 1; if n != i { h.Swap(i, n); if !down(h, i, n) { up(h, i) } };
     return h.Pop()].
    A position outside [0, n] makes [Swap] (or, on the empty heap, [Pop])
    index out of range. *)
Definition heap_Remove (pq : PriorityQueue) (i : Z)
  : result (QueueItem * PriorityQueue) :=
  let n := Int.len pq - 1 in
  if (i <? 0) || (n <? i) then Err (Panic "index out of range")
  else
    let pq1 :=
      if negb (n =? i) then
        let pq' := pq_Swap pq (Z.to_nat i) (Z.to_nat n) in
        let '(pq'', moved) := heap_down pq' (Z.to_nat i) (Z.to_nat n) in
        if negb moved then heap_up pq'' (Z.to_nat i) else pq''
      else pq in
    match pq_Pop pq1 with
    | Some out => Ok out
    | None => Err (Panic "index out of range")
    end.

(** The item that [jobMap] holds for a job id: the pointer is the one
    stored in [items], so the item is the one of that job in the heap. *)
Definition item_of (pq : PriorityQueue) (jobID : string) : option QueueItem :=
  List.find (fun it => String.eqb (jID (qJob it)) jobID) pq.

(** [Queue.Remove].  An item that [jobMap] still holds after it left the
    heap has the [Index] that [Pop] gave it, [-1]. *)
Definition Remove (q : Queue) (jobID : string) : result (bool * Queue) :=
  if negb (bool_decide (jobID ∈ jobMap q)) then Ok (false, q)
  else
    let index :=
      match item_of (items q) jobID with
      | Some item => qIndex item
      | None => -1
      end in
    match heap_Remove (items q) index with
    | Err e => Err e
    | Ok (_, pq') => Ok (true, mkQueue pq' (jobMap q ∖ {[ jobID ]}) (maxSize q))
    end.

(** [Queue.Get].  The keys of [jobMap] are the ids of the queued items in
    every queue that the operations build; for a key without an item the
    model answers as for a missing key. *)
Definition Get (q : Queue) (jobID : string) : option Job :=
  if bool_decide (jobID ∈ jobMap q)
  then qJob <$> item_of (items q) jobID
  else None.

(** [Queue.List]: the jobs in the order of the heap array. *)
Definition Queue_List (q : Queue) : list Job := map qJob (items q).

(** The loop of [GetPosition]: it runs over the heap array and returns
    when it meets the job. *)
Fixpoint position_scan (rest : PriorityQueue) (item : QueueItem)
    (jobID : string) (position : Z) : Z :=
  match rest with
  | [] => position
  | qItem :: rest' =>
      if String.eqb (jID (qJob qItem)) jobID then position
      else
        let totalPriority := Int.add (qPriority qItem) (qAgingBoost qItem) in
        let itemTotalPriority := Int.add (qPriority item) (qAgingBoost item) in
        if (itemTotalPriority <? totalPriority) ||
           ((totalPriority =? itemTotalPriority) &&
            Time.Before (qEnqueuedAt qItem) (qEnqueuedAt item))
        then position_scan rest' item jobID (Int.add position 1)
        else position_scan rest' item jobID position
  end.

(** [Queue.GetPosition]. *)
Definition GetPosition (q : Queue) (jobID : string) : Z :=
  if negb (bool_decide (jobID ∈ jobMap q)) then -1
  else
    match item_of (items q) jobID with
    | Some item => position_scan (items q) item jobID 1
    | None => -1
    end.

(** [Queue.Clear]. *)
Definition Clear (q : Queue) : Queue :=
  mkQueue (heap_Init []) ∅ (maxSize q).

(* ===================================================================== *)
(** ** The scheduler: cancellation and status *)
(* ===================================================================== *)

(** [Scheduler.CancelJob]: the error returned (if any) and the scheduler
    after the call.  [fault] is the database error of the first read, if
    any; [now] is the reading of the clock. *)
Definition CancelJob (s : Scheduler) (fault : option error) (jobID : string)
    (now : Time.Time) : option error * Scheduler :=
  match GetJob (storage s) fault jobID with
  | Err err => (Some err, s)
  | Ok job =>
      if JobState_eqb (jState job) JobStatePending then
        match Remove (queue s) jobID with
        | Err e => (Some e, s)
        | Ok (_, q') =>
            let job' := job_cancelled job now in
            match UpdateJob (storage s) job' with
            | Err err => (Some err, with_queue s q')
            | Ok r' => (None, with_queue (with_storage s r') q')
            end
        end
      else if JobState_eqb (jState job) JobStateRunning then
        let job' := job_cancelled job now in
        let r1 := snd (freeJobResources (storage s) job' now) in
        match UpdateJob r1 job' with
        | Err err => (Some err, with_storage s r1)
        | Ok r2 => (None, with_storage s r2)
        end
      else
        (Some (Errorf ("cannot cancel job in state: "
                       +:+ JobState_string (jState job))), s)
  end.

(** [Scheduler.estimateWaitTime]:
    [time.Duration(position-1) * 5 * time.Minute]. *)
Definition estimateWaitTime (q : Queue) (job : Job) : Time.Duration :=
  let position := GetPosition q (jID job) in
  if position <=? 0 then 0
  else Int_mul (Int_mul (Int.sub position 1) 5) Time.Minute.

(** [models.JobStatus], the fields that [GetJobStatus] fills. *)
Record JobStatus := mkJobStatus {
  sJobID : string;
  sState : JobState;
  sMessage : string;
  sAllocatedGPUs : list string;
  sNodeName : string;
  sQueuePosition : Z;
  sEstimatedWait : Time.Duration
}.

(** [Scheduler.GetJobStatus]. *)
Definition GetJobStatus (s : Scheduler) (fault : option error)
    (jobID : string) : result JobStatus :=
  match GetJob (storage s) fault jobID with
  | Err err => Err err
  | Ok job =>
      let '(position, wait) :=
        if JobState_eqb (jState job) JobStatePending
        then (GetPosition (queue s) jobID, estimateWaitTime (queue s) job)
        else (0, 0) in
      let '(allocatedGPUs, nodeName) :=
        if JobState_eqb (jState job) JobStateRunning then
          match GetJobAllocations (storage s) jobID with
          | Ok (a :: _) => (aGPUIDs a, aNodeID a)
          | _ => ([], "")
          end
        else ([], "") in
      Ok (mkJobStatus (jID job) (jState job) "" allocatedGPUs nodeName
                      position wait)
  end.

(* ===================================================================== *)
(** ** Well-formed queues and their histories *)
(* ===================================================================== *)

(** The job ids in the heap array. *)
Definition queue_ids (pq : PriorityQueue) : list string :=
  map (fun it => jID (qJob it)) pq.

(** Every item records its own position. *)
Definition index_ok (pq : PriorityQueue) : Prop :=
  forall i it, pq !! i = Some it -> qIndex it = Z.of_nat i.

(** The invariant of [Queue]: heap order, recorded positions, one item per
    job id, [jobMap] holding exactly the queued ids, and the size bound. *)
Record queue_wf (q : Queue) : Prop := mkWf {
  wf_heap : heap_ok (items q);
  wf_index : index_ok (items q);
  wf_nodup : NoDup (queue_ids (items q));
  wf_map : forall id, id ∈ jobMap q <-> id ∈ queue_ids (items q);
  wf_size : Size q <= Z.max 0 (maxSize q)
}.

(** The calls of the queue's methods that change it, made by callers that
    do not write to a job while it is queued. *)
Inductive queue_call :=
| CallEnqueue (job : Job) (now : Time.Time)
| CallDequeue
| CallRemove (jobID : string)
| CallApplyAging (agingFactor : Z) (ageThreshold : Time.Duration)
                 (now : Time.Time)
| CallClear.

(** One call; [None] when the call panics. *)
Definition apply_call (q : Queue) (c : queue_call) : option Queue :=
  match c with
  | CallEnqueue job now =>
      Some (match Enqueue q job now with Ok q' => q' | Err _ => q end)
  | CallDequeue => Some (snd (Dequeue q))
  | CallRemove jobID =>
      match Remove q jobID with
      | Ok (_, q') => Some q'
      | Err _ => None
      end
  | CallApplyAging f t now => Some (ApplyAging q f t now)
  | CallClear => Some (Clear q)
  end.

Fixpoint run_calls (cs : list queue_call) (q : Queue) : option Queue :=
  match cs with
  | [] => Some q
  | c :: rest =>
      match apply_call q c with
      | Some q' => run_calls rest q'
      | None => None
      end
  end.

(** What [ApplyAging] does to one item. *)
Definition aged (agingFactor : Z) (ageThreshold : Time.Duration)
    (now : Time.Time) (item : QueueItem) : QueueItem :=
  if ageThreshold <? Time.Sub now (qEnqueuedAt item)
  then add_boost item agingFactor else item.



(** The waste of a node for a request: available GPUs beyond the
    requested number. *)
Definition node_available (r : Repository) (now : Time.Time) (node : Node)
  : list GPU :=
  List.filter (fun g => IsAvailable g now)
    (List.filter (fun g => String.eqb (gNodeID g) (nID node)) (gpus r)).

Definition node_waste (r : Repository) (request : AllocationRequest)
    (now : Time.Time) (node : Node) : Z :=
  Int.sub (Int.len (node_available r now node)) (rGPUCount request).

(** A node that the best-fit search can take: its GPU list can be read and
    has at least the requested number of available GPUs. *)
Definition node_fits (r : Repository) (request : AllocationRequest)
    (now : Time.Time) (node : Node) : bool :=
  negb (fails r (OpListGPUsByNode (nID node))) &&
  (rGPUCount request <=? Int.len (node_available r now node)).

(** The request that [tryAllocateJob] builds for a job. *)
Definition request_of (job : Job) : AllocationRequest :=
  mkRequest (jID job) (jTenantID job) (jGPUCount job) (jGPUMemoryMB job)
            (jCPUCores job) (jMemoryMB job) (jGangScheduling job).

(** The online nodes with capacity for a request, as [Allocate] filters
    them. *)
Definition capable_nodes (r : Repository) (request : AllocationRequest)
  : list Node :=
  List.filter
    (fun node => HasCapacity node (rGPUCount request) (rCPUCores request)
                   (rMemoryMB request))
    (List.filter nOnline (nodes r)).

(** The record that [createAllocation] persists. *)
Definition new_allocation (request : AllocationRequest) (node : Node)
    (gs : list GPU) (now : Time.Time) : Allocation :=
  mkAllocation (generateAllocationID now) (rJobID request)
    (rTenantID request) AllocationActive (map gID gs) (nID node)
    (rCPUCores request) (rMemoryMB request) now (1 * Time.Hour) 0
    None "" "" None.

(** The availability counters of a node are 64-bit integers. *)
Definition node_in_range (n : Node) : Prop :=
  Int.in_range (nAvailableGPUs n) /\
  Int.in_range (nAvailableCPUCores n) /\
  Int.in_range (nAvailableMemoryMB n).

(** The usage counters of a tenant are 64-bit integers. *)
Definition usage_in_range (t : Tenant) : Prop :=
  Int.in_range (tCurrentGPUs t) /\
  Int.in_range (tCurrentGPUMemory t) /\
  Int.in_range (tCurrentCPUCores t) /\
  Int.in_range (tCurrentMemory t) /\
  Int.in_range (tCurrentJobs t).

(* ===================================================================== *)
(** ** Further example scenarios *)
(* ===================================================================== *)

(** A queue of three one-GPU jobs of priorities 10, 1 and 5, enqueued in
    this order. *)
Definition ex_qjob (id : string) (p : Z) : Job :=
  mkJob id "team-a" JobStatePending p 1 0 0 0 false 0 None None None 0.

Definition ex_calls : list queue_call :=
  [CallEnqueue (ex_qjob "job-1" 10) 1;
   CallEnqueue (ex_qjob "job-2" 1) 2;
   CallEnqueue (ex_qjob "job-3" 5) 3].

Definition ex_queue : Queue :=
  default (NewQueue 10) (run_calls ex_calls (NewQueue 10)).

(** The same history followed by the removal of the job at the root. *)
Definition ex_calls_removed : list queue_call :=
  ex_calls ++ [CallRemove "job-1"].

Definition ex_queue_removed : Queue :=
  default (NewQueue 10) (run_calls ex_calls_removed (NewQueue 10)).

(** The scheduler after the submission of [job-1] to the idle cluster. *)
Definition ex_submitted : Scheduler :=
  snd (SubmitJob (NewScheduler ex_config ex_idle) ex_job 1000).

(** A gang job for two GPUs, of priority 500, at the head of the queue.
    The node's counters say that two GPUs are available, but one of its
    GPUs is unhealthy; a job of lower priority runs and its tenant allows
    preemption. *)
Definition ex_gang_job : Job :=
  mkJob "job-gang" "team-a" JobStatePending 500 2 32000 4 8000 true
        0 None None None 0.

Definition ex_gang_store : Repository :=
  mkRepo [ex_victim] [ex_tenant_charged]
         [ex_gpu_unhealthy; ex_gpu_free "gpu-2"] [ex_node_idle] [ex_alloc]
         no_faults.

Definition ex_gang_blocked : Scheduler :=
  snd (SubmitJob (NewScheduler ex_config ex_gang_store) ex_gang_job 10).

(* ===================================================================== *)
(** ** Basic facts: integers, tables, the store *)
(* ===================================================================== *)

Lemma wrap_in_range z : Int.in_range z -> Int.wrap z = z.
Proof.
  unfold Int.in_range, Int.wrap, Int.min_int, Int.max_int. intros H.
  rewrite Z.mod_small; lia.
Qed.

Lemma add_in_range a b : Int.in_range (a + b) -> Int.add a b = a + b.
Proof. apply wrap_in_range. Qed.

Section TableFacts.
Context {R : Type} (key : R -> string).

Lemma tbl_find_app id (t u : list R) :
  tbl_find key id (t ++ u) =
  match tbl_find key id t with
  | Some x => Some x
  | None => tbl_find key id u
  end.
Proof.
  unfold tbl_find. induction t as [|x t IH]; simpl; [done|].
  destruct (String.eqb (key x) id); [done|apply IH].
Qed.

Lemma tbl_find_key id (t : list R) r :
  tbl_find key id t = Some r -> key r = id.
Proof.
  unfold tbl_find. intros H. apply find_some in H as [_ H].
  by apply String.eqb_eq.
Qed.


Lemma tbl_create_find r (t t' : list R) :
  tbl_create key r t = Some t' -> tbl_find key (key r) t' = Some r.
Proof.
  unfold tbl_create. destruct (tbl_find key (key r) t) eqn:E; [done|].
  intros [= <-]. rewrite tbl_find_app, E. unfold tbl_find. simpl.
  by rewrite String.eqb_refl.
Qed.

Lemma tbl_save_find r (t : list R) :
  tbl_find key (key r) (tbl_save key r t) = Some r.
Proof.
  unfold tbl_find. induction t as [|x t IH]; simpl.
  - by rewrite String.eqb_refl.
  - destruct (String.eqb (key x) (key r)) eqn:E; simpl.
    + by rewrite String.eqb_refl.
    + by rewrite E.
Qed.

Lemma tbl_save_find_ne r id (t : list R) :
  key r <> id ->
  tbl_find key id (tbl_save key r t) = tbl_find key id t.
Proof.
  intros Hne. unfold tbl_find. induction t as [|x t IH]; simpl.
  - apply String.eqb_neq in Hne. by rewrite Hne.
  - destruct (String.eqb (key x) (key r)) eqn:E; simpl.
    + apply String.eqb_eq in E. rewrite E.
      apply String.eqb_neq in Hne. by rewrite Hne.
    + by rewrite IH.
Qed.
End TableFacts.

Lemma NoDup_map_filter {A B} (f : A -> B) (p : A -> bool) (l : list A) :
  NoDup (map f l) -> NoDup (map f (List.filter p l)).
Proof.
  induction l as [|x l IH]; simpl; [done|].
  rewrite NoDup_cons. intros [Hx Hl]. destruct (p x); simpl; [|by apply IH].
  apply NoDup_cons. split; [|by apply IH].
  intros Hin. apply Hx. apply list_elem_of_fmap in Hin as (y & -> & Hy).
  apply list_elem_of_fmap. exists y. split; [done|].
  apply list_elem_of_In. apply list_elem_of_In in Hy.
  by apply filter_In in Hy as [Hy _].
Qed.

Lemma HasAvailableQuota_spec t job :
  HasAvailableQuota t (jGPUCount job) (jGPUMemoryMB job) (jCPUCores job)
    (jMemoryMB job) = true <-> quota_within t job.
Proof.
  unfold HasAvailableQuota, quota_within.
  rewrite !andb_true_iff, !Z.leb_le. tauto.
Qed.

Lemma quota_within_exact_iff t job :
  sums_fit t job -> (quota_within t job <-> quota_within_exact t job).
Proof.
  unfold sums_fit, quota_within, quota_within_exact.
  intros (H1 & H2 & H3 & H4 & H5).
  by rewrite !add_in_range.
Qed.

Lemma JobState_eqb_eq (a b : JobState) : JobState_eqb a b = true <-> a = b.
Proof. apply String.eqb_eq. Qed.

Lemma validateJob_ok job :
  1 <= jGPUCount job <= 8 -> jTenantID job <> "" -> validateJob job = None.
Proof.
  intros [Hlo Hhi] Hne. unfold validateJob.
  destruct (jGPUCount job <=? 0) eqn:E1; [apply Z.leb_le in E1; lia|].
  destruct (8 <? jGPUCount job) eqn:E2; [apply Z.ltb_lt in E2; lia|].
  apply String.eqb_neq in Hne. by rewrite Hne.
Qed.

(* ===================================================================== *)
(** ** Submission *)
(* ===================================================================== *)

(** Quota admission in general.  For a valid job (gpu_count in 1..8,
    tenant id not empty) whose tenant is in the repository, and with the
    persisting and the enqueueing succeeding, [SubmitJob] succeeds exactly
    when the 64-bit sums that [HasAvailableQuota] forms are within the
    tenant's ceilings; when the test fails it returns the quota-exceeded
    error.  Whenever the integer sums of current usage and request fit in
    64 bits, the test is the test on the integer sums. *)
Theorem SubmitJob_quota_admission (s : Scheduler) (job : Job)
    (now : Time.Time) (tenant : Tenant) :
  1 <= jGPUCount job <= 8 ->
  jTenantID job <> "" ->
  GetTenant (storage s) (jTenantID job) = Ok tenant ->
  is_ok (CreateJob (storage s) (job_submitted job now)) = true ->
  is_ok (Enqueue (queue s) (job_submitted job now) now) = true ->
  (fst (SubmitJob s job now) = None <-> quota_within tenant job) /\
  (~ quota_within tenant job ->
   fst (SubmitJob s job now) =
     Some (QuotaExceededError (tID tenant) "GPUs" (jGPUCount job)
             (tMaxGPUs tenant) (tCurrentGPUs tenant))) /\
  (sums_fit tenant job ->
   (quota_within tenant job <-> quota_within_exact tenant job)).
Proof.
  intros Hgpu Htid Hten Hcreate Henq.
  pose proof (HasAvailableQuota_spec tenant job) as Hq.
  unfold SubmitJob. rewrite (validateJob_ok job Hgpu Htid), Hten.
  destruct (HasAvailableQuota tenant (jGPUCount job) (jGPUMemoryMB job)
              (jCPUCores job) (jMemoryMB job)) eqn:EQ; simpl.
  - destruct (CreateJob (storage s) (job_submitted job now)) as [r1|e];
      [|discriminate].
    destruct (Enqueue (queue s) (job_submitted job now) now) as [q1|e];
      [|discriminate].
    simpl. split; [|split].
    + split; [intros _; by apply Hq|done].
    + intros Hn. exfalso. apply Hn. by apply Hq.
    + apply quota_within_exact_iff.
  - split; [|split].
    + split; [discriminate|]. intros H. apply Hq in H. discriminate.
    + done.
    + apply quota_within_exact_iff.
Qed.

(** C1. Quota admission lets a request through that exceeds the quota.
    The tenant [team-a] uses 32000 of its 64000 MB of GPU memory.  A job of
    valid shape (one GPU) that asks for 9223372036854775807 MB of GPU
    memory is admitted: [SubmitJob] returns no error, the job is persisted
    Pending and enqueued, although current usage plus request is above the
    ceiling.  The sum [CurrentGPUMemory + gpuMemory] of
    [HasAvailableQuota] wraps around to a negative number. *)
Theorem SubmitJob_admits_request_over_quota :
  let s := NewScheduler ex_config ex_running in
  let out := SubmitJob s ex_huge_job 1000 in
  validateJob ex_huge_job = None /\
  GetTenant (storage s) (jTenantID ex_huge_job) = Ok ex_tenant_charged /\
  tMaxGPUMemoryMB ex_tenant_charged
    < tCurrentGPUMemory ex_tenant_charged + jGPUMemoryMB ex_huge_job /\
  ~ quota_within_exact ex_tenant_charged ex_huge_job /\
  Int.add (tCurrentGPUMemory ex_tenant_charged) (jGPUMemoryMB ex_huge_job)
    = -9223372036854743809 /\
  HasAvailableQuota ex_tenant_charged (jGPUCount ex_huge_job)
    (jGPUMemoryMB ex_huge_job) (jCPUCores ex_huge_job)
    (jMemoryMB ex_huge_job) = true /\
  fst out = None /\
  tbl_find jID "job-huge" (jobs (storage (snd out)))
    = Some (job_submitted ex_huge_job 1000) /\
  jState (job_submitted ex_huge_job 1000) = JobStatePending /\
  Queue_List (queue (snd out)) = [job_submitted ex_huge_job 1000].
Proof.
  cbv zeta. split; [reflexivity|]. split; [reflexivity|].
  split; [reflexivity|]. split.
  { intros (_ & H & _). vm_compute in H. by apply H. }
  split; [reflexivity|]. split; [reflexivity|]. split; [reflexivity|].
  split; [reflexivity|]. split; reflexivity.
Qed.

(** C10. Submission is not atomic on error: when the job passes validation
    and quota admission and is persisted, but the enqueue fails (queue at
    capacity, or the job id already queued), [SubmitJob] returns an error
    and the job stays in the repository, Pending, with submitted_at
    stamped; the queue is as before. *)
Theorem SubmitJob_enqueue_failure_keeps_job (s : Scheduler) (job : Job)
    (now : Time.Time) (tenant : Tenant) (r1 : Repository) :
  validateJob job = None ->
  GetTenant (storage s) (jTenantID job) = Ok tenant ->
  HasAvailableQuota tenant (jGPUCount job) (jGPUMemoryMB job)
    (jCPUCores job) (jMemoryMB job) = true ->
  CreateJob (storage s) (job_submitted job now) = Ok r1 ->
  (maxSize (queue s) <= Size (queue s) \/ jID job ∈ jobMap (queue s)) ->
  exists err persisted,
    fst (SubmitJob s job now) = Some (Wrapf "failed to enqueue job" err) /\
    (err = QueueFullError (maxSize (queue s)) \/
     err = JobAlreadyInQueueError (jID job)) /\
    storage (snd (SubmitJob s job now)) = r1 /\
    queue (snd (SubmitJob s job now)) = queue s /\
    tbl_find jID (jID job) (jobs r1) = Some persisted /\
    persisted = job_submitted job now /\
    jState persisted = JobStatePending /\
    jSubmittedAt persisted = now.
Proof.
  intros Hval Hten Hquota Hcreate Hfull.
  assert (Hpers : tbl_find jID (jID job) (jobs r1)
                  = Some (job_submitted job now)).
  { unfold CreateJob, store_write in Hcreate.
    destruct (fails (storage s) _); [discriminate|].
    destruct (tbl_create jID (job_submitted job now) (jobs (storage s)))
      as [t'|] eqn:E; simpl in Hcreate; [|discriminate].
    injection Hcreate as <-. simpl.
    by apply (tbl_create_find jID) in E. }
  assert (Henq : exists err,
             Enqueue (queue s) (job_submitted job now) now = Err err /\
             (err = QueueFullError (maxSize (queue s)) \/
              err = JobAlreadyInQueueError (jID job))).
  { unfold Enqueue, Size in *.
    destruct (maxSize (queue s) <=? Int.len (items (queue s))) eqn:E1.
    - eauto.
    - destruct Hfull as [Hf|Hd]; [apply Z.leb_gt in E1; lia|].
      simpl. rewrite bool_decide_eq_true_2 by done. eauto. }
  destruct Henq as (err & Henq & Herr).
  exists err, (job_submitted job now).
  unfold SubmitJob. rewrite Hval, Hten, Hquota. simpl.
  rewrite Hcreate, Henq. simpl. destruct s; simpl. by repeat split.
Qed.

Lemma SubmitJob_quota_admission_witness :
  1 <= jGPUCount ex_job <= 8 /\
  jTenantID ex_job <> "" /\
  GetTenant (storage (NewScheduler ex_config ex_idle)) (jTenantID ex_job)
    = Ok ex_tenant /\
  (fst (SubmitJob (NewScheduler ex_config ex_idle) ex_job 1000) = None
   <-> quota_within ex_tenant ex_job).
Proof.
  split; [unfold ex_job; cbn; lia|].
  split; [discriminate|]. split; [reflexivity|].
  apply (SubmitJob_quota_admission (NewScheduler ex_config ex_idle) ex_job
           1000 ex_tenant);
    [unfold ex_job; cbn; lia | discriminate | reflexivity | reflexivity
    | reflexivity].
Defined.

Lemma SubmitJob_enqueue_failure_keeps_job_witness :
  maxSize (queue (NewScheduler ex_config_full ex_idle))
    <= Size (queue (NewScheduler ex_config_full ex_idle)) /\
  exists err persisted,
    fst (SubmitJob (NewScheduler ex_config_full ex_idle) ex_job 1000)
      = Some (Wrapf "failed to enqueue job" err) /\
    tbl_find jID (jID ex_job)
      (jobs (storage (snd (SubmitJob (NewScheduler ex_config_full ex_idle)
                             ex_job 1000)))) = Some persisted /\
    jState persisted = JobStatePending /\
    jSubmittedAt persisted = 1000.
Proof.
  split; [vm_compute; discriminate|].
  destruct (SubmitJob_enqueue_failure_keeps_job
              (NewScheduler ex_config_full ex_idle) ex_job 1000 ex_tenant
              (with_jobs ex_idle [job_submitted ex_job 1000]))
    as (err & p & H1 & _ & H3 & _ & H5 & _ & H7 & H8);
    [reflexivity | reflexivity | reflexivity | reflexivity
    | left; vm_compute; discriminate |].
  exists err, p. rewrite H3. by repeat split.
Defined.

(* ===================================================================== *)
(** ** Which tables a write touches *)
(* ===================================================================== *)

Lemma logged_UpdateGPU_tables r g :
  jobs (logged r (UpdateGPU r g)) = jobs r /\
  tenants (logged r (UpdateGPU r g)) = tenants r /\
  nodes (logged r (UpdateGPU r g)) = nodes r /\
  allocations (logged r (UpdateGPU r g)) = allocations r /\
  fails (logged r (UpdateGPU r g)) = fails r.
Proof.
  unfold logged, UpdateGPU, store_write. by destruct (fails r _).
Qed.

Lemma logged_UpdateNode_tables r n :
  jobs (logged r (UpdateNode r n)) = jobs r /\
  tenants (logged r (UpdateNode r n)) = tenants r /\
  gpus (logged r (UpdateNode r n)) = gpus r /\
  allocations (logged r (UpdateNode r n)) = allocations r /\
  fails (logged r (UpdateNode r n)) = fails r.
Proof.
  unfold logged, UpdateNode, store_write. by destruct (fails r _).
Qed.

Lemma logged_UpdateAllocation_tables r a :
  jobs (logged r (UpdateAllocation r a)) = jobs r /\
  tenants (logged r (UpdateAllocation r a)) = tenants r /\
  gpus (logged r (UpdateAllocation r a)) = gpus r /\
  nodes (logged r (UpdateAllocation r a)) = nodes r /\
  fails (logged r (UpdateAllocation r a)) = fails r.
Proof.
  unfold logged, UpdateAllocation, store_write. by destruct (fails r _).
Qed.

Lemma free_gpus_tables ids r :
  jobs (free_gpus r ids) = jobs r /\
  tenants (free_gpus r ids) = tenants r /\
  nodes (free_gpus r ids) = nodes r /\
  allocations (free_gpus r ids) = allocations r /\
  fails (free_gpus r ids) = fails r.
Proof.
  unfold free_gpus. revert r.
  induction ids as [|id ids IH]; intros r; simpl; [done|].
  destruct (GetGPU r id) as [g|e]; [|apply IH].
  destruct (logged_UpdateGPU_tables r (gpu_unbind g)) as (H1&H2&H3&H4&H5).
  destruct (IH (logged r (UpdateGPU r (gpu_unbind g)))) as (K1&K2&K3&K4&K5).
  rewrite K1, K2, K3, K4, K5. done.
Qed.

Lemma preempt_allocation_tenants r a now p :
  jobs (preempt_allocation r a now p) = jobs r /\
  tenants (preempt_allocation r a now p) = tenants r.
Proof.
  unfold preempt_allocation.
  destruct (logged_UpdateAllocation_tables r (alloc_preempted a now p))
    as (H1&H2&_).
  destruct (free_gpus_tables (aGPUIDs (alloc_preempted a now p))
              (logged r (UpdateAllocation r (alloc_preempted a now p))))
    as (K1&K2&_).
  destruct (GetNode _ _) as [n|e].
  - match goal with
    | |- context [logged ?r2 (UpdateNode ?r2 ?n2)] =>
        destruct (logged_UpdateNode_tables r2 n2) as (L1&L2&_)
    end.
    rewrite L1, L2, K1, K2. done.
  - rewrite K1, K2. done.
Qed.

(** [Preempt] never writes the tenant table, whatever it returns. *)
Lemma Preempt_tenants_unchanged r victim p now :
  tenants (snd (Preempt r victim p now)) = tenants r.
Proof.
  unfold Preempt, UpdateJob, store_write.
  destruct (fails r _); [done|]. simpl.
  set (r1 := with_jobs r _).
  destruct (GetJobAllocations r1 _) as [allocs|e]; [|done]. simpl.
  change (tenants r) with (tenants r1). generalize r1. clear r1.
  induction allocs as [|a allocs IH]; intros r1; simpl; [done|].
  rewrite IH. apply preempt_allocation_tenants.
Qed.

(* ===================================================================== *)
(** ** Preemption, release, gang allocation on the example cluster *)
(* ===================================================================== *)

(** C3. [Preempt] on the running job [job-low] (2 GPUs, tenant usage 2 GPUs
    and 1 job) returns no error; the victim is Preempted with
    preempted_count 1, its allocation is Preempted, stamped and attributed
    to the requesting job, its GPUs are unbound and the node's counters are
    back to the totals; the tenant's usage is not decreased: it still shows
    2 GPUs and 1 job. *)
Theorem Preempt_leaves_tenant_usage_charged :
  let out := Preempt ex_running ex_victim "job-high" 50 in
  fst out = None /\
  jobs (snd out) = [job_preempted ex_victim] /\
  jState (job_preempted ex_victim) = JobStatePreempted /\
  jPreemptedCount (job_preempted ex_victim) = 1 /\
  allocations (snd out) = [alloc_preempted ex_alloc 50 "job-high"] /\
  gpus (snd out) = [ex_gpu_free "gpu-1"; ex_gpu_free "gpu-2"] /\
  nodes (snd out) = [ex_node_idle] /\
  tenants (snd out) = [ex_tenant_charged] /\
  tCurrentGPUs ex_tenant_charged = 2 /\
  tCurrentJobs ex_tenant_charged = 1 /\
  jGPUCount ex_victim = 2.
Proof. vm_compute. by repeat split. Qed.

(** C5. A second [Free] of the released allocation [alloc-20] returns no
    error and changes the state again: the node's available counters grow
    a second time (4 GPUs available on a node of 2) and completed_at and
    the duration are stamped anew. *)
Theorem Free_twice_changes_state :
  let first := Free ex_running "alloc-20" 60 in
  let second := Free (snd first) "alloc-20" 70 in
  fst first = None /\ fst second = None /\
  nodes (snd first) = [ex_node_idle] /\
  map nAvailableGPUs (nodes (snd second)) = [4] /\
  map nAvailableCPUCores (nodes (snd second)) = [12] /\
  map nAvailableMemoryMB (nodes (snd second)) = [24000] /\
  map nTotalGPUs (nodes (snd second)) = [2] /\
  map aCompletedAt (allocations (snd first)) = [Some 60] /\
  map aCompletedAt (allocations (snd second)) = [Some 70] /\
  map aState (allocations (snd first)) = [AllocationCompleted] /\
  gpus (snd second) = gpus (snd first).
Proof. vm_compute. by repeat split. Qed.

(** The same at one and the same instant: the counters still move. *)
Lemma Free_twice_same_instant :
  let first := Free ex_running "alloc-20" 60 in
  let second := Free (snd first) "alloc-20" 60 in
  allocations (snd second) = allocations (snd first) /\
  gpus (snd second) = gpus (snd first) /\
  nodes (snd second) <> nodes (snd first).
Proof. vm_compute. repeat split. discriminate. Qed.

(** A successful [Free], on a store that does not fail. *)
Lemma Free_ok r id now a n :
  (forall op, fails r op = false) ->
  tbl_find aID id (allocations r) = Some a ->
  tbl_find nID (aNodeID a) (nodes r) = Some n ->
  exists r',
    Free r id now = (None, r') /\
    (forall op, fails r' op = false) /\
    tbl_find aID id (allocations r') = Some (alloc_completed a now) /\
    tbl_find nID (aNodeID a) (nodes r')
      = Some (node_give n (Int.len (aGPUIDs a)) (aCPUCores a) (aMemoryMB a)).
Proof.
  intros Hf Ha Hn.
  pose proof (tbl_find_key aID _ _ _ Ha) as Hid.
  pose proof (tbl_find_key nID _ _ _ Hn) as Hnid.
  unfold Free, GetAllocation, store_get. rewrite Hf, Ha.
  unfold UpdateAllocation, store_write. rewrite Hf.
  set (r1 := with_allocations r _).
  destruct (free_gpus_tables (aGPUIDs (alloc_completed a now)) r1)
    as (_ & _ & Hnodes & Hallocs & Hfails).
  set (r2 := free_gpus r1 _) in *.
  unfold GetNode, store_get. rewrite Hfails. cbn [fails r1 with_allocations].
  rewrite Hf, Hnodes. cbn [nodes r1 with_allocations aNodeID alloc_completed].
  rewrite Hn. unfold UpdateNode, store_write. rewrite Hfails.
  cbn [fails r1 with_allocations]. rewrite Hf.
  eexists. split; [reflexivity|]. cbn [fails with_nodes nodes allocations].
  rewrite Hfails, Hallocs, Hnodes.
  cbn [fails allocations nodes r1 with_allocations aGPUIDs aCPUCores
       aMemoryMB alloc_completed].
  split; [done|]. split.
  - rewrite <- Hid at 1.
    change (aID a) with (aID (alloc_completed a now)).
    apply tbl_save_find.
  - rewrite <- Hnid at 1.
    change (nID n) with
      (nID (node_give n (Int.len (aGPUIDs a)) (aCPUCores a) (aMemoryMB a))).
    apply tbl_save_find.
Qed.

(** On every store that does not fail, a second [Free] of a released
    allocation succeeds again and adds the allocation's amounts to the
    node's counters a second time. *)
Lemma Free_twice_adds_twice r id now1 now2 a n :
  (forall op, fails r op = false) ->
  tbl_find aID id (allocations r) = Some a ->
  tbl_find nID (aNodeID a) (nodes r) = Some n ->
  let first := Free r id now1 in
  let second := Free (snd first) id now2 in
  fst first = None /\ fst second = None /\
  tbl_find nID (aNodeID a) (nodes (snd first))
    = Some (node_give n (Int.len (aGPUIDs a)) (aCPUCores a) (aMemoryMB a)) /\
  tbl_find nID (aNodeID a) (nodes (snd second))
    = Some (node_give
              (node_give n (Int.len (aGPUIDs a)) (aCPUCores a) (aMemoryMB a))
              (Int.len (aGPUIDs a)) (aCPUCores a) (aMemoryMB a)) /\
  tbl_find aID id (allocations (snd second))
    = Some (alloc_completed (alloc_completed a now1) now2).
Proof.
  intros Hf Ha Hn.
  destruct (Free_ok r id now1 a n Hf Ha Hn) as (r1 & E1 & Hf1 & Ha1 & Hn1).
  destruct (Free_ok r1 id now2 (alloc_completed a now1) _ Hf1 Ha1 Hn1)
    as (r2 & E2 & Hf2 & Ha2 & Hn2).
  cbn zeta. rewrite E1. cbn [fst snd]. rewrite E2. cbn [fst snd].
  by repeat split.
Qed.

(** C4. A gang request for two GPUs on a store whose [UpdateGPU] fails for
    [gpu-2]: [gangSchedule] reports success, the Active allocation lists
    both GPUs and the node's counters are decremented by two, but only
    [gpu-1] is bound; [gpu-2] is left unallocated. *)
Theorem gangSchedule_partial_binding :
  let out := gangSchedule ex_idle_faulty ex_gang_request [ex_node_idle] 30 in
  outErr out = None /\
  (resSuccess <$> outResult out) = Some true /\
  map aState (allocations (outRepo out)) = [AllocationActive] /\
  map aGPUIDs (allocations (outRepo out)) = [["gpu-1"; "gpu-2"]] /\
  map nAvailableGPUs (nodes (outRepo out)) = [0] /\
  map gAllocated (gpus (outRepo out)) = [true; false] /\
  map gAllocationID (gpus (outRepo out)) = ["alloc-30"; ""].
Proof. vm_compute. by repeat split. Qed.

(** The same through [Allocate]. *)
Lemma Allocate_gang_partial_binding :
  let out := Allocate ex_idle_faulty ex_gang_request 30 in
  outErr out = None /\
  map gAllocated (gpus (outRepo out)) = [true; false].
Proof. vm_compute. by repeat split. Qed.

(* ===================================================================== *)
(** ** A failed allocation changes nothing *)
(* ===================================================================== *)

Lemma createAllocation_error r request node gs now e :
  outErr (createAllocation r request node gs now) = Some e ->
  outRepo (createAllocation r request node gs now) = r.
Proof.
  unfold createAllocation. by destruct (CreateAllocation r _).
Qed.

Lemma gangSchedule_error r request nodes now e :
  outErr (gangSchedule r request nodes now) = Some e ->
  outRepo (gangSchedule r request nodes now) = r.
Proof.
  induction nodes as [|node rest IH]; simpl; [done|].
  destruct (rGPUCount request <=? nAvailableGPUs node); [|done].
  destruct (ListGPUsByNode r (nID node)) as [gs|e']; [|done].
  destruct (Int.len _ =? rGPUCount request); [|done].
  apply createAllocation_error.
Qed.

Lemma bestFitSchedule_error r request nodes now e :
  outErr (bestFitSchedule r request nodes now) = Some e ->
  outRepo (bestFitSchedule r request nodes now) = r.
Proof.
  unfold bestFitSchedule.
  destruct (best_fit_search r request nodes now 999999 None)
    as [[[n gs]|]|e']; [|done|done].
  apply createAllocation_error.
Qed.

Lemma Allocate_error r request now e :
  outErr (Allocate r request now) = Some e ->
  outRepo (Allocate r request now) = r.
Proof.
  unfold Allocate. destruct (ListNodes r) as [ns|e']; [|done].
  destruct (length _ =? 0)%nat; [done|].
  destruct (rGangScheduling request);
    [apply gangSchedule_error|apply bestFitSchedule_error].
Qed.

Lemma tryAllocateJob_error r job now e r1 :
  tryAllocateJob r job now = (Err e, r1) -> r1 = r.
Proof.
  unfold tryAllocateJob.
  set (out := Allocate r _ now).
  destruct (outErr out) as [e'|] eqn:E; [|discriminate].
  intros [= _ <-]. by apply Allocate_error in E.
Qed.

(** A gang request that ends in the gang-scheduling failure leaves the
    store as it was. *)
Lemma gangSchedule_failure_no_change r request nodes now :
  outErr (gangSchedule r request nodes now) = Some ErrGangSchedulingFailed ->
  outRepo (gangSchedule r request nodes now) = r.
Proof. apply gangSchedule_error. Qed.

(* ===================================================================== *)
(** ** Gang allocation on a store that does not fail *)
(* ===================================================================== *)

Lemma gang_collect_spec gs acc count now :
  exists l,
    gang_collect gs acc count now = acc ++ l /\
    Forall (fun g => In g gs /\ IsAvailable g now = true) l /\
    (NoDup (map gID gs) -> NoDup (map gID l)).
Proof.
  revert acc. induction gs as [|g rest IH]; intros acc; simpl.
  - exists []. rewrite app_nil_r. repeat split; [constructor|].
    intros _. constructor.
  - destruct (IsAvailable g now) eqn:Eav.
    + destruct (Int.len (acc ++ [g]) =? count).
      * exists [g]. repeat split.
        -- constructor; [auto|constructor].
        -- intros _. simpl. apply NoDup_singleton.
      * destruct (IH (acc ++ [g])) as (l & -> & Hall & Hnd).
        exists (g :: l). rewrite <- app_assoc. simpl. repeat split.
        -- constructor; [auto|].
           eapply Forall_impl; [exact Hall|]. simpl. intros x [? ?]. auto.
        -- intros Hn. apply NoDup_cons in Hn as [Hg Hrest]. simpl.
           apply NoDup_cons. split; [|by apply Hnd].
           intros Hin. apply Hg.
           apply list_elem_of_fmap in Hin as (x & -> & Hx).
           rewrite Forall_forall in Hall. destruct (Hall x Hx) as [Hxin _].
           apply list_elem_of_fmap. exists x. split; [done|].
           by apply list_elem_of_In.
    + destruct (IH acc) as (l & -> & Hall & Hnd).
      exists l. repeat split.
      * eapply Forall_impl; [exact Hall|]. simpl. intros x [? ?]. auto.
      * intros Hn. apply NoDup_cons in Hn as [_ Hrest]. by apply Hnd.
Qed.

(** Marking touches the GPUs of the list only. *)
Lemma mark_gpus_other gs r allocID jobID tenantID id :
  id ∉ map gID gs ->
  tbl_find gID id (gpus (mark_gpus r gs allocID jobID tenantID))
    = tbl_find gID id (gpus r).
Proof.
  unfold mark_gpus. revert r.
  induction gs as [|g gs IH]; intros r Hid; simpl; [done|].
  simpl in Hid. apply not_elem_of_cons in Hid as [Hne Hid].
  rewrite IH by done. unfold logged, UpdateGPU, store_write.
  destruct (fails r _); [done|]. simpl.
  apply tbl_save_find_ne. simpl. congruence.
Qed.

Lemma mark_gpus_tables gs r allocID jobID tenantID :
  jobs (mark_gpus r gs allocID jobID tenantID) = jobs r /\
  tenants (mark_gpus r gs allocID jobID tenantID) = tenants r /\
  nodes (mark_gpus r gs allocID jobID tenantID) = nodes r /\
  allocations (mark_gpus r gs allocID jobID tenantID) = allocations r /\
  fails (mark_gpus r gs allocID jobID tenantID) = fails r.
Proof.
  unfold mark_gpus. revert r.
  induction gs as [|g gs IH]; intros r; simpl; [done|].
  destruct (logged_UpdateGPU_tables r (gpu_bind g allocID jobID tenantID))
    as (H1&H2&H3&H4&H5).
  destruct (IH (logged r (UpdateGPU r (gpu_bind g allocID jobID tenantID))))
    as (K1&K2&K3&K4&K5).
  rewrite K1, K2, K3, K4, K5. done.
Qed.

(** On a store that does not fail, every GPU of the list ends up bound. *)
Lemma mark_gpus_bound gs r allocID jobID tenantID :
  (forall op, fails r op = false) ->
  NoDup (map gID gs) ->
  Forall (fun g =>
            tbl_find gID (gID g)
              (gpus (mark_gpus r gs allocID jobID tenantID))
            = Some (gpu_bind g allocID jobID tenantID)) gs.
Proof.
  revert r. induction gs as [|g gs IH]; intros r Hf Hnd; [constructor|].
  simpl in Hnd. apply NoDup_cons in Hnd as [Hg Hnd].
  assert (Hstep : logged r (UpdateGPU r (gpu_bind g allocID jobID tenantID))
                  = with_gpus r (tbl_save gID
                                   (gpu_bind g allocID jobID tenantID)
                                   (gpus r))).
  { unfold logged, UpdateGPU, store_write. by rewrite Hf. }
  constructor.
  - unfold mark_gpus. simpl. fold (mark_gpus
      (logged r (UpdateGPU r (gpu_bind g allocID jobID tenantID))) gs
      allocID jobID tenantID).
    rewrite mark_gpus_other by done. rewrite Hstep. simpl.
    apply (tbl_save_find gID (gpu_bind g allocID jobID tenantID)).
  - unfold mark_gpus. simpl. fold (mark_gpus
      (logged r (UpdateGPU r (gpu_bind g allocID jobID tenantID))) gs
      allocID jobID tenantID).
    apply IH; [|done]. rewrite Hstep. done.
Qed.

Lemma gang_all_or_nothing_cons r request node rest now out :
  gang_all_or_nothing r request rest now out ->
  gang_all_or_nothing r request (node :: rest) now out.
Proof.
  intros [H|(n0 & gs & H0 & Hin & Hrest)]; [by left|].
  right. exists n0, gs. split; [done|]. split; [by right|exact Hrest].
Qed.

(** When no call of the store fails (and the allocation id is new), a gang
    request has two outcomes only: the gang-scheduling failure with the
    store unchanged, or one Active allocation on one node whose GPUs, as
    many as requested, are all bound, with the node's counters
    decremented. *)
Lemma gangSchedule_all_or_nothing r request ns now :
  (forall op, fails r op = false) ->
  tbl_find aID (generateAllocationID now) (allocations r) = None ->
  tbl_unique gID (gpus r) ->
  gang_all_or_nothing r request ns now (gangSchedule r request ns now).
Proof.
  intros Hf Hfresh Huniq.
  induction ns as [|node rest IH]; simpl; [by left|].
  apply (gang_all_or_nothing_cons _ _ node) in IH.
  destruct (rGPUCount request <=? nAvailableGPUs node); [|exact IH].
  unfold ListGPUsByNode, store_list. rewrite Hf.
  set (listed := List.filter _ (gpus r)).
  destruct (gang_collect_spec listed [] (rGPUCount request) now)
    as (gs & Hgs & Hall & Hnd).
  rewrite Hgs. cbn [app].
  destruct (Z.eqb_spec (Int.len gs) (rGPUCount request)) as [Hlen|Hlen];
    [|exact IH].
  clear IH. right. exists node, gs.
  unfold createAllocation, CreateAllocation, store_write, tbl_create.
  rewrite Hf. cbn [aID]. rewrite Hfresh. cbn [fmap option_fmap option_map].
  set (alloc := mkAllocation _ _ _ _ _ _ _ _ _ _ _ _ _ _ _).
  set (r1 := with_allocations r (allocations r ++ [alloc])).
  destruct (mark_gpus_tables gs r1 (generateAllocationID now)
              (rJobID request) (rTenantID request))
    as (_ & _ & Hn2 & Ha2 & Hf2).
  set (r2 := mark_gpus r1 gs _ _ _) in *.
  assert (Hnode : logged r2 (UpdateNode r2
                    (node_take node (Int.len gs) (rCPUCores request)
                       (rMemoryMB request)))
                  = with_nodes r2 (tbl_save nID
                      (node_take node (Int.len gs) (rCPUCores request)
                         (rMemoryMB request)) (nodes r2))).
  { unfold logged, UpdateNode, store_write. rewrite Hf2.
    cbn [fails r1 with_allocations]. by rewrite Hf. }
  cbn [outErr outRepo]. rewrite Hnode. cbn [with_nodes allocations gpus nodes].
  rewrite Ha2, Hn2. cbn [r1 with_allocations allocations nodes].
  assert (Hnd' : NoDup (map gID gs)).
  { apply Hnd. unfold listed. by apply NoDup_map_filter. }
  repeat split.
  - by left.
  - done.
  - eapply Forall_impl; [exact Hall|]. simpl. intros g [Hin Hav].
    unfold listed in Hin. apply filter_In in Hin as [Hin Hnid].
    apply String.eqb_eq in Hnid. auto.
  - apply mark_gpus_bound; [|done]. by cbn [fails r1 with_allocations].
  - intros id Hid. unfold r2. by rewrite mark_gpus_other.
  - by rewrite Hlen.
Qed.

(* ===================================================================== *)
(** ** The thermal option *)
(* ===================================================================== *)

Lemma Since_pos now t : 0 < Time.Since now t <-> t < now.
Proof.
  unfold Time.Since, Time.Sub, Int.min_int, Int.max_int.
  change (2 ^ 63) with 9223372036854775808. lia.
Qed.

Lemma IsAvailable_spec g now :
  IsAvailable g now = true <->
  gAllocated g = false /\ gHealth g = HealthHealthy /\
  gThermalThrottle g = false /\ gCoolingPeriod g < now.
Proof.
  unfold IsAvailable. rewrite !andb_true_iff, !negb_true_iff, Z.ltb_lt.
  rewrite Since_pos.
  assert (GPUHealth_eqb (gHealth g) HealthHealthy = true
          <-> gHealth g = HealthHealthy) as ->
    by apply String.eqb_eq.
  tauto.
Qed.

Lemma tryPreemption_with_thermal s b job now :
  tryPreemption (with_thermal s b) job now =
  (fst (tryPreemption s job now),
   with_thermal (snd (tryPreemption s job now)) b).
Proof.
  unfold tryPreemption. simpl.
  destruct (EnablePreemption (config s)) eqn:E; simpl; [|done].
  destruct (SelectVictims (storage s) job) as [vs|e]; [|done].
  destruct (length vs =? 0)%nat; [done|].
  destruct (preempt_all (storage s) vs (jID job) now (preemptedJobs s))
    as [[ok r'] c].
  unfold with_thermal. simpl. by rewrite E.
Qed.

Lemma cycle_loop_with_thermal fuel clock k s b :
  cycle_loop fuel clock k (with_thermal s b) =
  with_thermal (cycle_loop fuel clock k s) b.
Proof.
  revert k s. induction fuel as [|fuel IH]; intros k s; [done|].
  cbn [cycle_loop].
  change (queue (with_thermal s b)) with (queue s).
  change (storage (with_thermal s b)) with (storage s).
  destruct (IsEmpty (queue s)); [done|].
  destruct (Peek (queue s)) as [job|]; [|done].
  destruct (tryAllocateJob (storage s) job (clock k)) as [[allocated|err] r1].
  - change (with_storage (with_thermal s b) r1)
      with (with_thermal (with_storage s r1) b).
    destruct allocated; [|done].
    change (queue (with_thermal (with_storage s r1) b))
      with (queue (with_storage s r1)).
    change (storage (with_thermal (with_storage s r1) b))
      with (storage (with_storage s r1)).
    destruct (startJob (storage (with_storage s r1)) job (clock k))
      as [[e|] r2];
      match goal with
      | |- _ = with_thermal (cycle_loop _ _ _ ?s') _ => exact (IH (S k) s')
      end.
  - change (with_storage (with_thermal s b) r1)
      with (with_thermal (with_storage s r1) b).
    change (EnablePreemption (config (with_thermal (with_storage s r1) b)))
      with (EnablePreemption (config (with_storage s r1))).
    destruct (EnablePreemption (config (with_storage s r1))
              && IsResourceError err); [|done].
    rewrite tryPreemption_with_thermal.
    destruct (tryPreemption (with_storage s r1) job (clock k)) as [[] s2];
      simpl; [apply IH|done].
Qed.

(** C9 as stated fails: with [enable_thermal_aware = false], a GPU that is
    unallocated and Healthy but throttled is not treated as available; the
    allocation of the one-GPU job fails for lack of resources and a cycle
    leaves the job queued and Pending. *)
Lemma thermal_option_off_throttled_gpu_unavailable :
  let s := snd (SubmitJob (NewScheduler ex_config_no_thermal
                             (with_jobs ex_throttled [])) ex_small_job 0) in
  EnableThermalAware (config s) = false /\
  gAllocated ex_gpu_throttled = false /\
  gHealth ex_gpu_throttled = HealthHealthy /\
  gThermalThrottle ex_gpu_throttled = true /\
  IsAvailable ex_gpu_throttled 1000 = false /\
  Peek (queue s) = Some ex_small_job /\
  tryAllocateJob (storage s) ex_small_job 1000
    = (Err ErrInsufficientResources, storage s) /\
  Peek (queue (schedulingCycle 5 1000 (fun _ => 1000) s))
    = Some ex_small_job /\
  jobs (storage (schedulingCycle 5 1000 (fun _ => 1000) s)) = [ex_small_job] /\
  allocations (storage (schedulingCycle 5 1000 (fun _ => 1000) s)) = [].
Proof. vm_compute. by repeat split. Qed.

(** C9, amended.  The availability predicate of the allocator does not
    consult [enable_thermal_aware]: a GPU is available exactly when it is
    not allocated, Healthy, not throttled, and its cooling period lies in
    the past; and a scheduling cycle does the same whatever the value of
    the option. *)
Theorem IsAvailable_ignores_thermal_option :
  (forall g now,
     IsAvailable g now = true <->
     gAllocated g = false /\ gHealth g = HealthHealthy /\
     gThermalThrottle g = false /\ gCoolingPeriod g < now) /\
  (forall fuel now clock s b,
     schedulingCycle fuel now clock (with_thermal s b) =
     with_thermal (schedulingCycle fuel now clock s) b).
Proof.
  split; [apply IsAvailable_spec|].
  intros fuel now clock s b. unfold schedulingCycle.
  change (with_queue (with_thermal s b)
            (ApplyAging (queue (with_thermal s b)) 10 (5 * Time.Minute) now))
    with (with_thermal
            (with_queue s (ApplyAging (queue s) 10 (5 * Time.Minute) now)) b).
  apply cycle_loop_with_thermal.
Qed.

(* ===================================================================== *)
(** ** The scheduling cycle: head-of-line blocking *)
(* ===================================================================== *)

Lemma createAllocation_success r request node gs now :
  outErr (createAllocation r request node gs now) = None ->
  resSuccess <$> outResult (createAllocation r request node gs now)
    = Some true.
Proof.
  unfold createAllocation. by destruct (CreateAllocation r _).
Qed.

Lemma Allocate_success r request now :
  outErr (Allocate r request now) = None ->
  resSuccess <$> outResult (Allocate r request now) = Some true.
Proof.
  unfold Allocate. destruct (ListNodes r) as [ns|e]; [|done].
  destruct (length _ =? 0)%nat; [done|].
  destruct (rGangScheduling request).
  - generalize (List.filter
                  (fun node => HasCapacity node (rGPUCount request)
                                 (rCPUCores request) (rMemoryMB request)) ns).
    intros l. induction l as [|node rest IH]; simpl; [done|].
    destruct (rGPUCount request <=? nAvailableGPUs node); [|done].
    destruct (ListGPUsByNode r (nID node)) as [gs|e']; [|done].
    destruct (Int.len _ =? rGPUCount request); [|done].
    apply createAllocation_success.
  - unfold bestFitSchedule.
    destruct (best_fit_search _ _ _ _ _ _) as [[[n gs]|]|e']; [|done|done].
    apply createAllocation_success.
Qed.

(** [tryAllocateJob] either allocates or returns an error, and in the
    second case the store is untouched. *)
Lemma tryAllocateJob_not_allocated r job now :
  fst (tryAllocateJob r job now) <> Ok true ->
  exists err, tryAllocateJob r job now = (Err err, r).
Proof.
  unfold tryAllocateJob.
  set (out := Allocate r _ now).
  destruct (outErr out) as [e|] eqn:E.
  - intros _. exists e. f_equal. apply (Allocate_error _ _ _ _ E).
  - apply Allocate_success in E. fold out in E.
    destruct (outResult out) as [res|]; [|done].
    simpl in *. injection E as ->. done.
Qed.

Lemma with_storage_same s : with_storage s (storage s) = s.
Proof. by destruct s. Qed.

Lemma cycle_loop_blocked fuel clock k s job :
  Peek (queue s) = Some job ->
  fst (tryAllocateJob (storage s) job (clock k)) <> Ok true ->
  (EnablePreemption (config s) = false \/
   forall v vs, SelectVictims (storage s) job <> Ok (v :: vs)) ->
  cycle_loop fuel clock k s = s.
Proof.
  intros Hpeek Halloc Hpre.
  destruct fuel as [|fuel]; [done|]. cbn [cycle_loop].
  destruct (IsEmpty (queue s)); [done|]. rewrite Hpeek.
  destruct (tryAllocateJob_not_allocated _ _ _ Halloc) as [err ->].
  rewrite with_storage_same.
  destruct (EnablePreemption (config s)) eqn:E; simpl; [|done].
  destruct (IsResourceError err); [|done].
  destruct Hpre as [Hpre|Hpre]; [discriminate|].
  unfold tryPreemption. rewrite E. simpl.
  destruct (SelectVictims (storage s) job) as [[|v vs]|e]; [done| |done].
  by destruct (Hpre v vs).
Qed.

(** C7. Head-of-line blocking.  At any iteration of the cycle's loop, if
    the job at the head of the queue cannot be allocated, and preemption is
    disabled or no victim is found, the loop stops there: the queue, the
    store and the counters stay as they are, so no job behind the head is
    dequeued or set Running. *)
Theorem cycle_never_skips_head (fuel : nat) (clock : nat -> Time.Time)
    (k : nat) (s : Scheduler) (job : Job) :
  Peek (queue s) = Some job ->
  fst (tryAllocateJob (storage s) job (clock k)) <> Ok true ->
  (EnablePreemption (config s) = false \/
   forall v vs, SelectVictims (storage s) job <> Ok (v :: vs)) ->
  cycle_loop fuel clock k s = s /\
  queue (cycle_loop fuel clock k s) = queue s /\
  jobs (storage (cycle_loop fuel clock k s)) = jobs (storage s).
Proof.
  intros H1 H2 H3. by rewrite (cycle_loop_blocked fuel clock k s job).
Qed.

Lemma cycle_never_skips_head_witness :
  Peek (queue ex_blocked) = Some (job_submitted ex_high_job 20) /\
  map qJob (items (queue ex_blocked))
    = [job_submitted ex_high_job 20; job_submitted ex_small_job 10] /\
  fst (tryAllocateJob (storage ex_blocked) (job_submitted ex_small_job 10)
         1000) = Ok true /\
  cycle_loop 5 (fun _ => 1000) 0 ex_blocked = ex_blocked.
Proof.
  split; [reflexivity|]. split; [reflexivity|]. split; [reflexivity|].
  apply (cycle_never_skips_head 5 (fun _ => 1000) 0 ex_blocked
           (job_submitted ex_high_job 20)).
  - reflexivity.
  - vm_compute. discriminate.
  - right. intros v vs. vm_compute. discriminate.
Defined.

(** The same for a whole cycle: when the head after aging is blocked, the
    cycle only ages the queue. *)
Lemma schedulingCycle_blocked_head fuel now clock s job :
  let s0 := with_queue s (ApplyAging (queue s) 10 (5 * Time.Minute) now) in
  Peek (queue s0) = Some job ->
  fst (tryAllocateJob (storage s0) job (clock 0%nat)) <> Ok true ->
  (EnablePreemption (config s0) = false \/
   forall v vs, SelectVictims (storage s0) job <> Ok (v :: vs)) ->
  schedulingCycle fuel now clock s = s0.
Proof.
  intros s0 H1 H2 H3. unfold schedulingCycle.
  by apply (cycle_loop_blocked fuel clock 0 s0 job).
Qed.

(* ===================================================================== *)
(** ** Victim selection *)
(* ===================================================================== *)

Lemma is_candidate_spec r requestingJob job :
  is_candidate r requestingJob job = true <->
  jPriority job < jPriority requestingJob /\
  exists tenant, GetTenant r (jTenantID job) = Ok tenant /\
                 tAllowPreemption tenant = true.
Proof.
  unfold is_candidate.
  destruct (jPriority job <? jPriority requestingJob) eqn:E.
  - apply Z.ltb_lt in E.
    destruct (GetTenant r (jTenantID job)) as [t|e].
    + split; [intros H; eauto|]. by intros (_ & t' & [= <-] & H).
    + split; [done|]. by intros (_ & t' & ? & _).
  - apply Z.ltb_ge in E. split; [done|]. intros [H _]. lia.
Qed.

(** The scan of [pick_victim] from a bound [low]: either no candidate is
    below the bound and nothing is picked, or it picks the first of the
    candidates of least priority. *)
Lemma pick_victim_scan (cands : list Job) (low : Z) (acc : option Job) :
  let out := fold_left
               (fun '(lowestPriority, victim) candidate =>
                  if jPriority candidate <? lowestPriority
                  then (jPriority candidate, Some candidate)
                  else (lowestPriority, victim))
               cands (low, acc) in
  (Forall (fun c => low <= jPriority c) cands /\ out = (low, acc)) \/
  (exists pre v post,
      cands = pre ++ v :: post /\ out = (jPriority v, Some v) /\
      jPriority v < low /\
      Forall (fun c => jPriority v < jPriority c) pre /\
      Forall (fun c => jPriority v <= jPriority c) post).
Proof.
  revert low acc. induction cands as [|c rest IH]; intros low acc; simpl.
  - left. by split.
  - destruct (jPriority c <? low) eqn:E.
    + apply Z.ltb_lt in E.
      destruct (IH (jPriority c) (Some c)) as [[Hall Hout]|Hex].
      * right. exists [], c, rest. simpl. by repeat split.
      * destruct Hex as (pre & v & post & -> & Hout & Hlt & Hpre & Hpost).
        right. exists (c :: pre), v, post. simpl.
        repeat split; [done|lia| |done]. by constructor.
    + apply Z.ltb_ge in E.
      destruct (IH low acc) as [[Hall Hout]|Hex].
      * left. split; [by constructor|done].
      * destruct Hex as (pre & v & post & -> & Hout & Hlt & Hpre & Hpost).
        right. exists (c :: pre), v, post. simpl.
        repeat split; [done|done| |done]. constructor; [lia|done].
Qed.

(** C6 as stated fails: of two candidates of equal priority, the one the
    store lists first is returned, although the other one started
    earlier. *)
Lemma SelectVictims_tie_not_by_started_at :
  candidates ex_ties ex_high_job = [ex_late; ex_early] /\
  jPriority ex_early = jPriority ex_late /\
  started ex_early < started ex_late /\
  SelectVictims ex_ties ex_high_job = Ok [ex_late].
Proof. vm_compute. by repeat split. Qed.

(** C6, amended.  Victim selection lists the jobs in state Running, keeps
    as candidates those of priority strictly below the requesting job's
    whose tenant is found and allows preemption, and returns the single
    candidate of lowest priority; among candidates of that priority it
    returns the one the store lists first.  It returns no victim when
    there is no candidate.  (For requesting priorities up to 999999.) *)
Theorem SelectVictims_lowest_priority_first_listed (r : Repository)
    (requestingJob : Job) :
  fails r (OpListJobsByState JobStateRunning) = false ->
  jPriority requestingJob <= 999999 ->
  (forall job,
     In job (candidates r requestingJob) <->
     In job (jobs r) /\ jState job = JobStateRunning /\
     jPriority job < jPriority requestingJob /\
     exists tenant, GetTenant r (jTenantID job) = Ok tenant /\
                    tAllowPreemption tenant = true) /\
  (candidates r requestingJob = [] -> SelectVictims r requestingJob = Ok []) /\
  (candidates r requestingJob <> [] ->
   exists pre victim post,
     candidates r requestingJob = pre ++ victim :: post /\
     SelectVictims r requestingJob = Ok [victim] /\
     Forall (fun c => jPriority victim < jPriority c) pre /\
     Forall (fun c => jPriority victim <= jPriority c) post).
Proof.
  intros Hlist Hprio. split; [|split].
  - intros job. unfold candidates.
    rewrite !filter_In, is_candidate_spec.
    assert (JobState_eqb (jState job) JobStateRunning = true
            <-> jState job = JobStateRunning) as ->
      by apply String.eqb_eq.
    tauto.
  - intros Hnil. unfold SelectVictims, ListJobsByState, store_list.
    rewrite Hlist. fold (candidates r requestingJob). by rewrite Hnil.
  - intros Hne. unfold SelectVictims, ListJobsByState, store_list.
    rewrite Hlist. fold (candidates r requestingJob).
    destruct (candidates r requestingJob) as [|c cs] eqn:Ec; [done|].
    cbn [length Nat.eqb]. unfold pick_victim.
    assert (Hc : jPriority c < 999999).
    { assert (In c (candidates r requestingJob)) as Hin
        by (rewrite Ec; by left).
      unfold candidates in Hin. apply filter_In in Hin as [_ Hin].
      apply is_candidate_spec in Hin as [Hin _]. lia. }
    destruct (pick_victim_scan (c :: cs) 999999 None) as [[Hall _]|Hex].
    + inversion Hall; subst. lia.
    + destruct Hex as (pre & v & post & Heq & Hout & _ & Hpre & Hpost).
      exists pre, v, post. rewrite Hout. simpl. by repeat split.
Qed.

Lemma SelectVictims_lowest_priority_first_listed_witness :
  fails ex_ties (OpListJobsByState JobStateRunning) = false /\
  jPriority ex_high_job <= 999999 /\
  exists pre victim post,
    candidates ex_ties ex_high_job = pre ++ victim :: post /\
    SelectVictims ex_ties ex_high_job = Ok [victim] /\
    Forall (fun c => jPriority victim < jPriority c) pre /\
    Forall (fun c => jPriority victim <= jPriority c) post.
Proof.
  split; [reflexivity|]. split; [vm_compute; discriminate|].
  apply (SelectVictims_lowest_priority_first_listed ex_ties ex_high_job);
    [reflexivity | vm_compute; discriminate | vm_compute; discriminate].
Defined.

(* ===================================================================== *)
(** ** The order of [Less] *)
(* ===================================================================== *)

Lemma item_less_spec a b :
  item_less a b = true <->
  total_priority b < total_priority a \/
  (total_priority a = total_priority b /\ qEnqueuedAt a < qEnqueuedAt b).
Proof.
  unfold item_less, Time.Before.
  destruct (Z.eqb_spec (total_priority a) (total_priority b)); simpl;
    rewrite Z.ltb_lt; lia.
Qed.

Lemma item_less_false a b :
  item_less a b = false <->
  total_priority a < total_priority b \/
  (total_priority a = total_priority b /\ qEnqueuedAt b <= qEnqueuedAt a).
Proof.
  rewrite <- not_true_iff_false, item_less_spec. lia.
Qed.

Lemma item_less_asym a b : item_less a b = true -> item_less b a = false.
Proof. rewrite item_less_spec, item_less_false. lia. Qed.

Lemma item_less_trans a b c :
  item_less a b = true -> item_less b c = true -> item_less a c = true.
Proof. rewrite !item_less_spec. lia. Qed.

Lemma item_less_negtrans a b c :
  item_less a b = false -> item_less b c = false -> item_less a c = false.
Proof. rewrite !item_less_false. lia. Qed.

Lemma item_less_strip a b : item_less (strip a) (strip b) = item_less a b.
Proof. done. Qed.

Lemma strip_set_index a i : strip (set_index a i) = strip a.
Proof. done. Qed.

Lemma pq_Less_strip pq x y :
  pq_Less pq x y =
  match strip <$> pq !! x, strip <$> pq !! y with
  | Some a, Some b => item_less a b
  | _, _ => false
  end.
Proof. unfold pq_Less. by destruct (pq !! x), (pq !! y). Qed.

Lemma pq_Less_true_lt (pq : PriorityQueue) x y :
  pq_Less pq x y = true -> (x < length pq)%nat /\ (y < length pq)%nat.
Proof.
  unfold pq_Less.
  destruct (pq !! x) eqn:Ex; [|done]. destruct (pq !! y) eqn:Ey; [|done].
  intros _. split; by eapply lookup_lt_Some.
Qed.

Lemma pq_Less_asym pq x y : pq_Less pq x y = true -> pq_Less pq y x = false.
Proof.
  unfold pq_Less. destruct (pq !! x), (pq !! y); try done.
  apply item_less_asym.
Qed.

Lemma pq_Less_trans pq x y z :
  pq_Less pq x y = true -> pq_Less pq y z = true -> pq_Less pq x z = true.
Proof.
  unfold pq_Less. destruct (pq !! x), (pq !! y), (pq !! z); try done.
  apply item_less_trans.
Qed.

Lemma pq_Less_negtrans (pq : PriorityQueue) x y z :
  (y < length pq)%nat ->
  pq_Less pq x y = false -> pq_Less pq y z = false -> pq_Less pq x z = false.
Proof.
  intros Hy. apply lookup_lt_is_Some in Hy as [b Hb].
  unfold pq_Less. rewrite Hb. destruct (pq !! x), (pq !! z); try done.
  apply item_less_negtrans.
Qed.

(* ===================================================================== *)
(** ** [Swap] *)
(* ===================================================================== *)

Lemma pq_Swap_length pq i j : length (pq_Swap pq i j) = length pq.
Proof.
  unfold pq_Swap. destruct (pq !! i), (pq !! j); try done.
  by rewrite !length_insert.
Qed.

(** Up to the recorded positions, [Swap] is the transposition. *)
Lemma pq_Swap_lookup (pq : PriorityQueue) i j x :
  (i < length pq)%nat -> (j < length pq)%nat ->
  strip <$> pq_Swap pq i j !! x = strip <$> pq !! tr i j x.
Proof.
  intros Hi Hj. unfold pq_Swap, tr.
  destruct (lookup_lt_is_Some_2 pq i Hi) as [a Ha].
  destruct (lookup_lt_is_Some_2 pq j Hj) as [b Hb].
  rewrite Ha, Hb.
  destruct (decide (x = i)) as [->|Hxi].
  - destruct (decide (i = j)) as [->|Hij].
    + rewrite list_lookup_insert_eq by (by rewrite length_insert).
      rewrite Hb. simpl. assert (a = b) as -> by congruence. done.
    + rewrite list_lookup_insert_ne by done.
      rewrite list_lookup_insert_eq by done. by rewrite Hb.
  - destruct (decide (x = j)) as [->|Hxj].
    + rewrite list_lookup_insert_eq by (by rewrite length_insert).
      by rewrite Ha.
    + by rewrite !list_lookup_insert_ne by done.
Qed.

Lemma pq_Less_Swap (pq : PriorityQueue) i j x y :
  (i < length pq)%nat -> (j < length pq)%nat ->
  pq_Less (pq_Swap pq i j) x y = pq_Less pq (tr i j x) (tr i j y).
Proof.
  intros Hi Hj. rewrite !pq_Less_strip. by rewrite !pq_Swap_lookup.
Qed.

(** Outside the two positions nothing moves. *)
Lemma pq_Swap_lookup_ne (pq : PriorityQueue) i j x :
  x <> i -> x <> j -> pq_Swap pq i j !! x = pq !! x.
Proof.
  intros Hi Hj. unfold pq_Swap. destruct (pq !! i), (pq !! j); try done.
  by rewrite !list_lookup_insert_ne.
Qed.

Lemma insert_swap_perm {A} (l : list A) i j a b :
  l !! i = Some a -> l !! j = Some b -> <[j:=a]> (<[i:=b]> l) ≡ₚ l.
Proof.
  revert i j. induction l as [|x l IH]; intros [|i] [|j] Hi Hj;
    simpl in *; simplify_eq; try done.
  - rewrite insert_take_drop by (by eapply lookup_lt_Some).
    rewrite <- (take_drop_middle l j b) at 3 by done.
    rewrite <- !Permutation_middle. apply perm_swap.
  - rewrite insert_take_drop by (by eapply lookup_lt_Some).
    rewrite <- (take_drop_middle l i a) at 3 by done.
    rewrite <- !Permutation_middle. apply perm_swap.
  - constructor. by apply IH.
Qed.

Section Projection.
(** A view of the items that does not see the recorded position. *)
Context {B : Type} (f : QueueItem -> B).
Hypothesis f_index : forall a i, f (set_index a i) = f a.

Lemma pq_Swap_perm pq i j : map f (pq_Swap pq i j) ≡ₚ map f pq.
Proof.
  unfold pq_Swap.
  destruct (pq !! i) as [a|] eqn:Ha; [|done].
  destruct (pq !! j) as [b|] eqn:Hb; [|done].
  change (map f) with (fmap (M:=list) f).
  rewrite !list_fmap_insert. rewrite !f_index.
  apply insert_swap_perm; by rewrite list_lookup_fmap, ?Ha, ?Hb.
Qed.

Lemma down_loop_perm fuel pq i n :
  map f (fst (down_loop fuel pq i n)) ≡ₚ map f pq.
Proof.
  revert pq i. induction fuel as [|fuel IH]; intros pq i; [done|].
  cbn [down_loop]. destruct (n <=? 2 * i + 1)%nat; [done|].
  destruct (negb _); [done|]. rewrite IH. apply pq_Swap_perm.
Qed.

Lemma up_loop_perm fuel pq j : map f (up_loop fuel pq j) ≡ₚ map f pq.
Proof.
  revert pq j. induction fuel as [|fuel IH]; intros pq j; [done|].
  cbn [up_loop]. destruct (_ || _); [done|].
  rewrite IH. apply pq_Swap_perm.
Qed.
End Projection.

(* ===================================================================== *)
(** ** [heap.down] and [heap.up] restore the heap order *)
(* ===================================================================== *)

Lemma tr_cases i j x :
  (x = i /\ tr i j x = j) \/
  (x <> i /\ x = j /\ tr i j x = i) \/
  (x <> i /\ x <> j /\ tr i j x = x).
Proof. unfold tr. repeat case_decide; tauto. Qed.

Lemma parent_child c i :
  (0 < c)%nat -> parent c = i <-> (c = 2 * i + 1 \/ c = 2 * i + 2)%nat.
Proof. unfold parent. lia. Qed.

Lemma parent_lt c : (0 < c)%nat -> (parent c < c)%nat.
Proof. unfold parent. lia. Qed.

Lemma pq_Less_irrefl pq x : pq_Less pq x x = false.
Proof.
  destruct (pq_Less pq x x) eqn:E; [|done].
  by rewrite (pq_Less_asym _ _ _ E) in E.
Qed.

Lemma down_loop_S fuel pq i n :
  down_loop (S fuel) pq i n =
  if (n <=? 2 * i + 1)%nat then (pq, i)
  else if negb (pq_Less pq (pick_child pq i n) i) then (pq, i)
       else down_loop fuel (pq_Swap pq i (pick_child pq i n))
                      (pick_child pq i n) n.
Proof. reflexivity. Qed.

Lemma pick_child_spec (pq : PriorityQueue) i n :
  (2 * i + 1 < n)%nat ->
  (pick_child pq i n < n)%nat /\
  parent (pick_child pq i n) = i /\
  (i < pick_child pq i n)%nat /\
  (forall c, (c < n)%nat -> (0 < c)%nat -> parent c = i ->
             pq_Less pq c (pick_child pq i n) = false).
Proof.
  intros Hn. unfold pick_child.
  destruct (Nat.ltb_spec (2 * i + 1 + 1) n) as [H2|H2]; cbn [andb].
  - destruct (pq_Less pq (2 * i + 1 + 1) (2 * i + 1)) eqn:E; cbn [andb].
    + repeat split; [lia|unfold parent; lia|lia|].
      intros c Hc Hc0 Hp. apply parent_child in Hp; [|done].
      destruct Hp as [->| ->].
      * by apply pq_Less_asym.
      * replace (2 * i + 2)%nat with (2 * i + 1 + 1)%nat by lia.
        apply pq_Less_irrefl.
    + repeat split; [lia|unfold parent; lia|lia|].
      intros c Hc Hc0 Hp. apply parent_child in Hp; [|done].
      destruct Hp as [->| ->].
      * apply pq_Less_irrefl.
      * by replace (2 * i + 2)%nat with (2 * i + 1 + 1)%nat by lia.
  - repeat split; [lia|unfold parent; lia|lia|].
    intros c Hc Hc0 Hp. apply parent_child in Hp; [|done].
    destruct Hp as [->| ->]; [|lia].
    apply pq_Less_irrefl.
Qed.

Lemma down_loop_length fuel pq i n :
  length (fst (down_loop fuel pq i n)) = length pq.
Proof.
  revert pq i. induction fuel as [|fuel IH]; intros pq i; [done|].
  rewrite down_loop_S. destruct (n <=? 2 * i + 1)%nat; [done|].
  destruct (negb _); [done|]. by rewrite IH, pq_Swap_length.
Qed.

(** [down] works below [n] only. *)
Lemma down_loop_lookup_ge fuel (pq : PriorityQueue) i n k :
  (n <= k)%nat -> fst (down_loop fuel pq i n) !! k = pq !! k.
Proof.
  intros Hk. revert pq i. induction fuel as [|fuel IH]; intros pq i; [done|].
  rewrite down_loop_S. destruct (Nat.leb_spec n (2 * i + 1)); [done|].
  destruct (negb _); [done|].
  destruct (pick_child_spec pq i n) as (Hj & _ & Hij & _); [done|].
  rewrite IH. apply pq_Swap_lookup_ne; lia.
Qed.

(** The loops of [down] and [up] end within the fuel they are given:
    any larger amount gives the same result. *)
Lemma down_loop_enough f1 f2 (pq : PriorityQueue) i n :
  (n <= i + f1)%nat -> (n <= i + f2)%nat ->
  down_loop f1 pq i n = down_loop f2 pq i n.
Proof.
  revert f2 pq i. induction f1 as [|f1 IH]; intros f2 pq i H1 H2.
  - destruct f2 as [|f2]; [done|]. rewrite down_loop_S.
    destruct (Nat.leb_spec n (2 * i + 1)); [done|lia].
  - destruct f2 as [|f2].
    + rewrite down_loop_S. destruct (Nat.leb_spec n (2 * i + 1)); [done|lia].
    + rewrite !down_loop_S.
      destruct (Nat.leb_spec n (2 * i + 1)) as [Hn|Hn]; [done|].
      destruct (negb _); [done|].
      destruct (pick_child_spec pq i n Hn) as (_ & _ & Hij & _).
      apply IH; lia.
Qed.

Lemma down_loop_heap fuel (pq : PriorityQueue) i n lo :
  (n <= length pq)%nat -> (n <= i + fuel)%nat -> (lo <= i)%nat ->
  (forall c, parent c <> i -> heap_pair pq n lo c) ->
  (forall c, (c < n)%nat -> (0 < c)%nat -> parent c = i -> (0 < i)%nat ->
             (lo <= parent i)%nat -> pq_Less pq c (parent i) = false) ->
  forall c, heap_pair (fst (down_loop fuel pq i n)) n lo c.
Proof.
  revert pq i. induction fuel as [|fuel IH];
    intros pq i Hlen Hfuel Hlo Hrest Hgp.
  - intros c. destruct (decide (parent c = i)) as [Hp|Hp]; [|by apply Hrest].
    intros Hc Hc0 _. apply parent_child in Hp; [lia|done].
  - rewrite down_loop_S. destruct (Nat.leb_spec n (2 * i + 1)) as [Hn|Hn].
    { intros c. destruct (decide (parent c = i)) as [Hp|Hp];
        [|by apply Hrest].
      intros Hc Hc0 _. apply parent_child in Hp; [lia|done]. }
    destruct (pick_child_spec pq i n Hn) as (Hj & Hpj & Hij & Hsib).
    set (j := pick_child pq i n) in *.
    destruct (pq_Less pq j i) eqn:Eji; simpl.
    + apply IH.
      * by rewrite pq_Swap_length.
      * lia.
      * lia.
      * intros c Hpc Hc Hc0 Hloc.
        rewrite pq_Less_Swap by lia.
        destruct (decide (parent c = i)) as [Hp|Hp].
        -- rewrite Hp.
           destruct (tr_cases i j i) as [[_ ->]|[[? _]|[? _]]]; [|done|done].
           destruct (tr_cases i j c) as [[-> _]|[(_ & -> & ->)|(_ & _ & ->)]].
           ++ pose proof (parent_lt i Hc0). lia.
           ++ by apply pq_Less_asym.
           ++ by apply Hsib.
        -- destruct (tr_cases i j (parent c))
             as [[? _]|[(_ & ? & _)|(_ & _ & ->)]]; [done|done|].
           destruct (tr_cases i j c) as [[-> ->]|[(_ & -> & _)|(_ & _ & ->)]].
           ++ apply Hgp; [lia|lia|done|done|done].
           ++ done.
           ++ by apply Hrest.
      * intros c Hc Hc0 Hpc _ _. rewrite Hpj.
        rewrite pq_Less_Swap by lia.
        pose proof (parent_lt c Hc0).
        destruct (tr_cases i j i) as [[_ ->]|[[? _]|[? _]]]; [|done|done].
        destruct (tr_cases i j c) as [[? _]|[(_ & ? & _)|(_ & _ & ->)]];
          [lia|lia|].
        rewrite <- Hpc. apply Hrest; [lia|done|done|lia].
    + intros c. destruct (decide (parent c = i)) as [Hp|Hp];
        [|by apply Hrest].
      intros Hc Hc0 _. rewrite Hp.
      apply (pq_Less_negtrans pq c j i); [lia|by apply Hsib|done].
Qed.

Lemma up_loop_S fuel pq j :
  up_loop (S fuel) pq j =
  if (parent j =? j)%nat || negb (pq_Less pq j (parent j)) then pq
  else up_loop fuel (pq_Swap pq (parent j) j) (parent j).
Proof. reflexivity. Qed.

Lemma up_loop_enough f1 f2 (pq : PriorityQueue) j :
  (j < f1)%nat -> (j < f2)%nat -> up_loop f1 pq j = up_loop f2 pq j.
Proof.
  revert f2 pq j. induction f1 as [|f1 IH]; intros f2 pq j H1 H2; [lia|].
  destruct f2 as [|f2]; [lia|]. rewrite !up_loop_S.
  destruct (Nat.eqb_spec (parent j) j) as [Hp|Hp]; [done|]. cbn [orb].
  destruct (negb _); [done|].
  assert (parent j < j)%nat by (apply parent_lt; unfold parent in Hp; lia).
  apply IH; lia.
Qed.

Lemma up_loop_length fuel pq j : length (up_loop fuel pq j) = length pq.
Proof.
  revert pq j. induction fuel as [|fuel IH]; intros pq j; [done|].
  rewrite up_loop_S. destruct (_ || _); [done|].
  by rewrite IH, pq_Swap_length.
Qed.

Lemma up_loop_heap fuel (pq : PriorityQueue) j :
  (j < length pq)%nat -> (j < fuel)%nat ->
  (forall c, c <> j -> heap_pair pq (length pq) 0 c) ->
  (forall c, (c < length pq)%nat -> (0 < c)%nat -> parent c = j ->
             (0 < j)%nat -> pq_Less pq c (parent j) = false) ->
  heap_ok (up_loop fuel pq j).
Proof.
  revert pq j. induction fuel as [|fuel IH]; intros pq j Hj Hfuel Hrest Hgp;
    [lia|].
  rewrite up_loop_S.
  destruct (Nat.eqb_spec (parent j) j) as [Hpj|Hpj]; simpl.
  { intros c. destruct (decide (c = j)) as [->|Hc]; [|by apply Hrest].
    intros _ Hc0 _. pose proof (parent_lt j Hc0). lia. }
  assert (Hj0 : (0 < j)%nat) by (unfold parent in Hpj; lia).
  pose proof (parent_lt j Hj0) as Hlt.
  destruct (pq_Less pq j (parent j)) eqn:Eji; simpl.
  - unfold heap_ok. 
    assert (Hok : heap_ok (up_loop fuel (pq_Swap pq (parent j) j) (parent j))).
    { apply IH.
      - rewrite pq_Swap_length. lia.
      - lia.
      - rewrite pq_Swap_length. intros c Hci Hc Hc0 _.
        rewrite pq_Less_Swap by lia.
        destruct (tr_cases (parent j) j c)
          as [[? _]|[(_ & -> & ->)|(_ & Hcj & ->)]]; [done| |].
        + destruct (tr_cases (parent j) j (parent j))
            as [[_ ->]|[[? _]|[? _]]]; [|done|done].
          by apply pq_Less_asym.
        + destruct (tr_cases (parent j) j (parent c))
            as [[Hp ->]|[(_ & Hp & ->)|(_ & _ & ->)]].
          * destruct (pq_Less pq c j) eqn:Ecj; [|done].
            pose proof (pq_Less_trans _ _ _ _ Ecj Eji) as Hcontra.
            rewrite <- Hp in Hcontra.
            rewrite (Hrest c Hcj Hc Hc0) in Hcontra; [done|lia].
          * by apply Hgp.
          * apply Hrest; [done|done|done|lia].
      - rewrite pq_Swap_length. intros c Hc Hc0 Hpc Hi0.
        rewrite pq_Less_Swap by lia.
        pose proof (parent_lt (parent j) Hi0).
        destruct (tr_cases (parent j) j (parent (parent j)))
          as [[? _]|[(_ & ? & _)|(_ & _ & ->)]]; [lia|lia|].
        destruct (tr_cases (parent j) j c)
          as [[? _]|[(_ & -> & ->)|(_ & Hcj & ->)]].
        + pose proof (parent_lt c Hc0). lia.
        + apply Hrest; [lia|lia|done|lia].
        + apply (pq_Less_negtrans pq c (parent j) _); [lia| |].
          * rewrite <- Hpc. apply Hrest; [done|done|done|lia].
          * apply Hrest; [lia|lia|done|lia]. }
    exact Hok.
  - intros c. destruct (decide (c = j)) as [->|Hc]; [|by apply Hrest].
    by intros _ _ _.
Qed.

(* ===================================================================== *)
(** ** [heap.Init], [heap.Push], [heap.Pop] *)
(* ===================================================================== *)

Lemma heap_down_fst pq i n :
  fst (heap_down pq i n) = fst (down_loop n pq i n).
Proof. unfold heap_down. by destruct (down_loop n pq i n). Qed.

Lemma pq_Less_app_l (pq : PriorityQueue) y c p :
  (c < length pq)%nat -> (p < length pq)%nat ->
  pq_Less (pq ++ [y]) c p = pq_Less pq c p.
Proof. intros Hc Hp. unfold pq_Less. by rewrite !lookup_app_l. Qed.

Lemma pq_Less_take (pq : PriorityQueue) n c p :
  (c < n)%nat -> (p < n)%nat ->
  pq_Less (take n pq) c p = pq_Less pq c p.
Proof. intros Hc Hp. unfold pq_Less. by rewrite !lookup_take_lt. Qed.

Lemma heap_Init_steps (n m : nat) (pq : PriorityQueue) :
  length pq = n ->
  (forall c, heap_pair pq n m c) ->
  let pq' := fold_left (fun h i => fst (heap_down h i n)) (rev (seq 0 m)) pq in
  length pq' = n /\ forall c, heap_pair pq' n 0 c.
Proof.
  revert pq. induction m as [|m IH]; intros pq Hlen Hpq; [done|].
  rewrite seq_S, rev_app_distr. simpl. apply IH.
  - by rewrite heap_down_fst, down_loop_length.
  - rewrite heap_down_fst. apply down_loop_heap; [lia|lia|lia| |].
    + intros c Hp Hc Hc0 Hlo. apply Hpq; [done|done|lia].
    + intros c Hc Hc0 Hp Hm0 Hlo. pose proof (parent_lt m Hm0). lia.
Qed.

Lemma heap_Init_ok pq : heap_ok (heap_Init pq).
Proof.
  unfold heap_Init, pq_Len.
  destruct (heap_Init_steps (length pq) (length pq / 2) pq) as [Hlen Hok];
    [done| |].
  - intros c Hc Hc0 Hlo. unfold parent in Hlo. lia.
  - unfold heap_ok. by rewrite Hlen.
Qed.

Lemma heap_Init_length pq : length (heap_Init pq) = length pq.
Proof.
  unfold heap_Init, pq_Len.
  destruct (heap_Init_steps (length pq) (length pq / 2) pq) as [Hlen Hok];
    [done| |done].
  intros c Hc Hc0 Hlo. unfold parent in Hlo. lia.
Qed.

Lemma heap_Push_length pq x : length (heap_Push pq x) = S (length pq).
Proof.
  unfold heap_Push, heap_up, pq_Push. rewrite up_loop_length, length_app.
  simpl. lia.
Qed.

Lemma heap_Push_ok pq x : heap_ok pq -> heap_ok (heap_Push pq x).
Proof.
  intros Hok. unfold heap_Push, heap_up, pq_Len, pq_Push.
  set (y := set_index x (Z.of_nat (length pq))).
  assert (Hlen : length (pq ++ [y]) = S (length pq))
    by (rewrite length_app; simpl; lia).
  rewrite Hlen. replace (S (length pq) - 1)%nat with (length pq) by lia.
  apply up_loop_heap.
  - lia.
  - lia.
  - rewrite Hlen. intros c Hcj Hc Hc0 _.
    pose proof (parent_lt c Hc0).
    rewrite pq_Less_app_l by lia. apply Hok; [lia|done|lia].
  - rewrite Hlen. intros c Hc Hc0 Hp _. unfold parent in Hp. lia.
Qed.

(** In a heap nothing is [Less] than the root. *)
Lemma root_minimal (pq : PriorityQueue) k :
  heap_ok pq -> (k < length pq)%nat -> pq_Less pq k 0 = false.
Proof.
  intros Hok. induction k as [k IH] using lt_wf_ind. intros Hk.
  destruct (decide (k = 0%nat)) as [->|Hk0]; [apply pq_Less_irrefl|].
  assert (Hp : (parent k < k)%nat) by (apply parent_lt; lia).
  apply (pq_Less_negtrans pq k (parent k) 0); [lia| |].
  - apply Hok; [done|lia|lia].
  - apply IH; [done|lia].
Qed.

Lemma removelast_take {A} (l : list A) :
  removelast l = take (length l - 1) l.
Proof.
  rewrite removelast_firstn_len. by replace (pred (length l)) with
    (length l - 1)%nat by lia.
Qed.

(** What [heap.Pop] returns and leaves. *)
Lemma heap_Pop_spec (pq : PriorityQueue) it pq' :
  heap_ok pq -> heap_Pop pq = Some (it, pq') ->
  heap_ok pq' /\
  S (length pq') = length pq /\
  strip <$> pq !! 0%nat = Some (strip it) /\
  forall {B} (f : QueueItem -> B),
    (forall a i, f (set_index a i) = f a) ->
    map f pq ≡ₚ f it :: map f pq'.
Proof.
  intros Hok. unfold heap_Pop, pq_Len, pq_Pop. rewrite heap_down_fst.
  set (n := (length pq - 1)%nat).
  set (pq1 := pq_Swap pq 0 n).
  set (pq2 := fst (down_loop n pq1 0 n)).
  assert (Hlen2 : length pq2 = length pq)
    by (unfold pq2, pq1; by rewrite down_loop_length, pq_Swap_length).
  destruct (last pq2) as [item|] eqn:Elast; [|done].
  intros [= <- <-].
  assert (Hpos : (0 < length pq)%nat).
  { destruct pq2; [done|]. simpl in Hlen2. lia. }
  assert (Hn : S n = length pq) by (unfold n; lia).
  rewrite last_lookup, Hlen2 in Elast.
  replace (pred (length pq)) with n in Elast by lia.
  split; [|split; [|split]].
  - rewrite removelast_take, Hlen2. fold n.
    intros c. unfold heap_pair. rewrite length_take, Hlen2.
    intros Hc Hc0 _. assert (Hcn : (c < n)%nat) by lia.
    pose proof (parent_lt c Hc0).
    rewrite pq_Less_take by lia.
    apply (down_loop_heap n pq1 0 n 0); [| | | | |done|done|lia].
    + unfold pq1. rewrite pq_Swap_length. lia.
    + lia.
    + lia.
    + intros c' Hp Hc' Hc0' _. unfold pq1.
      rewrite pq_Less_Swap by lia.
      pose proof (parent_lt c' Hc0').
      destruct (tr_cases 0 n c') as [[? _]|[(_ & ? & _)|(_ & _ & ->)]];
        [lia|lia|].
      destruct (tr_cases 0 n (parent c'))
        as [[? _]|[(_ & ? & _)|(_ & _ & ->)]]; [lia|lia|].
      apply Hok; [lia|done|lia].
    + intros; lia.
  - rewrite removelast_take, length_take, Hlen2. lia.
  - unfold pq2 in Elast. rewrite down_loop_lookup_ge in Elast by lia.
    assert (Hs : strip <$> pq1 !! n = strip <$> pq !! 0%nat).
    { unfold pq1. rewrite pq_Swap_lookup by lia.
      destruct (tr_cases 0 n n) as [[<- ->]|[(_ & _ & ->)|(_ & ? & _)]];
        done. }
    rewrite <- Hs, Elast. done.
  - intros B f Hf.
    rewrite <- (pq_Swap_perm f Hf pq 0 n). fold pq1.
    rewrite <- (down_loop_perm f Hf n pq1 0 n). fold pq2.
    rewrite Hf.
    assert (Hsplit : pq2 = removelast pq2 ++ [item]).
    { rewrite removelast_take, Hlen2. fold n.
      rewrite <- (take_drop_middle pq2 n item Elast) at 1.
      f_equal. rewrite drop_ge; [done|lia]. }
    rewrite Hsplit at 1. rewrite map_app. simpl.
    by rewrite <- Permutation_cons_append.
Qed.

Lemma heap_Pop_nonempty (pq : PriorityQueue) :
  (0 < length pq)%nat -> is_Some (heap_Pop pq).
Proof.
  intros Hpos. unfold heap_Pop, pq_Len, pq_Pop. rewrite heap_down_fst.
  set (pq2 := fst (down_loop _ _ _ _)).
  assert (Hlen2 : length pq2 = length pq)
    by (unfold pq2; by rewrite down_loop_length, pq_Swap_length).
  destruct (last pq2) eqn:E; [done|].
  apply last_None in E. rewrite E in Hlen2. simpl in Hlen2. lia.
Qed.

Section PushProjection.
Context {B : Type} (f : QueueItem -> B).
Hypothesis f_index : forall a i, f (set_index a i) = f a.

Lemma heap_Push_perm pq x : map f (heap_Push pq x) ≡ₚ f x :: map f pq.
Proof.
  unfold heap_Push, heap_up, pq_Push.
  rewrite (up_loop_perm f f_index), map_app. simpl.
  by rewrite f_index, <- Permutation_cons_append.
Qed.

Lemma heap_Init_perm pq : map f (heap_Init pq) ≡ₚ map f pq.
Proof.
  unfold heap_Init. generalize (rev (seq 0 (pq_Len pq / 2))) as l.
  generalize (pq_Len pq) as n. intros n l. revert pq.
  induction l as [|i l IH]; intros pq; [done|]. simpl.
  rewrite IH, heap_down_fst. by apply down_loop_perm.
Qed.
End PushProjection.

(* ===================================================================== *)
(** ** The queue keeps the heap order; [Dequeue] returns a least item *)
(* ===================================================================== *)

Lemma NewQueue_heap_ok m : heap_ok (items (NewQueue m)).
Proof. apply heap_Init_ok. Qed.

Lemma Enqueue_heap_ok q job now q' :
  heap_ok (items q) -> Enqueue q job now = Ok q' -> heap_ok (items q').
Proof.
  intros Hok. unfold Enqueue.
  destruct (maxSize q <=? Int.len (items q)); [done|].
  destruct (bool_decide _); [done|].
  intros [= <-]. by apply heap_Push_ok.
Qed.

Lemma ApplyAging_heap_ok q f t now : heap_ok (items (ApplyAging q f t now)).
Proof. apply heap_Init_ok. Qed.

Lemma Dequeue_item_spec q it q' :
  heap_ok (items q) -> Dequeue_item q = Some (it, q') ->
  heap_ok (items q') /\
  S (length (items q')) = length (items q) /\
  map strip (items q) ≡ₚ strip it :: map strip (items q') /\
  Forall (fun b => item_less b it = false) (items q').
Proof.
  intros Hok. unfold Dequeue_item.
  destruct (length (items q) =? 0)%nat; [done|].
  destruct (heap_Pop (items q)) as [[it0 pq']|] eqn:Epop; [|done].
  intros [= <- <-]. simpl.
  destruct (heap_Pop_spec _ _ _ Hok Epop) as (Hok' & Hlen & Hhead & Hperm).
  specialize (Hperm _ strip strip_set_index).
  repeat split; [done|done|done|].
  apply Forall_forall. intros b Hb.
  assert (Hin : strip b ∈ map strip (items q)).
  { rewrite Hperm. right. apply list_elem_of_fmap. eauto. }
  apply list_elem_of_fmap in Hin as (b0 & Hb0 & Hin).
  apply list_elem_of_lookup in Hin as [k Hk].
  pose proof (root_minimal (items q) k Hok (lookup_lt_Some _ _ _ Hk)) as Hmin.
  rewrite pq_Less_strip, Hk in Hmin. simpl in Hmin. rewrite Hhead in Hmin.
  rewrite <- Hb0 in Hmin. by rewrite item_less_strip in Hmin.
Qed.

Lemma Dequeue_item_nonempty q :
  (0 < length (items q))%nat -> is_Some (Dequeue_item q).
Proof.
  intros Hpos. unfold Dequeue_item.
  destruct (Nat.eqb_spec (length (items q)) 0); [lia|].
  by destruct (heap_Pop_nonempty (items q) Hpos) as [[it pq'] ->].
Qed.

Lemma Dequeue_heap_ok q : heap_ok (items q) -> heap_ok (items (snd (Dequeue q))).
Proof.
  intros Hok. unfold Dequeue.
  destruct (Dequeue_item q) as [[it q']|] eqn:E; [|done].
  by destruct (Dequeue_item_spec _ _ _ Hok E).
Qed.

Lemma run_ops_heap_ok ops q : heap_ok (items q) -> heap_ok (items (run_ops ops q)).
Proof.
  unfold run_ops. revert q.
  induction ops as [|op ops IH]; intros q Hok; [done|]. simpl. apply IH.
  destruct op as [job now| |f t now]; simpl.
  - destruct (Enqueue q job now) as [q'|e] eqn:E; [|done].
    by eapply Enqueue_heap_ok.
  - by apply Dequeue_heap_ok.
  - apply ApplyAging_heap_ok.
Qed.

Lemma dequeue_many_drain n q : dequeue_many n q = map qJob (drain n q).
Proof.
  revert q. induction n as [|n IH]; intros q; [done|]. simpl.
  unfold Dequeue. destruct (Dequeue_item q) as [[it q']|]; [|done].
  simpl. by rewrite IH.
Qed.

Lemma drain_length n q :
  heap_ok (items q) -> length (drain n q) = Nat.min n (length (items q)).
Proof.
  revert q. induction n as [|n IH]; intros q Hok; [done|]. cbn [drain].
  destruct (Dequeue_item q) as [[it q']|] eqn:E.
  - destruct (Dequeue_item_spec _ _ _ Hok E) as (Hok' & Hlen & _).
    cbn [length]. rewrite IH by done. lia.
  - destruct (length (items q)) eqn:El; [cbn [length]; lia|].
    destruct (Dequeue_item_nonempty q) as [x Hx]; [lia|congruence].
Qed.

(** The drained items come from the queue. *)
Lemma drain_from_queue n q :
  heap_ok (items q) -> map strip (drain n q) ⊆ map strip (items q).
Proof.
  revert q. induction n as [|n IH]; intros q Hok; [apply list_subseteq_nil|].
  simpl. destruct (Dequeue_item q) as [[it q']|] eqn:E;
    [|apply list_subseteq_nil].
  destruct (Dequeue_item_spec _ _ _ Hok E) as (Hok' & _ & Hperm & _).
  simpl. intros x Hx. rewrite Hperm.
  apply elem_of_cons in Hx as [->|Hx]; [by left|].
  right. by apply (IH q' Hok').
Qed.

Lemma drain_all n q :
  heap_ok (items q) -> length (items q) = n ->
  map strip (drain n q) ≡ₚ map strip (items q).
Proof.
  revert q. induction n as [|n IH]; intros q Hok Hlen.
  - by destruct (items q).
  - simpl. destruct (Dequeue_item q) as [[it q']|] eqn:E.
    + destruct (Dequeue_item_spec _ _ _ Hok E) as (Hok' & Hl & Hperm & _).
      simpl. rewrite Hperm. constructor. apply IH; [done|lia].
    + destruct (Dequeue_item_nonempty q) as [x Hx]; [lia|congruence].
Qed.

(** Every item is dequeued before all items that are not [Less]. *)
Lemma drain_sorted n q :
  heap_ok (items q) ->
  StronglySorted (fun a b => item_less b a = false) (drain n q).
Proof.
  revert q. induction n as [|n IH]; intros q Hok; [constructor|].
  simpl. destruct (Dequeue_item q) as [[it q']|] eqn:E; [|constructor].
  destruct (Dequeue_item_spec _ _ _ Hok E) as (Hok' & _ & _ & Hmin).
  constructor; [by apply IH|].
  apply Forall_forall. intros b Hb.
  assert (Hin : strip b ∈ map strip (items q')).
  { apply (drain_from_queue n q' Hok'). apply list_elem_of_fmap. eauto. }
  apply list_elem_of_fmap in Hin as (b0 & Hb0 & Hin).
  rewrite Forall_forall in Hmin.
  specialize (Hmin b0 Hin).
  by rewrite <- (item_less_strip b it), Hb0, item_less_strip.
Qed.

Lemma StronglySorted_lookup_lt {A} (R : A -> A -> Prop) (l : list A) i j a b :
  StronglySorted R l -> (i < j)%nat ->
  l !! i = Some a -> l !! j = Some b -> R a b.
Proof.
  intros Hs. revert i j. induction Hs as [|x l Hs IH Hall]; intros i j Hij Hi Hj;
    [done|].
  destruct i as [|i], j as [|j]; simpl in *; try lia.
  - injection Hi as ->. rewrite Forall_forall in Hall. apply Hall.
    apply list_elem_of_lookup. eauto.
  - apply (IH i j); [lia|done|done].
Qed.

Lemma qJob_set_index a i : qJob (set_index a i) = qJob a.
Proof. done. Qed.

(** As many [Dequeue] calls as the queue has items return the jobs that
    [List] shows. *)
Lemma dequeue_all_List q :
  heap_ok (items q) -> dequeue_many (length (items q)) q ≡ₚ Queue_List q.
Proof.
  intros Hok. rewrite dequeue_many_drain. unfold Queue_List.
  assert (Hq : forall l, map qJob l = map qJob (map strip l)).
  { intros l. rewrite map_map. by apply map_ext. }
  rewrite (Hq (drain _ _)), (Hq (items q)).
  apply Permutation_map. by apply drain_all.
Qed.

(** A successful [Enqueue] adds its job to the jobs that [List] shows. *)
Lemma Enqueue_List q job now q' :
  Enqueue q job now = Ok q' -> Queue_List q' ≡ₚ job :: Queue_List q.
Proof.
  unfold Enqueue.
  destruct (maxSize q <=? Int.len (items q)); [done|].
  destruct (bool_decide _); [done|].
  intros [= <-]. unfold Queue_List. simpl.
  by rewrite (heap_Push_perm qJob qJob_set_index).
Qed.

(** The order of [Dequeue] in general.  Take any history of a queue
    (enqueues, dequeues, agings) and then call [Dequeue] [n] times, with no
    aging in between.  The jobs come out in non-increasing order of the
    64-bit sum [Priority + AgingBoost] that [Less] forms, strictly
    decreasing where the sums differ; of two jobs with equal sums the one
    that comes out first was not enqueued later.  For two jobs whose
    priority plus aging boost fits in 64 bits this is the order of
    priority plus aging boost itself.  [n] calls return [min n size] jobs,
    as many calls as the queue holds items return exactly its jobs, and
    after one more [Enqueue] that succeeds they return that job and the
    same jobs as before. *)
Theorem Dequeue_in_priority_order (maxSize : Z) (ops : list queue_op)
    (n : nat) :
  let q := run_ops ops (NewQueue maxSize) in
  dequeue_many n q = map qJob (drain n q) /\
  length (drain n q) = Nat.min n (length (items q)) /\
  map strip (drain (length (items q)) q) ≡ₚ map strip (items q) /\
  (forall job now q',
     Enqueue q job now = Ok q' ->
     dequeue_many (length (items q')) q'
       ≡ₚ job :: dequeue_many (length (items q)) q) /\
  forall i j a b,
    (i < j)%nat -> drain n q !! i = Some a -> drain n q !! j = Some b ->
    total_priority b <= total_priority a /\
    (total_priority a <> total_priority b ->
     total_priority b < total_priority a) /\
    (total_priority a = total_priority b ->
     qEnqueuedAt a <= qEnqueuedAt b) /\
    (Int.in_range (qPriority a + qAgingBoost a) ->
     Int.in_range (qPriority b + qAgingBoost b) ->
     qPriority b + qAgingBoost b <= qPriority a + qAgingBoost a /\
     (qPriority a + qAgingBoost a <> qPriority b + qAgingBoost b ->
      qPriority b + qAgingBoost b < qPriority a + qAgingBoost a) /\
     (qPriority a + qAgingBoost a = qPriority b + qAgingBoost b ->
      qEnqueuedAt a <= qEnqueuedAt b)).
Proof.
  intros q.
  assert (Hok : heap_ok (items q))
    by (apply run_ops_heap_ok, NewQueue_heap_ok).
  split; [apply dequeue_many_drain|].
  split; [by apply drain_length|].
  split; [by apply drain_all|]. split.
  - intros job now q' Henq.
    rewrite (dequeue_all_List q' (Enqueue_heap_ok _ _ _ _ Hok Henq)).
    rewrite (dequeue_all_List q Hok). by eapply Enqueue_List.
  - intros i j a b Hij Ha Hb.
    pose proof (StronglySorted_lookup_lt _ _ i j a b (drain_sorted n q Hok)
                  Hij Ha Hb) as Hle.
    simpl in Hle. apply item_less_false in Hle.
    split; [lia|]. split; [lia|]. split; [lia|].
    intros Hra Hrb. unfold total_priority in Hle.
    rewrite (add_in_range _ _ Hra), (add_in_range _ _ Hrb) in Hle. lia.
Qed.

(** Dequeuing the three jobs of the queue test: high, medium, low. *)
Example dequeue_many_example :
  let job p id := mkJob id "team-a" JobStatePending p 1 0 0 0 false
                        0 None None None 0 in
  let q := run_ops [OpEnqueue (job 100 "job-low") 1;
                    OpEnqueue (job 1000 "job-high") 2;
                    OpEnqueue (job 500 "job-medium") 3] (NewQueue 10) in
  map jID (dequeue_many 3 q) = ["job-high"; "job-medium"; "job-low"].
Proof. reflexivity. Qed.

(** C2. [Dequeue] returns a job of lower effective priority first.  The
    jobs [job-urgent] (priority 9223372036854775802) and [job-routine]
    (priority 100) are enqueued and have both waited six minutes when
    [ApplyAging] adds the boost 10 to each, as the scheduling cycle does.
    The effective priority of [job-urgent], 9223372036854775812, is the
    higher one, but [Less] forms the sum in 64 bits, where it is
    -9223372036854775804: the first [Dequeue] returns [job-routine], the
    second [job-urgent]. *)
Theorem Dequeue_returns_lower_priority_first :
  exists first second,
    drain 2 ex_aged_queue = [first; second] /\
    dequeue_many 2 ex_aged_queue = [ex_routine_job; ex_urgent_job] /\
    qJob first = ex_routine_job /\ qJob second = ex_urgent_job /\
    qPriority first + qAgingBoost first = 110 /\
    qPriority second + qAgingBoost second = 9223372036854775812 /\
    qPriority first + qAgingBoost first
      < qPriority second + qAgingBoost second /\
    total_priority second = -9223372036854775804 /\
    item_less first second = true.
Proof.
  eexists _, _. split; [vm_compute; reflexivity|].
  split; [reflexivity|]. split; [reflexivity|]. split; [reflexivity|].
  split; [reflexivity|]. split; [reflexivity|]. split; [reflexivity|].
  split; reflexivity.
Qed.

(* ===================================================================== *)
(** ** Startup: loading the pending jobs *)
(* ===================================================================== *)

Lemma enqueued_set_index a i : enqueued (set_index a i) = enqueued a.
Proof. done. Qed.

(** [enqueue_all] takes the jobs in their order, as long as there is room. *)
Lemma enqueue_all_spec clock (js : list Job) (q : Queue) (k : nat) :
  NoDup (map jID js) ->
  (forall job, job ∈ js -> jID job ∉ jobMap q) ->
  let q' := enqueue_all q js clock k in
  map enqueued (items q') ≡ₚ
    map enqueued (items q) ++
    stamped clock k (take (Z.to_nat (maxSize q - Int.len (items q))) js) /\
  maxSize q' = maxSize q.
Proof.
  revert q k. induction js as [|job rest IH]; intros q k Hnd Hfresh.
  - simpl. rewrite take_nil. simpl. by rewrite app_nil_r.
  - simpl in Hnd. apply NoDup_cons in Hnd as [Hjob Hnd].
    cbn [enqueue_all]. unfold Enqueue.
    destruct (Z.leb_spec (maxSize q) (Int.len (items q))) as [Hfull|Hroom].
    + destruct (IH q (S k) Hnd) as [Hperm Hmax].
      { intros j Hj. apply Hfresh. by right. }
      split; [|done]. rewrite Hperm.
      replace (Z.to_nat (maxSize q - Int.len (items q))) with 0%nat by lia.
      by rewrite !take_0.
    + rewrite bool_decide_eq_false_2 by (apply Hfresh; by left).
      set (q1 := mkQueue _ _ _).
      destruct (IH q1 (S k) Hnd) as [Hperm Hmax].
      { intros j Hj. unfold q1. simpl. apply not_elem_of_union. split.
        - apply not_elem_of_singleton. intros Heq. apply Hjob.
          rewrite <- Heq. apply list_elem_of_fmap. eauto.
        - apply Hfresh. by right. }
      split; [|done]. rewrite Hperm. unfold q1. simpl.
      rewrite (heap_Push_perm enqueued enqueued_set_index).
      unfold Int.len. rewrite heap_Push_length.
      replace (Z.to_nat (maxSize q - Z.of_nat (length (items q))))
        with (S (Z.to_nat (maxSize q - Z.of_nat (S (length (items q))))))
        by (unfold Int.len in Hroom; lia).
      simpl. by rewrite <- Permutation_middle.
Qed.

Lemma stamped_fst clock k js : map fst (stamped clock k js) = js.
Proof.
  revert k. induction js as [|j js IH]; intros k; simpl; [done|].
  by rewrite IH.
Qed.

Lemma stamped_lookup clock k js i job :
  js !! i = Some job -> stamped clock k js !! i = Some (job, clock (k + i)%nat).
Proof.
  revert k i. induction js as [|j js IH]; intros k [|i] H; simpl in *;
    simplify_eq.
  - by rewrite Nat.add_0_r.
  - rewrite (IH (S k) i) by done. do 3 f_equal. lia.
Qed.

(** C8 as stated fails.  The store lists [job-b] before [job-a], though
    [job-a] was submitted earlier; startup enqueues them in the listed
    order, and with equal priorities [job-b] leaves the queue first.  With
    room for one job only, the Pending [job-a] is not in the queue at
    all. *)
Lemma startup_order_not_by_submitted_at :
  pending_jobs ex_backlog = [ex_job_b; ex_job_a] /\
  jSubmittedAt ex_job_a < jSubmittedAt ex_job_b /\
  map enqueued (items (queue (startup ex_config ex_backlog ex_clock)))
    = [(ex_job_b, 1000); (ex_job_a, 1001)] /\
  dequeue_many 2 (queue (startup ex_config ex_backlog ex_clock))
    = [ex_job_b; ex_job_a] /\
  map qJob (items (queue (startup ex_config_one ex_backlog ex_clock)))
    = [ex_job_b].
Proof. vm_compute. by repeat split. Qed.

(** The job table of the backlog arises from two submissions on an empty
    store, the second of which carries the earlier time stamp (its caller
    read the clock first and persisted last). *)
Lemma ex_backlog_from_submissions :
  let s0 := NewScheduler ex_config (with_jobs ex_backlog []) in
  let s1 := snd (SubmitJob s0 ex_job_b 200) in
  let s2 := snd (SubmitJob s1 ex_job_a 100) in
  fst (SubmitJob s0 ex_job_b 200) = None /\
  fst (SubmitJob s1 ex_job_a 100) = None /\
  jobs (storage s2) = jobs ex_backlog.
Proof. vm_compute. by repeat split. Qed.

(** C8, amended.  After startup (the listing succeeding, job ids unique),
    the queue holds the Pending jobs of the repository in the order the
    store lists them, up to the capacity of the queue: the [k]-th listed
    job was enqueued at the [k]-th clock reading.  Every Pending job is in
    the queue when their number is within the capacity. *)
Theorem startup_enqueues_in_listing_order (config : SchedulerConfig)
    (r : Repository) (clock : nat -> Time.Time) :
  fails r (OpListJobsByState JobStatePending) = false ->
  tbl_unique jID (jobs r) ->
  map enqueued (items (queue (startup config r clock))) ≡ₚ
    stamped clock 0
      (take (Z.to_nat (MaxQueueSize config)) (pending_jobs r)) /\
  (Int.len (pending_jobs r) <= MaxQueueSize config ->
   forall job,
     In job (jobs r) -> jState job = JobStatePending ->
     In job (map qJob (items (queue (startup config r clock))))).
Proof.
  intros Hlist Huniq.
  assert (Hperm :
    map enqueued (items (queue (startup config r clock))) ≡ₚ
    stamped clock 0
      (take (Z.to_nat (MaxQueueSize config)) (pending_jobs r))).
  { unfold startup, loadPendingJobs, ListJobsByState, store_list.
    cbn [storage NewScheduler]. rewrite Hlist. cbn [snd queue with_queue].
    fold (pending_jobs r).
    destruct (enqueue_all_spec clock (pending_jobs r)
                (NewQueue (MaxQueueSize config)) 0) as [Hperm _].
    - by apply NoDup_map_filter.
    - intros job _. apply not_elem_of_empty.
    - rewrite Hperm. cbn [NewQueue items maxSize].
      change (heap_Init []) with (@nil QueueItem). simpl.
      by rewrite Z.sub_0_r. }
  split; [done|].
  intros Hroom job Hin Hstate.
  assert (Hpend : job ∈ pending_jobs r).
  { apply list_elem_of_In, filter_In. split; [done|]. by rewrite Hstate. }
  rewrite take_ge in Hperm by (unfold Int.len in Hroom; lia).
  assert (Hview : job ∈ map fst (map enqueued
                    (items (queue (startup config r clock))))).
  { rewrite Hperm, stamped_fst. done. }
  rewrite map_map in Hview. apply list_elem_of_In. exact Hview.
Qed.

Lemma startup_enqueues_in_listing_order_witness :
  fails ex_backlog (OpListJobsByState JobStatePending) = false /\
  tbl_unique jID (jobs ex_backlog) /\
  map enqueued (items (queue (startup ex_config ex_backlog ex_clock))) ≡ₚ
    stamped ex_clock 0
      (take (Z.to_nat (MaxQueueSize ex_config)) (pending_jobs ex_backlog)).
Proof.
  assert (Hu : tbl_unique jID (jobs ex_backlog)).
  { unfold tbl_unique. simpl. apply (bool_decide_unpack _). by compute. }
  split; [reflexivity|]. split; [exact Hu|].
  apply (startup_enqueues_in_listing_order ex_config ex_backlog ex_clock);
    [reflexivity|exact Hu].
Defined.

(* ===================================================================== *)
(** ** The recorded positions *)
(* ===================================================================== *)

Lemma pq_Swap_index_ok pq i j : index_ok pq -> index_ok (pq_Swap pq i j).
Proof.
  intros H k it. unfold pq_Swap.
  destruct (pq !! i) as [a|] eqn:Ha; [|apply H].
  destruct (pq !! j) as [b|] eqn:Hb; [|apply H].
  pose proof (lookup_lt_Some _ _ _ Ha) as Hi.
  pose proof (lookup_lt_Some _ _ _ Hb) as Hj.
  destruct (decide (k = j)) as [->|Hkj].
  - rewrite list_lookup_insert_eq by (by rewrite length_insert).
    by intros [= <-].
  - rewrite list_lookup_insert_ne by done.
    destruct (decide (k = i)) as [->|Hki].
    + rewrite list_lookup_insert_eq by done. by intros [= <-].
    + rewrite list_lookup_insert_ne by done. apply H.
Qed.

Lemma down_loop_index_ok fuel pq i n :
  index_ok pq -> index_ok (fst (down_loop fuel pq i n)).
Proof.
  revert pq i. induction fuel as [|fuel IH]; intros pq i H; [done|].
  rewrite down_loop_S. destruct (n <=? 2 * i + 1)%nat; [done|].
  destruct (negb _); [done|]. by apply IH, pq_Swap_index_ok.
Qed.

Lemma up_loop_index_ok fuel pq j :
  index_ok pq -> index_ok (up_loop fuel pq j).
Proof.
  revert pq j. induction fuel as [|fuel IH]; intros pq j H; [done|].
  rewrite up_loop_S. destruct (_ || _); [done|].
  by apply IH, pq_Swap_index_ok.
Qed.

Lemma heap_Init_index_ok pq : index_ok pq -> index_ok (heap_Init pq).
Proof.
  unfold heap_Init. generalize (rev (seq 0 (pq_Len pq / 2))) as l.
  generalize (pq_Len pq) as n. intros n l. revert pq.
  induction l as [|i l IH]; intros pq H; [done|]. simpl.
  apply IH. rewrite heap_down_fst. by apply down_loop_index_ok.
Qed.

Lemma heap_Push_index_ok pq x : index_ok pq -> index_ok (heap_Push pq x).
Proof.
  intros H. unfold heap_Push, heap_up. apply up_loop_index_ok.
  unfold pq_Push. intros k it Hk.
  apply lookup_app_Some in Hk as [Hk|[Hge Hk]]; [by apply H|].
  apply list_lookup_singleton_Some in Hk as [Hk <-]. simpl. f_equal. lia.
Qed.

Lemma index_ok_take n pq : index_ok pq -> index_ok (take n pq).
Proof.
  intros H k it Hk. apply lookup_take_Some in Hk as [Hk _]. by apply H.
Qed.

Lemma heap_Pop_index_ok pq it pq' :
  index_ok pq -> heap_Pop pq = Some (it, pq') -> index_ok pq'.
Proof.
  intros H. unfold heap_Pop, pq_Pop. rewrite heap_down_fst.
  destruct (last _); [|done]. intros [= _ <-].
  rewrite removelast_take. by apply index_ok_take, down_loop_index_ok,
    pq_Swap_index_ok.
Qed.

(* ===================================================================== *)
(** ** [heap.Remove] *)
(* ===================================================================== *)

(** [down] from [i] touches [i] and positions whose parent is at [lo] or
    below it in the tree only. *)
Lemma down_loop_lookup_out fuel (pq : PriorityQueue) i n lo k :
  (lo <= i)%nat -> k <> i -> (parent k < lo)%nat ->
  fst (down_loop fuel pq i n) !! k = pq !! k.
Proof.
  revert pq i. induction fuel as [|fuel IH]; intros pq i Hlo Hki Hp; [done|].
  rewrite down_loop_S. destruct (Nat.leb_spec n (2 * i + 1)); [done|].
  destruct (negb _); [done|].
  destruct (pick_child_spec pq i n) as (Hj & Hpj & Hij & _); [done|].
  rewrite IH; [|lia| |done].
  - apply pq_Swap_lookup_ne; [done|]. intros ->. lia.
  - intros ->. lia.
Qed.

(** The two ways [down] ends: the element stayed, and then no child was
    [Less] than it; or it moved, and then one of its children took its
    place. *)
Lemma down_loop_cases fuel (pq : PriorityQueue) i n :
  (n <= length pq)%nat -> (n <= i + fuel)%nat ->
  (down_loop fuel pq i n = (pq, i) /\
   forall c, (c < n)%nat -> (0 < c)%nat -> parent c = i ->
             pq_Less pq c i = false) \/
  ((i < snd (down_loop fuel pq i n))%nat /\
   exists j, (j < n)%nat /\ (0 < j)%nat /\ parent j = i /\
             strip <$> fst (down_loop fuel pq i n) !! i = strip <$> pq !! j).
Proof.
  intros Hlen Hfuel. destruct fuel as [|fuel].
  { left. split; [done|]. intros c Hc Hc0 Hp.
    apply parent_child in Hp; [lia|done]. }
  rewrite down_loop_S. destruct (Nat.leb_spec n (2 * i + 1)) as [Hn|Hn].
  { left. split; [done|]. intros c Hc Hc0 Hp.
    apply parent_child in Hp; [lia|done]. }
  destruct (pick_child_spec pq i n Hn) as (Hj & Hpj & Hij & Hsib).
  set (j := pick_child pq i n) in *.
  destruct (pq_Less pq j i) eqn:Eji; simpl.
  - right. split.
    + assert (Hge : forall f q x, (x <= snd (down_loop f q x n))%nat).
      { clear. induction f as [|f IH]; intros q x; [done|].
        rewrite down_loop_S. destruct (Nat.leb_spec n (2 * x + 1)); [done|].
        destruct (negb _); [done|].
        destruct (pick_child_spec q x n) as (_ & _ & Hlt & _); [done|].
        etrans; [|apply IH]. lia. }
      specialize (Hge fuel (pq_Swap pq i j) j). lia.
    + exists j. repeat split; [done|lia|done|].
      rewrite (down_loop_lookup_out _ _ _ _ j); [|lia|lia|].
      * rewrite pq_Swap_lookup by lia.
        by destruct (tr_cases i j i) as [[_ ->]|[[? _]|[? _]]].
      * destruct (decide (i = 0%nat)) as [->|Hi0]; [unfold parent; lia|].
        pose proof (parent_lt i). lia.
  - left. split; [done|]. intros c Hc Hc0 Hp.
    apply (pq_Less_negtrans pq c j i); [lia|by apply Hsib|done].
Qed.

(** [up] from [j] touches positions up to [j] only. *)
Lemma up_loop_lookup_gt fuel (pq : PriorityQueue) j k :
  (j < k)%nat -> up_loop fuel pq j !! k = pq !! k.
Proof.
  revert pq j. induction fuel as [|fuel IH]; intros pq j Hk; [done|].
  rewrite up_loop_S.
  destruct (Nat.eqb_spec (parent j) j) as [Hp|Hp]; [done|]. cbn [orb].
  destruct (negb _); [done|].
  assert (parent j < j)%nat by (apply parent_lt; unfold parent in Hp; lia).
  rewrite IH by lia. apply pq_Swap_lookup_ne; lia.
Qed.

Lemma pq_Swap_take (pq : PriorityQueue) n i j :
  (i < n)%nat -> (j < n)%nat ->
  pq_Swap (take n pq) i j = take n (pq_Swap pq i j).
Proof.
  intros Hi Hj. unfold pq_Swap. rewrite !lookup_take_lt by done.
  destruct (pq !! i), (pq !! j); try done.
  by rewrite !take_insert_lt by done.
Qed.

Lemma up_loop_take fuel (pq : PriorityQueue) n j :
  (j < n)%nat -> up_loop fuel (take n pq) j = take n (up_loop fuel pq j).
Proof.
  revert pq j. induction fuel as [|fuel IH]; intros pq j Hj; [done|].
  rewrite !up_loop_S.
  destruct (Nat.eqb_spec (parent j) j) as [Hp|Hp]; [done|]. cbn [orb].
  assert (parent j < j)%nat by (apply parent_lt; unfold parent in Hp; lia).
  rewrite pq_Less_take by lia.
  destruct (negb _); [done|].
  rewrite pq_Swap_take by lia. apply IH. lia.
Qed.

Lemma heap_ok_take n pq : heap_ok pq -> heap_ok (take n pq).
Proof.
  intros Hok c. unfold heap_pair. rewrite length_take. intros Hc Hc0 _.
  pose proof (parent_lt c Hc0).
  rewrite pq_Less_take by lia. apply Hok; [lia|done|lia].
Qed.

Lemma pq_Pop_last (pq : PriorityQueue) n :
  length pq = S n ->
  exists item,
    pq !! n = Some item /\
    pq_Pop pq = Some (set_index item (-1), take n pq) /\
    forall B (f : QueueItem -> B),
      (forall a i, f (set_index a i) = f a) ->
      map f pq ≡ₚ f (set_index item (-1)) :: map f (take n pq).
Proof.
  intros Hlen.
  destruct (lookup_lt_is_Some_2 pq n) as [item Hitem]; [lia|].
  exists item. split; [done|]. split.
  - unfold pq_Pop. rewrite last_lookup, Hlen. simpl. rewrite Hitem.
    rewrite removelast_take, Hlen. do 3 f_equal. lia.
  - intros B f Hf. rewrite Hf.
    rewrite <- (take_drop_middle pq n item Hitem) at 1.
    rewrite drop_ge by lia. rewrite map_app. simpl.
    by rewrite <- Permutation_cons_append.
Qed.

Lemma pq_Less_lookup (pq pq' : PriorityQueue) x y x' y' :
  strip <$> pq !! x = strip <$> pq' !! x' ->
  strip <$> pq !! y = strip <$> pq' !! y' ->
  pq_Less pq x y = pq_Less pq' x' y'.
Proof. intros Hx Hy. rewrite !pq_Less_strip. by rewrite Hx, Hy. Qed.

(** Removing the element at position [k] of a heap: the element comes out,
    the others stay, in heap order again. *)
Lemma heap_Remove_spec (pq : PriorityQueue) (k : nat) :
  heap_ok pq -> (k < length pq)%nat ->
  exists it pq',
    heap_Remove pq (Z.of_nat k) = Ok (it, pq') /\
    heap_ok pq' /\
    S (length pq') = length pq /\
    strip <$> pq !! k = Some (strip it) /\
    (index_ok pq -> index_ok pq') /\
    forall B (f : QueueItem -> B),
      (forall a i, f (set_index a i) = f a) ->
      map f pq ≡ₚ f it :: map f pq'.
Proof.
  intros Hok Hk. unfold heap_Remove, Int.len.
  set (n := (length pq - 1)%nat).
  assert (Hn : length pq = S n) by (unfold n; lia).
  replace (Z.of_nat (length pq) - 1) with (Z.of_nat n) by lia.
  destruct (Z.ltb_spec (Z.of_nat k) 0) as [?|_]; [lia|].
  destruct (Z.ltb_spec (Z.of_nat n) (Z.of_nat k)) as [?|_]; [lia|].
  cbn [orb]. rewrite !Nat2Z.id.
  destruct (Z.eqb_spec (Z.of_nat n) (Z.of_nat k)) as [Hnk|Hnk]; cbn [negb].
  { (* the last element: a plain Pop *)
    assert (k = n) as -> by lia.
    destruct (pq_Pop_last pq n Hn) as (item & Hitem & -> & Hperm).
    eexists _, _. split; [reflexivity|].
    split; [by apply heap_ok_take|].
    split; [rewrite length_take; lia|].
    split; [by rewrite Hitem|].
    split; [apply index_ok_take|]. exact Hperm. }
  assert (Hkn : (k < n)%nat) by lia.
  set (pq1 := pq_Swap pq k n).
  assert (Hlen1 : length pq1 = S n) by (unfold pq1; by rewrite pq_Swap_length).
  (* the heap order of [pq1] away from [k], below [n] *)
  assert (Hsame : forall c p, (c < n)%nat -> (p < n)%nat -> c <> k -> p <> k ->
                    pq_Less pq1 c p = pq_Less pq c p).
  { intros c p Hc Hp Hck Hpk. unfold pq1. rewrite pq_Less_Swap by lia.
    destruct (tr_cases k n c) as [[? _]|[(_ & ? & _)|(_ & _ & ->)]];
      [done|lia|].
    by destruct (tr_cases k n p) as [[? _]|[(_ & ? & _)|(_ & _ & ->)]];
      [done|lia|]. }
  assert (Hlast : strip <$> pq1 !! n = strip <$> pq !! k).
  { unfold pq1. rewrite pq_Swap_lookup by lia.
    by destruct (tr_cases k n n) as [[? _]|[(_ & _ & ->)|(_ & ? & _)]];
      [lia| |]. }
  destruct (lookup_lt_is_Some_2 pq k Hk) as [x Hx].
  unfold heap_down.
  destruct (down_loop n pq1 k n) as [pq2 k'] eqn:Edown.
  destruct (down_loop_cases n pq1 k n) as [[Hstay Hkids]|[Hmoved Hchild]];
    [lia|lia| |].
  - (* [down] did not move the element: [up] *)
    rewrite Hstay in Edown. injection Edown as <- <-.
    rewrite Nat.ltb_irrefl. cbn [negb].
    set (pq3 := heap_up pq1 k).
    assert (Hlen3 : length pq3 = S n)
      by (unfold pq3, heap_up; by rewrite up_loop_length).
    destruct (pq_Pop_last pq3 n Hlen3) as (item & Hitem & -> & Hperm).
    eexists _, _. split; [reflexivity|].
    assert (Hitem1 : pq3 !! n = pq1 !! n)
      by (unfold pq3, heap_up; by apply up_loop_lookup_gt).
    split; [|split; [|split; [|split]]].
    + unfold pq3, heap_up. rewrite <- up_loop_take by done.
      assert (Hlt : length (take n pq1) = n) by (rewrite length_take; lia).
      apply up_loop_heap.
      * lia.
      * lia.
      * rewrite Hlt. intros c Hck Hc Hc0 _.
        pose proof (parent_lt c Hc0).
        rewrite pq_Less_take by lia.
        destruct (decide (parent c = k)) as [Hp|Hp].
        -- rewrite Hp. by apply Hkids.
        -- rewrite Hsame by lia. apply Hok; [lia|done|lia].
      * rewrite Hlt. intros c Hc Hc0 Hp Hk0.
        pose proof (parent_lt c Hc0). pose proof (parent_lt k Hk0).
        rewrite pq_Less_take by lia. rewrite Hsame by lia.
        apply (pq_Less_negtrans pq c k (parent k)); [lia| |].
        -- rewrite <- Hp. apply Hok; [lia|done|lia].
        -- apply Hok; [lia|done|lia].
    + rewrite length_take. lia.
    + rewrite Hx. simpl. f_equal.
      rewrite Hitem1 in Hitem. rewrite Hitem, Hx in Hlast.
      rewrite strip_set_index.
      cbn [fmap option_fmap option_map] in Hlast. congruence.
    + intros Hidx. apply index_ok_take. unfold pq3, heap_up.
      by apply up_loop_index_ok, pq_Swap_index_ok.
    + intros B f Hf. rewrite <- (Hperm B f Hf).
      unfold pq3, heap_up. rewrite (up_loop_perm f Hf).
      unfold pq1. by rewrite (pq_Swap_perm f Hf).
  - (* [down] moved the element *)
    assert (Ek' : k' = snd (down_loop n pq1 k n)) by (by rewrite Edown).
    assert (E2 : pq2 = fst (down_loop n pq1 k n)) by (by rewrite Edown).
    rewrite <- Ek' in Hmoved.
    destruct (Nat.ltb_spec k k') as [_|?]; [|lia]. cbn [negb].
    assert (Hlen2 : length pq2 = S n)
      by (rewrite E2; by rewrite down_loop_length).
    destruct (pq_Pop_last pq2 n Hlen2) as (item & Hitem & -> & Hperm).
    eexists _, _. split; [reflexivity|].
    destruct Hchild as (j & Hj & Hj0 & Hpj & Hjk). rewrite <- E2 in Hjk.
    split; [|split; [|split; [|split]]].
    + intros c. unfold heap_pair. rewrite length_take, Hlen2.
      intros Hc Hc0 _. assert (Hcn : (c < n)%nat) by lia.
      pose proof (parent_lt c Hc0) as Hpc.
      rewrite pq_Less_take by lia.
      destruct (le_lt_dec k (parent c)) as [Hge|Hlt].
      * rewrite E2.
        apply (down_loop_heap n pq1 k n k); [lia|lia|lia| | |done|done|done].
        -- intros c' Hp' Hc' Hc0' Hlo.
           pose proof (parent_lt c' Hc0').
           rewrite Hsame by lia. apply Hok; [lia|done|lia].
        -- intros c' _ _ _ Hk0 Hlo. pose proof (parent_lt k Hk0). lia.
      * assert (Hpar : pq2 !! parent c = pq1 !! parent c).
        { rewrite E2. apply (down_loop_lookup_out _ _ _ _ k); [lia|lia|].
          destruct (decide (parent c = 0%nat)) as [->|H0];
            [unfold parent; lia|].
          pose proof (parent_lt (parent c)). lia. }
        destruct (decide (c = k)) as [->|Hck].
        -- (* the pair of [k] and its parent *)
           assert (Hjn : j <> n) by lia.
           pose proof (parent_lt j Hj0) as Hjlt.
           rewrite (pq_Less_lookup pq2 pq k (parent k) j (parent k)).
           ++ apply (pq_Less_negtrans pq j k (parent k)); [lia| |].
              ** rewrite <- Hpj. apply Hok; [lia|done|lia].
              ** apply Hok; [lia|done|lia].
           ++ rewrite Hjk. unfold pq1. rewrite pq_Swap_lookup by lia.
              destruct (tr_cases k n j) as [[? _]|[(_ & ? & _)|(_ & _ & ->)]];
                [lia|lia|done].
           ++ rewrite Hpar. unfold pq1. rewrite pq_Swap_lookup by lia.
              destruct (tr_cases k n (parent k))
                as [[? _]|[(_ & ? & _)|(_ & _ & ->)]]; [lia|lia|done].
        -- assert (Hc2 : pq2 !! c = pq1 !! c).
           { rewrite E2. by apply (down_loop_lookup_out _ _ _ _ k). }
           rewrite (pq_Less_lookup pq2 pq1 c (parent c) c (parent c))
             by (by rewrite ?Hc2, ?Hpar).
           rewrite Hsame by lia. apply Hok; [lia|done|lia].
    + rewrite length_take. lia.
    + rewrite Hx. simpl. f_equal.
      assert (Hitem1 : pq2 !! n = pq1 !! n)
        by (rewrite E2; by apply down_loop_lookup_ge).
      rewrite Hitem1 in Hitem. rewrite Hitem, Hx in Hlast.
      rewrite strip_set_index.
      cbn [fmap option_fmap option_map] in Hlast. congruence.
    + intros Hidx. apply index_ok_take. rewrite E2.
      by apply down_loop_index_ok, pq_Swap_index_ok.
    + intros B f Hf. rewrite <- (Hperm B f Hf).
      rewrite E2, (down_loop_perm f Hf).
      unfold pq1. by rewrite (pq_Swap_perm f Hf).
Qed.

(* ===================================================================== *)
(** ** The invariant of the queue *)
(* ===================================================================== *)

Lemma job_id_set_index a i :
  jID (qJob (set_index a i)) = jID (qJob a).
Proof. done. Qed.

Lemma item_of_Some pq id it :
  item_of pq id = Some it ->
  jID (qJob it) = id /\ exists k, pq !! k = Some it.
Proof.
  unfold item_of. intros H. apply find_some in H as [Hin Hid].
  split; [by apply String.eqb_eq|].
  apply list_elem_of_lookup. by apply list_elem_of_In.
Qed.

Lemma item_of_None pq id : item_of pq id = None <-> id ∉ queue_ids pq.
Proof.
  unfold item_of, queue_ids. induction pq as [|x pq IH]; simpl.
  - split; [intros _; apply not_elem_of_nil|done].
  - rewrite not_elem_of_cons.
    destruct (String.eqb_spec (jID (qJob x)) id) as [E|E].
    + split; [done|]. by intros [? _].
    + rewrite IH. split; [intros ?; split; [congruence|done]|tauto].
Qed.

Lemma item_of_lookup pq id k it :
  NoDup (queue_ids pq) -> pq !! k = Some it -> jID (qJob it) = id ->
  item_of pq id = Some it.
Proof.
  unfold item_of, queue_ids. revert k.
  induction pq as [|x pq IH]; intros k Hnd Hk Hid; [done|].
  simpl in Hnd. apply NoDup_cons in Hnd as [Hx Hnd]. simpl.
  destruct k as [|k]; simpl in Hk.
  - injection Hk as ->. apply String.eqb_eq in Hid. by rewrite Hid.
  - destruct (String.eqb_spec (jID (qJob x)) id) as [E|E]; [|by eapply IH].
    destruct Hx. apply list_elem_of_fmap. exists it. split; [congruence|].
    apply list_elem_of_lookup. eauto.
Qed.

Lemma heap_Init_nil : heap_Init [] = [].
Proof. reflexivity. Qed.

Lemma empty_queue_wf m : queue_wf (mkQueue (heap_Init []) ∅ m).
Proof.
  rewrite heap_Init_nil. split; simpl.
  - intros c Hc. simpl in Hc. lia.
  - intros i it Hi. done.
  - constructor.
  - intros id. split; intros H; [by apply not_elem_of_empty in H|].
    by apply not_elem_of_nil in H.
  - unfold Size, Int.len. simpl. lia.
Qed.

Lemma NewQueue_wf m : queue_wf (NewQueue m).
Proof. apply empty_queue_wf. Qed.

Lemma Clear_wf q : queue_wf (Clear q).
Proof. apply empty_queue_wf. Qed.

Lemma Enqueue_wf q job now q' :
  queue_wf q -> Enqueue q job now = Ok q' -> queue_wf q'.
Proof.
  intros [Hheap Hidx Hnd Hmap Hsize]. unfold Enqueue.
  destruct (Z.leb_spec (maxSize q) (Int.len (items q))) as [?|Hlt]; [done|].
  destruct (bool_decide_reflect (jID job ∈ jobMap q)) as [?|Hnew]; [done|].
  intros [= <-].
  set (item := mkItem job (jPriority job) 0 now 0).
  assert (Hperm : queue_ids (heap_Push (items q) item)
                  ≡ₚ jID job :: queue_ids (items q)).
  { unfold queue_ids.
    by rewrite (heap_Push_perm (fun it => jID (qJob it)) job_id_set_index). }
  split; simpl.
  - by apply heap_Push_ok.
  - by apply heap_Push_index_ok.
  - rewrite Hperm. apply NoDup_cons. split; [|done]. by rewrite <- Hmap.
  - intros id. rewrite Hperm, elem_of_union, elem_of_singleton,
      elem_of_cons, Hmap. done.
  - unfold Size, Int.len in *. simpl. rewrite heap_Push_length. lia.
Qed.

(** Taking one item out of a well-formed queue. *)
Lemma wf_remove q it pq' :
  queue_wf q -> heap_ok pq' -> index_ok pq' ->
  S (length pq') = length (items q) ->
  queue_ids (items q) ≡ₚ jID (qJob it) :: queue_ids pq' ->
  queue_wf (mkQueue pq' (jobMap q ∖ {[ jID (qJob it) ]}) (maxSize q)).
Proof.
  intros [Hheap Hidx Hnd Hmap Hsize] Hheap' Hidx' Hlen Hperm.
  rewrite Hperm in Hnd. apply NoDup_cons in Hnd as [Hit Hnd].
  split; simpl; [done|done|done| |].
  - intros id. rewrite elem_of_difference, elem_of_singleton, Hmap, Hperm,
      elem_of_cons.
    split; [intros [[?|?] ?]; [done|done]|].
    intros H. split; [by right|]. by intros ->.
  - unfold Size, Int.len in *. simpl. lia.
Qed.

Lemma Dequeue_item_wf q it q' :
  queue_wf q -> Dequeue_item q = Some (it, q') -> queue_wf q'.
Proof.
  intros Hwf. unfold Dequeue_item.
  destruct (length (items q) =? 0)%nat; [done|].
  destruct (heap_Pop (items q)) as [[it0 pq']|] eqn:Epop; [|done].
  intros [= <- <-].
  destruct (heap_Pop_spec _ _ _ (wf_heap q Hwf) Epop)
    as (Hok' & Hlen & _ & Hperm).
  apply wf_remove; [done|done| |done|].
  - eapply heap_Pop_index_ok; [|done]. by apply wf_index.
  - apply (Hperm _ (fun it => jID (qJob it)) job_id_set_index).
Qed.

Lemma Dequeue_wf q : queue_wf q -> queue_wf (snd (Dequeue q)).
Proof.
  intros Hwf. unfold Dequeue.
  destruct (Dequeue_item q) as [[it q']|] eqn:E; [|done].
  by eapply Dequeue_item_wf.
Qed.

Lemma aged_index f t now it : qIndex (aged f t now it) = qIndex it.
Proof. unfold aged. by destruct (_ <? _). Qed.

Lemma aged_job f t now it : qJob (aged f t now it) = qJob it.
Proof. unfold aged. by destruct (_ <? _). Qed.

Lemma ApplyAging_items q f t now :
  items (ApplyAging q f t now) = heap_Init (map (aged f t now) (items q)).
Proof. done. Qed.

Lemma ApplyAging_wf q f t now : queue_wf q -> queue_wf (ApplyAging q f t now).
Proof.
  intros [Hheap Hidx Hnd Hmap Hsize].
  assert (Hperm : queue_ids (items (ApplyAging q f t now))
                  ≡ₚ queue_ids (items q)).
  { rewrite ApplyAging_items. unfold queue_ids.
    rewrite (heap_Init_perm (fun it => jID (qJob it)) job_id_set_index).
    rewrite map_map. erewrite map_ext; [done|].
    intros a. simpl. by rewrite aged_job. }
  split.
  - apply ApplyAging_heap_ok.
  - rewrite ApplyAging_items. apply heap_Init_index_ok.
    intros i it Hi. change (map (aged f t now) (items q))
      with (aged f t now <$> items q) in Hi.
    rewrite list_lookup_fmap in Hi.
    destruct (items q !! i) as [a|] eqn:Ea; [|done].
    injection Hi as <-. rewrite aged_index. by apply Hidx.
  - by rewrite Hperm.
  - intros id. rewrite Hperm. apply Hmap.
  - unfold Size, Int.len in *. rewrite ApplyAging_items, heap_Init_length,
      length_map. exact Hsize.
Qed.

(** [Remove] on a well-formed queue. *)
Lemma Remove_wf q jobID :
  queue_wf q ->
  ((jobID ∉ queue_ids (items q)) /\ Remove q jobID = Ok (false, q)) \/
  (exists k it0 it q',
     items q !! k = Some it0 /\ strip it0 = strip it /\
     jID (qJob it) = jobID /\
     Remove q jobID = Ok (true, q') /\
     jobMap q' = jobMap q ∖ {[ jobID ]} /\
     maxSize q' = maxSize q /\
     S (length (items q')) = length (items q) /\
     (forall B (f : QueueItem -> B),
        (forall a i, f (set_index a i) = f a) ->
        map f (items q) ≡ₚ f it :: map f (items q')) /\
     queue_wf q').
Proof.
  intros Hwf. unfold Remove.
  destruct (bool_decide_reflect (jobID ∈ jobMap q)) as [Hin|Hout]; simpl.
  - right. apply (wf_map q Hwf) in Hin.
    destruct (item_of (items q) jobID) as [item|] eqn:Eitem;
      [|by apply item_of_None in Eitem].
    destruct (item_of_Some _ _ _ Eitem) as [Hid [k Hk]].
    rewrite (wf_index q Hwf k item Hk).
    destruct (heap_Remove_spec (items q) k (wf_heap q Hwf)
                (lookup_lt_Some _ _ _ Hk))
      as (it & pq' & -> & Hok' & Hlen & Hit & Hidx' & Hperm).
    rewrite Hk in Hit. cbn [fmap option_fmap option_map] in Hit.
    apply (inj Some) in Hit.
    assert (Hid' : jID (qJob it) = jobID).
    { rewrite <- Hid. change (jID (qJob (strip it)) = jID (qJob item)).
      by rewrite <- Hit. }
    exists k, item, it, (mkQueue pq' (jobMap q ∖ {[ jobID ]}) (maxSize q)).
    do 7 (split; [done|]). split; [exact Hperm|].
    rewrite <- Hid'. apply wf_remove; [done|done| |done|].
    + apply Hidx'. by apply wf_index.
    + apply (Hperm _ (fun it => jID (qJob it)) job_id_set_index).
  - left. split; [|done]. by rewrite <- (wf_map q Hwf).
Qed.

Lemma apply_call_wf q c :
  queue_wf q -> exists q', apply_call q c = Some q' /\ queue_wf q'.
Proof.
  intros Hwf. destruct c as [job now| |jobID|f t now|]; simpl.
  - eexists. split; [done|].
    destruct (Enqueue q job now) as [q'|e] eqn:E; [|done].
    by eapply Enqueue_wf.
  - eexists. split; [done|]. by apply Dequeue_wf.
  - destruct (Remove_wf q jobID Hwf) as [[_ ->]|Hex]; [by eexists|].
    destruct Hex as (k & it0 & it & q' & _ & _ & _ & -> & _ & _ & _ & _ & Hwf').
    by eexists.
  - eexists. split; [done|]. by apply ApplyAging_wf.
  - eexists. split; [done|]. apply Clear_wf.
Qed.

Lemma run_calls_wf cs q :
  queue_wf q -> exists q', run_calls cs q = Some q' /\ queue_wf q'.
Proof.
  revert q. induction cs as [|c cs IH]; intros q Hwf; [by eexists|].
  simpl. destruct (apply_call_wf q c Hwf) as (q1 & -> & Hwf1). by apply IH.
Qed.

Lemma history_wf m cs q : run_calls cs (NewQueue m) = Some q -> queue_wf q.
Proof.
  intros H. destruct (run_calls_wf cs (NewQueue m) (NewQueue_wf m))
    as (q' & E & Hwf). congruence.
Qed.

Lemma apply_call_maxSize q c q' :
  apply_call q c = Some q' -> maxSize q' = maxSize q.
Proof.
  destruct c as [job now| |jobID|f t now|]; simpl; intros E1.
  - injection E1 as <-. unfold Enqueue.
    destruct (_ <=? _); [done|]. by destruct (bool_decide _).
  - injection E1 as <-. unfold Dequeue, Dequeue_item.
    destruct (_ =? _)%nat; [done|]. by destruct (heap_Pop _) as [[? ?]|].
  - unfold Remove in E1. destruct (negb _); [by injection E1 as <-|].
    destruct (heap_Remove _ _) as [[? ?]|]; [|done]. by injection E1 as <-.
  - by injection E1 as <-.
  - by injection E1 as <-.
Qed.

Lemma run_calls_maxSize cs q q' :
  run_calls cs q = Some q' -> maxSize q' = maxSize q.
Proof.
  revert q. induction cs as [|c cs IH]; intros q E; simpl in E.
  - congruence.
  - destruct (apply_call q c) as [q1|] eqn:E1; [|done].
    rewrite (IH q1 E). by eapply apply_call_maxSize.
Qed.

(** X1. The invariant of the queue, for callers that do not write to a job
    while it is queued (as the scheduler, the queue's only caller in the
    program, never does).  Whatever calls of [Enqueue], [Dequeue],
    [Remove], [ApplyAging] and [Clear] such callers make on a new queue,
    in any order and with any arguments, none of them panics, and
    afterwards the heap array is in heap order, every item's [Index] is
    its position in the array, no two items hold the same job id,
    [jobMap] has exactly the ids of the queued jobs, and the size is at
    most [maxSize] (at most 0 for a negative [maxSize]). *)
Theorem queue_invariant_any_history (m : Z) (cs : list queue_call) :
  exists q,
    run_calls cs (NewQueue m) = Some q /\
    heap_ok (items q) /\
    index_ok (items q) /\
    NoDup (queue_ids (items q)) /\
    (forall id, id ∈ jobMap q <-> id ∈ queue_ids (items q)) /\
    Size q <= Z.max 0 (maxSize q) /\
    maxSize q = m.
Proof.
  destruct (run_calls_wf cs (NewQueue m) (NewQueue_wf m)) as (q & E & Hwf).
  exists q. destruct Hwf. repeat split; try done; try (by apply wf_map0).
  by rewrite (run_calls_maxSize _ _ _ E).
Qed.

(* ===================================================================== *)
(** ** Lookup, removal, insertion *)
(* ===================================================================== *)

Lemma Get_wf q id : queue_wf q -> Get q id = qJob <$> item_of (items q) id.
Proof.
  intros Hwf. unfold Get.
  destruct (bool_decide_reflect (id ∈ jobMap q)) as [Hin|Hout]; [done|].
  rewrite (wf_map q Hwf) in Hout. apply item_of_None in Hout.
  by rewrite Hout.
Qed.

Lemma Get_Some q id job :
  queue_wf q ->
  Get q id = Some job <-> job ∈ Queue_List q /\ jID job = id.
Proof.
  intros Hwf. rewrite Get_wf by done. unfold Queue_List. split.
  - destruct (item_of (items q) id) as [it|] eqn:E; [|done].
    intros [= <-]. apply item_of_Some in E as [Hid [k Hk]].
    split; [|done]. apply list_elem_of_fmap. exists it. split; [done|].
    apply list_elem_of_lookup. eauto.
  - intros [Hin Hid]. apply list_elem_of_fmap in Hin as (it & -> & Hit).
    apply list_elem_of_lookup in Hit as [k Hk].
    rewrite (item_of_lookup _ _ k it); [done| |done|done].
    by apply wf_nodup.
Qed.

Lemma Get_None q id :
  queue_wf q -> Get q id = None <-> id ∉ queue_ids (items q).
Proof.
  intros Hwf. rewrite Get_wf by done. rewrite <- item_of_None.
  by destruct (item_of (items q) id).
Qed.

(** [Get] for the other ids, when one job leaves or joins. *)
Lemma Get_other q q' job id :
  queue_wf q -> queue_wf q' ->
  Queue_List q ≡ₚ job :: Queue_List q' -> id <> jID job ->
  Get q' id = Get q id.
Proof.
  intros Hwf Hwf' Hperm Hne. apply option_eq. intros j.
  rewrite !Get_Some by done. rewrite Hperm, elem_of_cons.
  split; [tauto|]. intros [[->|?] Hid]; [congruence|done].
Qed.

(** X2. [Remove] after any history of calls of the queue's methods, by
    callers that do not write to a job while it is queued (as the
    scheduler never does).  For a job id that [Get] does not find it
    returns false and leaves the queue as it is.  For a queued job it
    returns true, and afterwards the queue lists the same jobs without
    that one, [Get] no longer finds it and finds every other job as
    before, the size is one less, and the jobs that remain still come out
    of [Dequeue] in the order of [Less]. *)
Theorem Remove_takes_out_exactly_that_job (m : Z) (cs : list queue_call)
    (q : Queue) (jobID : string) :
  run_calls cs (NewQueue m) = Some q ->
  (Get q jobID = None -> Remove q jobID = Ok (false, q)) /\
  (forall job, Get q jobID = Some job ->
     exists q',
       Remove q jobID = Ok (true, q') /\
       Queue_List q ≡ₚ job :: Queue_List q' /\
       Get q' jobID = None /\
       (forall id, id <> jobID -> Get q' id = Get q id) /\
       Size q' = Size q - 1 /\
       forall n, StronglySorted (fun a b => item_less b a = false)
                   (drain n q')).
Proof.
  intros Hrun. pose proof (history_wf _ _ _ Hrun) as Hwf.
  destruct (Remove_wf q jobID Hwf) as [[Hout Hrem]|Hex].
  - split; [done|]. intros job Hget.
    apply (Get_None q jobID Hwf) in Hout. congruence.
  - destruct Hex as (k & it0 & it & q' & Hk & Hs & Hid & Hrem & Hmap & _
                     & Hlen & Hperm & Hwf').
    assert (Hget : Get q jobID = Some (qJob it)).
    { apply Get_Some; [done|]. split; [|done].
      unfold Queue_List. rewrite (Hperm _ qJob qJob_set_index). by left. }
    split; [congruence|]. intros job Hjob.
    assert (job = qJob it) as -> by congruence.
    exists q'. split; [done|].
    assert (HL : Queue_List q ≡ₚ qJob it :: Queue_List q')
      by apply (Hperm _ qJob qJob_set_index).
    split; [done|]. split; [|split; [|split]].
    + unfold Get. rewrite Hmap.
      destruct (bool_decide_reflect (jobID ∈ jobMap q ∖ {[jobID]}))
        as [Hin|?]; [|done].
      apply elem_of_difference in Hin as [_ Hin].
      by destruct Hin; apply elem_of_singleton.
    + intros id Hne. apply (Get_other q q' (qJob it)); [done|done|done|].
      congruence.
    + unfold Size, Int.len. lia.
    + intros n. apply drain_sorted. by apply wf_heap.
Qed.

(** [heap.Pop] hands out the root, whatever the order of the array. *)
Lemma heap_Pop_head (pq : PriorityQueue) :
  (0 < length pq)%nat ->
  exists it pq',
    heap_Pop pq = Some (it, pq') /\
    strip <$> pq !! 0%nat = Some (strip it).
Proof.
  intros Hpos. unfold heap_Pop, pq_Len. rewrite heap_down_fst.
  set (n := (length pq - 1)%nat).
  set (pq2 := fst (down_loop n (pq_Swap pq 0 n) 0 n)).
  assert (Hlen2 : length pq2 = S n)
    by (unfold pq2; rewrite down_loop_length, pq_Swap_length; lia).
  destruct (pq_Pop_last pq2 n Hlen2) as (item & Hitem & -> & _).
  eexists _, _. split; [done|].
  unfold pq2 in Hitem. rewrite down_loop_lookup_ge in Hitem by lia.
  assert (Hs : strip <$> pq_Swap pq 0 n !! n = strip <$> pq !! 0%nat).
  { rewrite pq_Swap_lookup by lia.
    by destruct (tr_cases 0 n n) as [[<- ->]|[(_ & _ & ->)|(_ & ? & _)]]. }
  rewrite <- Hs, Hitem. simpl. by rewrite strip_set_index.
Qed.

(** X3. On every state of the queue, [Peek] returns the job that
    [Dequeue] returns when it is called on that same state; on an empty
    queue both return nil. *)
Theorem Peek_is_the_next_Dequeue (q : Queue) : Peek q = fst (Dequeue q).
Proof.
  unfold Peek, Dequeue, Dequeue_item.
  destruct (Nat.eqb_spec (length (items q)) 0) as [Hz|Hz].
  - destruct (items q); [done|]. simpl in Hz. lia.
  - destruct (heap_Pop_head (items q)) as (it & pq' & -> & Hhead); [lia|].
    simpl. destruct (items q !! 0%nat) as [x|]; [|done].
    cbn [fmap option_fmap option_map fst] in *. apply (inj Some) in Hhead.
    change (Some (qJob (strip x)) = Some (qJob (strip it))).
    by rewrite Hhead.
Qed.

(** X4. [Enqueue] after any history of calls of the methods of a queue
    made with [maxSize = m], by callers that do not write to a job while
    it is queued (as the scheduler never does).  It fails with the
    queue-full error exactly when the size has reached [m], otherwise with
    the already-queued error exactly when [Get] finds the job's id; the
    queue-full test comes first.  When it succeeds the size grows by one,
    the queue lists the new job beside the old ones, [Get] finds the new
    job under its id and every other job as before, and the new item
    carries the job's priority, the instant of the call and no aging
    boost. *)
Theorem Enqueue_outcomes (m : Z) (cs : list queue_call) (q : Queue)
    (job : Job) (now : Time.Time) :
  run_calls cs (NewQueue m) = Some q ->
  match Enqueue q job now with
  | Err e =>
      (m <= Size q /\ e = QueueFullError m) \/
      (Size q < m /\ Get q (jID job) <> None /\
       e = JobAlreadyInQueueError (jID job))
  | Ok q' =>
      Size q < m /\ Get q (jID job) = None /\
      Size q' = Size q + 1 /\
      Queue_List q' ≡ₚ job :: Queue_List q /\
      Get q' (jID job) = Some job /\
      (forall id, id <> jID job -> Get q' id = Get q id) /\
      map strip (items q')
        ≡ₚ mkItem job (jPriority job) 0 now 0 :: map strip (items q)
  end.
Proof.
  intros Hrun. pose proof (history_wf _ _ _ Hrun) as Hwf.
  pose proof (run_calls_maxSize _ _ _ Hrun) as Hm. simpl in Hm.
  destruct (Enqueue q job now) as [q'|e] eqn:E.
  - pose proof (Enqueue_wf _ _ _ _ Hwf E) as Hwf'.
    revert E. unfold Enqueue, Size. rewrite Hm.
    destruct (Z.leb_spec m (Int.len (items q))) as [?|Hlt]; [done|].
    destruct (bool_decide_reflect (jID job ∈ jobMap q)) as [?|Hnew]; [done|].
    intros [= <-]. simpl in *.
    assert (HL : Queue_List
                   (mkQueue (heap_Push (items q)
                               (mkItem job (jPriority job) 0 now 0))
                            ({[jID job]} ∪ jobMap q) m)
                 ≡ₚ job :: Queue_List q).
    { unfold Queue_List. simpl.
      by rewrite (heap_Push_perm qJob qJob_set_index). }
    split; [done|]. split.
    { apply Get_None; [done|]. by rewrite <- (wf_map q Hwf). }
    split; [unfold Int.len; rewrite heap_Push_length; lia|].
    split; [done|]. split; [|split].
    + apply Get_Some; [done|]. split; [|done]. rewrite HL. by left.
    + intros id Hne. symmetry.
      by apply (Get_other _ q job); [done|done|done|].
    + by rewrite (heap_Push_perm strip strip_set_index).
  - revert E. unfold Enqueue, Size. rewrite Hm.
    destruct (Z.leb_spec m (Int.len (items q))) as [Hfull|Hlt].
    { intros [= <-]. by left. }
    destruct (bool_decide_reflect (jID job ∈ jobMap q)) as [Hin|?]; [|done].
    intros [= <-]. right. split; [done|]. split; [|done].
    rewrite (Get_None q _ Hwf). intros Hout. apply Hout.
    by apply (wf_map q Hwf).
Qed.

Lemma Remove_takes_out_exactly_that_job_witness :
  run_calls ex_calls (NewQueue 10) = Some ex_queue /\
  Get ex_queue "job-2" = Some (ex_qjob "job-2" 1) /\
  exists q',
    Remove ex_queue "job-2" = Ok (true, q') /\
    Queue_List ex_queue ≡ₚ ex_qjob "job-2" 1 :: Queue_List q' /\
    Get q' "job-2" = None /\
    (forall id, id <> "job-2" -> Get q' id = Get ex_queue id) /\
    Size q' = Size ex_queue - 1 /\
    forall n, StronglySorted (fun a b => item_less b a = false) (drain n q').
Proof.
  split; [reflexivity|]. split; [reflexivity|].
  apply (Remove_takes_out_exactly_that_job 10 ex_calls ex_queue "job-2");
    reflexivity.
Defined.

Lemma Enqueue_outcomes_witness :
  run_calls ex_calls (NewQueue 10) = Some ex_queue /\
  match Enqueue ex_queue (ex_qjob "job-4" 7) 4 with
  | Err e =>
      (10 <= Size ex_queue /\ e = QueueFullError 10) \/
      (Size ex_queue < 10 /\ Get ex_queue "job-4" <> None /\
       e = JobAlreadyInQueueError "job-4")
  | Ok q' =>
      Size ex_queue < 10 /\ Get ex_queue "job-4" = None /\
      Size q' = Size ex_queue + 1 /\
      Queue_List q' ≡ₚ ex_qjob "job-4" 7 :: Queue_List ex_queue /\
      Get q' "job-4" = Some (ex_qjob "job-4" 7) /\
      (forall id, id <> "job-4" -> Get q' id = Get ex_queue id) /\
      map strip (items q')
        ≡ₚ mkItem (ex_qjob "job-4" 7) 7 0 4 0 :: map strip (items ex_queue)
  end.
Proof.
  split; [reflexivity|].
  apply (Enqueue_outcomes 10 ex_calls ex_queue (ex_qjob "job-4" 7) 4).
  reflexivity.
Defined.

(* ===================================================================== *)
(** ** The position that [GetPosition] reports *)
(* ===================================================================== *)





(* ===================================================================== *)
(** ** Aging *)
(* ===================================================================== *)

(** X6. [ApplyAging] on any queue: it keeps the jobs, their priorities and
    their enqueue instants; it adds [agingFactor] (a 64-bit addition) to
    the aging boost of exactly the items whose wait, [now] minus the
    enqueue instant, is strictly longer than [ageThreshold]; it leaves the
    array in heap order for the new effective priorities, with each item's
    [Index] its position if that was so before; [jobMap] and [maxSize] are
    untouched. *)
Theorem ApplyAging_boosts_long_waiting_items (q : Queue) (agingFactor : Z)
    (ageThreshold : Time.Duration) (now : Time.Time) :
  let q' := ApplyAging q agingFactor ageThreshold now in
  map strip (items q')
    ≡ₚ map (fun item =>
              mkItem (qJob item) (qPriority item) 0 (qEnqueuedAt item)
                (if ageThreshold <? Time.Sub now (qEnqueuedAt item)
                 then Int.add (qAgingBoost item) agingFactor
                 else qAgingBoost item))
           (items q) /\
  heap_ok (items q') /\
  (index_ok (items q) -> index_ok (items q')) /\
  Queue_List q' ≡ₚ Queue_List q /\
  jobMap q' = jobMap q /\ maxSize q' = maxSize q.
Proof.
  intros q'. unfold q'. split; [|split; [|split; [|split]]].
  - rewrite ApplyAging_items.
    rewrite (heap_Init_perm strip strip_set_index).
    rewrite map_map. erewrite map_ext; [done|].
    intros a. unfold aged, strip, set_index, add_boost. simpl.
    by destruct (ageThreshold <? Time.Sub now (qEnqueuedAt a)).
  - apply ApplyAging_heap_ok.
  - intros Hidx. rewrite ApplyAging_items. apply heap_Init_index_ok.
    intros i it Hi. change (map (aged agingFactor ageThreshold now) (items q))
      with (aged agingFactor ageThreshold now <$> items q) in Hi.
    rewrite list_lookup_fmap in Hi.
    destruct (items q !! i) as [a|] eqn:Ea; [|done].
    injection Hi as <-. rewrite aged_index. by apply Hidx.
  - unfold Queue_List. rewrite ApplyAging_items.
    rewrite (heap_Init_perm qJob qJob_set_index).
    rewrite map_map. erewrite map_ext; [done|].
    intros a. simpl. by rewrite aged_job.
  - done.
Qed.

(* ===================================================================== *)
(** ** The allocator: what a call changes, and what it hands out *)
(* ===================================================================== *)

Lemma createAllocation_tables r request node gs now :
  jobs (outRepo (createAllocation r request node gs now)) = jobs r /\
  tenants (outRepo (createAllocation r request node gs now)) = tenants r /\
  fails (outRepo (createAllocation r request node gs now)) = fails r.
Proof.
  unfold createAllocation, CreateAllocation, store_write.
  destruct (fails r _); [done|].
  destruct (tbl_create aID _ (allocations r)) as [t'|]; [|done].
  cbn [fmap option_fmap option_map outRepo].
  set (r1 := with_allocations r t').
  match goal with
  | |- context [mark_gpus r1 gs ?a ?j ?t] =>
      destruct (mark_gpus_tables gs r1 a j t) as (H1 & H2 & _ & _ & H5);
      set (r2 := mark_gpus r1 gs a j t) in *
  end.
  match goal with
  | |- context [logged r2 (UpdateNode r2 ?n)] =>
      destruct (logged_UpdateNode_tables r2 n) as (K1 & K2 & _ & _ & K5)
  end.
  rewrite K1, K2, K5, H1, H2, H5. done.
Qed.

Lemma gangSchedule_tables r request ns now :
  jobs (outRepo (gangSchedule r request ns now)) = jobs r /\
  tenants (outRepo (gangSchedule r request ns now)) = tenants r /\
  fails (outRepo (gangSchedule r request ns now)) = fails r.
Proof.
  induction ns as [|node rest IH]; simpl; [done|].
  destruct (rGPUCount request <=? nAvailableGPUs node); [|done].
  destruct (ListGPUsByNode r (nID node)) as [gs|e']; [|done].
  destruct (Int.len _ =? rGPUCount request); [|done].
  apply createAllocation_tables.
Qed.

Lemma Allocate_tables r request now :
  jobs (outRepo (Allocate r request now)) = jobs r /\
  tenants (outRepo (Allocate r request now)) = tenants r /\
  fails (outRepo (Allocate r request now)) = fails r.
Proof.
  unfold Allocate. destruct (ListNodes r) as [ns|e']; [|done].
  destruct (length _ =? 0)%nat; [done|].
  destruct (rGangScheduling request); [apply gangSchedule_tables|].
  unfold bestFitSchedule.
  destruct (best_fit_search _ _ _ _ _ _) as [[[n gs]|]|e']; [|done|done].
  apply createAllocation_tables.
Qed.

Lemma Allocate_error_result r request now e :
  outErr (Allocate r request now) = Some e ->
  resSuccess <$> outResult (Allocate r request now) <> Some true.
Proof.
  unfold Allocate. destruct (ListNodes r) as [ns|e']; [|done].
  destruct (length _ =? 0)%nat; [done|].
  destruct (rGangScheduling request).
  - generalize (List.filter
                  (fun node => HasCapacity node (rGPUCount request)
                                 (rCPUCores request) (rMemoryMB request)) ns).
    intros l. induction l as [|node rest IH]; simpl; [done|].
    destruct (rGPUCount request <=? nAvailableGPUs node); [|done].
    destruct (ListGPUsByNode r (nID node)) as [gs|e']; [|done].
    destruct (Int.len _ =? rGPUCount request); [|done].
    unfold createAllocation. by destruct (CreateAllocation r _).
  - unfold bestFitSchedule.
    destruct (best_fit_search _ _ _ _ _ _) as [[[n gs]|]|e']; [|done|done].
    unfold createAllocation. by destruct (CreateAllocation r _).
Qed.

(** X7. [Allocate] never writes the job table or the tenant table.  When
    it returns an error the whole store is as before the call and the
    result, if there is one, does not report success; when it returns no
    error the result reports success. *)
Theorem Allocate_fails_without_trace (r : Repository)
    (request : AllocationRequest) (now : Time.Time) :
  let out := Allocate r request now in
  jobs (outRepo out) = jobs r /\
  tenants (outRepo out) = tenants r /\
  match outErr out with
  | Some e => outRepo out = r /\ resSuccess <$> outResult out <> Some true
  | None => resSuccess <$> outResult out = Some true
  end.
Proof.
  intros out. unfold out.
  destruct (Allocate_tables r request now) as (H1 & H2 & _).
  split; [done|]. split; [done|].
  destruct (outErr (Allocate r request now)) as [e|] eqn:E.
  - split; [by eapply Allocate_error|by eapply Allocate_error_result].
  - by apply Allocate_success.
Qed.

(** The search loop of the best fit, from any state [(minWaste, best)]:
    either it keeps the state, and then no node that fits wastes less than
    [minWaste]; or it ends on the first of the nodes of least waste. *)
Lemma best_fit_search_spec r request ns now minWaste best out :
  best_fit_search r request ns now minWaste best = Ok out ->
  (out = best /\
   Forall (fun n => node_fits r request now n = true ->
                    minWaste <= node_waste r request now n) ns) \/
  (exists pre node post,
     ns = pre ++ node :: post /\
     0 <= rGPUCount request /\
     node_fits r request now node = true /\
     out = Some (node, take (Z.to_nat (rGPUCount request))
                         (node_available r now node)) /\
     node_waste r request now node < minWaste /\
     Forall (fun n => node_fits r request now n = true ->
                      node_waste r request now node
                      < node_waste r request now n) pre /\
     Forall (fun n => node_fits r request now n = true ->
                      node_waste r request now node
                      <= node_waste r request now n) post).
Proof.
  revert minWaste best.
  induction ns as [|node rest IH]; intros minWaste best; simpl.
  { intros [= <-]. left. by split. }
  assert (Hskip :
    (node_fits r request now node = true ->
     minWaste <= node_waste r request now node) ->
    best_fit_search r request rest now minWaste best = Ok out ->
    (out = best /\
     Forall (fun n => node_fits r request now n = true ->
                      minWaste <= node_waste r request now n) (node :: rest)) \/
    (exists pre node0 post,
       node :: rest = pre ++ node0 :: post /\
       0 <= rGPUCount request /\
       node_fits r request now node0 = true /\
       out = Some (node0, take (Z.to_nat (rGPUCount request))
                            (node_available r now node0)) /\
       node_waste r request now node0 < minWaste /\
       Forall (fun n => node_fits r request now n = true ->
                        node_waste r request now node0
                        < node_waste r request now n) pre /\
       Forall (fun n => node_fits r request now n = true ->
                        node_waste r request now node0
                        <= node_waste r request now n) post)).
  { intros Hnode Hrest.
    destruct (IH _ _ Hrest) as [[-> Hall]|Hex].
    - left. split; [done|]. by constructor.
    - destruct Hex as (pre & n0 & post & -> & H0 & Hfit & -> & Hlt & Hpre
                       & Hpost).
      right. exists (node :: pre), n0, post.
      repeat split; try done. constructor; [|done].
      intros Hf. specialize (Hnode Hf). lia. }
  unfold ListGPUsByNode, store_list.
  destruct (fails r (OpListGPUsByNode (nID node))) eqn:Ef.
  { apply Hskip. unfold node_fits. by rewrite Ef. }
  fold (node_available r now node).
  destruct (Z.leb_spec (rGPUCount request)
              (Int.len (node_available r now node))) as [Hfit|Hnofit].
  - fold (node_waste r request now node).
    destruct (Z.ltb_spec (node_waste r request now node) minWaste)
      as [Hlt|Hge].
    + destruct (Z.ltb_spec (rGPUCount request) 0) as [?|Hpos]; [done|].
      intros Hrest. destruct (IH _ _ Hrest) as [[-> Hall]|Hex].
      * right. exists [], node, rest.
        repeat split; try done.
        unfold node_fits. rewrite Ef. simpl. by apply Z.leb_le.
      * destruct Hex as (pre & n0 & post & -> & H0 & Hfit0 & -> & Hlt0 & Hpre
                         & Hpost).
        right. exists (node :: pre), n0, post.
        repeat split; try done; [lia|]. constructor; [|done]. by intros _.
    + apply Hskip. by intros _.
  - apply Hskip. unfold node_fits. rewrite Ef. simpl.
    intros H. apply Z.leb_le in H. lia.
Qed.

(** X8. The best-fit search over the nodes [ns], in the order given.  A
    node fits when its GPU list can be read and it has at least the
    requested number of available GPUs; its waste is the number of its
    available GPUs beyond the request.  The search returns the first
    listed of the fitting nodes of least waste, provided that waste is
    below 999999, with the first [GPUCount] of its available GPUs in the
    store's order, and [bestFitSchedule] creates the allocation there.
    When every fitting node wastes 999999 or more it returns the
    insufficient-resources error with the store unchanged.  It panics only
    for a negative GPU count. *)
Theorem bestFitSchedule_least_waste_first_listed (r : Repository)
    (request : AllocationRequest) (ns : list Node) (now : Time.Time) :
  match best_fit_search r request ns now 999999 None with
  | Err e => rGPUCount request < 0
  | Ok None =>
      Forall (fun n => node_fits r request now n = true ->
                       999999 <= node_waste r request now n) ns /\
      outErr (bestFitSchedule r request ns now)
        = Some ErrInsufficientResources /\
      outRepo (bestFitSchedule r request ns now) = r
  | Ok (Some (node, gs)) =>
      exists pre post,
        ns = pre ++ node :: post /\
        node_fits r request now node = true /\
        gs = take (Z.to_nat (rGPUCount request)) (node_available r now node) /\
        Int.len gs = rGPUCount request /\
        node_waste r request now node < 999999 /\
        Forall (fun n => node_fits r request now n = true ->
                         node_waste r request now node
                         < node_waste r request now n) pre /\
        Forall (fun n => node_fits r request now n = true ->
                         node_waste r request now node
                         <= node_waste r request now n) post /\
        bestFitSchedule r request ns now
          = createAllocation r request node gs now
  end.
Proof.
  unfold bestFitSchedule.
  destruct (best_fit_search r request ns now 999999 None) as [out|e] eqn:E.
  - destruct (best_fit_search_spec _ _ _ _ _ _ _ E) as [[-> Hall]|Hex].
    + by repeat split.
    + destruct Hex as (pre & node & post & -> & H0 & Hfit & -> & Hlt & Hpre
                       & Hpost).
      exists pre, post. repeat split; try done.
      unfold Int.len. rewrite length_take.
      unfold node_fits in Hfit. apply andb_true_iff in Hfit as [_ Hfit].
      apply Z.leb_le in Hfit. unfold Int.len in Hfit. lia.
  - clear -E. revert E. generalize 999999 (@None (Node * list GPU)).
    induction ns as [|node rest IH]; intros mw best; simpl; [done|].
    destruct (ListGPUsByNode r (nID node)) as [gs|e']; [|apply IH].
    destruct (_ <=? _); [|apply IH].
    destruct (_ <? mw); [|apply IH].
    destruct (Z.ltb_spec (rGPUCount request) 0); [done|apply IH].
Qed.

Lemma createAllocation_result r request node gs now :
  outErr (createAllocation r request node gs now) = None ->
  outResult (createAllocation r request node gs now)
  = Some (mkResult true (generateAllocationID now) (map gID gs)
                   (nID node) "").
Proof. unfold createAllocation. by destruct (CreateAllocation r _). Qed.

(** What a successful gang placement was made of. *)
Lemma gangSchedule_ok r request ns now :
  outErr (gangSchedule r request ns now) = None ->
  exists node gs,
    In node ns /\
    gangSchedule r request ns now = createAllocation r request node gs now /\
    Int.len gs = rGPUCount request /\
    (NoDup (map gID (gpus r)) -> NoDup (map gID gs)) /\
    Forall (fun g => In g (gpus r) /\ gNodeID g = nID node /\
                     IsAvailable g now = true) gs.
Proof.
  induction ns as [|node rest IH]; simpl; [done|].
  assert (Hrest : outErr (gangSchedule r request rest now) = None ->
    exists node0 gs,
      In node0 (node :: rest) /\
      gangSchedule r request rest now
        = createAllocation r request node0 gs now /\
      Int.len gs = rGPUCount request /\
      (NoDup (map gID (gpus r)) -> NoDup (map gID gs)) /\
      Forall (fun g => In g (gpus r) /\ gNodeID g = nID node0 /\
                       IsAvailable g now = true) gs).
  { intros H. destruct (IH H) as (n0 & gs & Hin & Hrest).
    exists n0, gs. split; [by right|done]. }
  destruct (rGPUCount request <=? nAvailableGPUs node); [|done].
  unfold ListGPUsByNode, store_list.
  destruct (fails r (OpListGPUsByNode (nID node))); [done|].
  set (listed := List.filter _ (gpus r)).
  destruct (gang_collect_spec listed [] (rGPUCount request) now)
    as (gs & Hgs & Hall & Hnd).
  rewrite Hgs. cbn [app].
  destruct (Z.eqb_spec (Int.len gs) (rGPUCount request)) as [Hlen|Hlen];
    [|done].
  intros _. exists node, gs. split; [by left|]. split; [done|].
  split; [done|]. split.
  - intros Hu. apply Hnd. unfold listed. by apply NoDup_map_filter.
  - eapply Forall_impl; [exact Hall|]. simpl. intros g [Hin Hav].
    unfold listed in Hin. apply filter_In in Hin as [Hin Hn].
    apply String.eqb_eq in Hn. done.
Qed.

Lemma NoDup_map_take {A B} (f : A -> B) n (l : list A) :
  NoDup (map f l) -> NoDup (map f (take n l)).
Proof.
  intros H. change (map f (take n l)) with (f <$> take n l).
  rewrite fmap_take. eapply sublist_NoDup; [exact H|apply sublist_take].
Qed.

(** What a successful placement by [Allocate] was made of. *)
Lemma Allocate_ok r request now :
  outErr (Allocate r request now) = None ->
  exists node gs,
    In node (capable_nodes r request) /\
    Allocate r request now = createAllocation r request node gs now /\
    Int.len gs = rGPUCount request /\
    (NoDup (map gID (gpus r)) -> NoDup (map gID gs)) /\
    Forall (fun g => In g (gpus r) /\ gNodeID g = nID node /\
                     IsAvailable g now = true) gs.
Proof.
  unfold Allocate, ListNodes, store_list.
  destruct (fails r OpListNodes); [done|].
  fold (capable_nodes r request).
  destruct (length _ =? 0)%nat; [done|].
  destruct (rGangScheduling request); [apply gangSchedule_ok|].
  unfold bestFitSchedule.
  destruct (best_fit_search r request (capable_nodes r request) now 999999
              None) as [out|e] eqn:E; [|done].
  destruct (best_fit_search_spec _ _ _ _ _ _ _ E) as [[-> Hall]|Hex];
    [done|].
  destruct Hex as (pre & node & post & Hns & H0 & Hfit & -> & _).
  intros _. exists node, (take (Z.to_nat (rGPUCount request))
                            (node_available r now node)).
  unfold node_fits in Hfit. apply andb_true_iff in Hfit as [_ Hfit].
  apply Z.leb_le in Hfit. unfold Int.len in Hfit.
  split; [rewrite Hns; apply in_or_app; right; by left|].
  split; [done|]. split; [unfold Int.len; rewrite length_take; lia|].
  split.
  - intros Hu. apply NoDup_map_take. unfold node_available.
    by do 2 apply NoDup_map_filter.
  - apply Forall_forall. intros g Hg.
    apply list_elem_of_In in Hg.
    assert (Hin : In g (node_available r now node)).
    { apply list_elem_of_In. apply list_elem_of_In in Hg.
      eapply subseteq_take. exact Hg. }
    unfold node_available in Hin.
    apply filter_In in Hin as [Hin Hav].
    apply filter_In in Hin as [Hin Hn]. apply String.eqb_eq in Hn. done.
Qed.

(** X9. A successful [Allocate] hands out GPUs of one node only: a node of
    the store that is online, schedulable, not draining and has the
    requested GPU, CPU and memory counts available; the result names as
    many GPUs as requested, each of them a GPU of that node that was
    available (not allocated, healthy, not throttled, past its cooling
    period) when the call was made. *)
Theorem Allocate_hands_out_available_GPUs (r : Repository)
    (request : AllocationRequest) (now : Time.Time) :
  outErr (Allocate r request now) = None ->
  exists node gs,
    outResult (Allocate r request now)
      = Some (mkResult true (generateAllocationID now) (map gID gs)
                       (nID node) "") /\
    In node (nodes r) /\
    nOnline node = true /\
    HasCapacity node (rGPUCount request) (rCPUCores request)
                (rMemoryMB request) = true /\
    Int.len gs = rGPUCount request /\
    Forall (fun g => In g (gpus r) /\ gNodeID g = nID node /\
                     IsAvailable g now = true) gs.
Proof.
  intros Hok. destruct (Allocate_ok r request now Hok)
    as (node & gs & Hin & Heq & Hlen & _ & Hall).
  exists node, gs. rewrite Heq in Hok |- *.
  split; [by apply createAllocation_result|].
  unfold capable_nodes in Hin. apply filter_In in Hin as [Hin Hcap].
  apply filter_In in Hin as [Hin Hon]. done.
Qed.

Lemma Allocate_hands_out_available_GPUs_witness :
  outErr (Allocate ex_idle ex_gang_request 30) = None /\
  exists node gs,
    outResult (Allocate ex_idle ex_gang_request 30)
      = Some (mkResult true (generateAllocationID 30) (map gID gs)
                       (nID node) "") /\
    In node (nodes ex_idle) /\
    nOnline node = true /\
    HasCapacity node 2 4 8000 = true /\
    Int.len gs = 2 /\
    Forall (fun g => In g (gpus ex_idle) /\ gNodeID g = nID node /\
                     IsAvailable g 30 = true) gs.
Proof.
  split; [reflexivity|].
  apply (Allocate_hands_out_available_GPUs ex_idle ex_gang_request 30).
  reflexivity.
Defined.

(* ===================================================================== *)
(** ** Allocation and release cancel out *)
(* ===================================================================== *)

Lemma wrap_add_l x y : Int.wrap (Int.wrap x + y) = Int.wrap (x + y).
Proof.
  unfold Int.wrap. f_equal.
  replace ((x + 2 ^ 63) mod 2 ^ 64 - 2 ^ 63 + y + 2 ^ 63)
    with ((x + 2 ^ 63) mod 2 ^ 64 + y) by lia.
  rewrite Zplus_mod_idemp_l. f_equal. lia.
Qed.

Lemma wrap_add_r x y : Int.wrap (x + Int.wrap y) = Int.wrap (x + y).
Proof. rewrite Z.add_comm, wrap_add_l. f_equal. lia. Qed.

Lemma add_sub_cancel a b : Int.in_range a -> Int.add (Int.sub a b) b = a.
Proof.
  intros Ha. unfold Int.add, Int.sub. rewrite wrap_add_l.
  replace (a - b + b) with a by lia. by apply wrap_in_range.
Qed.

Lemma add_neg_cancel a b :
  Int.in_range a -> Int.add (Int.add a b) (Int.neg b) = a.
Proof.
  intros Ha. unfold Int.add, Int.neg. rewrite wrap_add_l, wrap_add_r.
  replace (a + b + - b) with a by lia. by apply wrap_in_range.
Qed.

Lemma add_one_cancel a : Int.in_range a -> Int.add (Int.add a 1) (-1) = a.
Proof.
  intros Ha. unfold Int.add. rewrite wrap_add_l.
  replace (a + 1 + -1) with a by lia. by apply wrap_in_range.
Qed.

Section TableMore.
Context {R : Type} (key : R -> string).

Lemma tbl_find_unique (t : list R) x :
  tbl_unique key t -> In x t -> tbl_find key (key x) t = Some x.
Proof.
  unfold tbl_unique, tbl_find. induction t as [|y t IH]; [done|].
  simpl. rewrite NoDup_cons. intros [Hy Hnd] [->|Hin].
  - by rewrite String.eqb_refl.
  - destruct (String.eqb_spec (key y) (key x)) as [E|E]; [|by apply IH].
    destruct Hy. rewrite E. apply list_elem_of_fmap. exists x.
    split; [done|]. by apply list_elem_of_In.
Qed.

Lemma tbl_find_save id r (t : list R) :
  tbl_find key id (tbl_save key r t) =
  if String.eqb (key r) id then Some r else tbl_find key id t.
Proof.
  destruct (String.eqb_spec (key r) id) as [<-|Hne].
  - apply tbl_save_find.
  - by apply tbl_save_find_ne.
Qed.

Lemma tbl_save_keys r (t : list R) :
  tbl_find key (key r) t <> None ->
  map key (tbl_save key r t) = map key t.
Proof.
  unfold tbl_find. induction t as [|x t IH]; simpl; [done|].
  destruct (String.eqb_spec (key x) (key r)) as [E|E]; simpl.
  - intros _. by rewrite E.
  - intros H. by rewrite IH.
Qed.

End TableMore.

(** Unbinding the GPUs of a list, on a store that does not fail. *)
Lemma free_gpus_find ids r id :
  (forall op, fails r op = false) ->
  tbl_find gID id (gpus (free_gpus r ids)) =
  if bool_decide (id ∈ ids) then gpu_unbind <$> tbl_find gID id (gpus r)
  else tbl_find gID id (gpus r).
Proof.
  unfold free_gpus. revert r.
  induction ids as [|id0 ids IH]; intros r Hf; simpl; [done|].
  unfold GetGPU, store_get. rewrite Hf.
  destruct (tbl_find gID id0 (gpus r)) as [g|] eqn:Eg.
  - unfold logged, UpdateGPU, store_write. rewrite Hf.
    rewrite IH by done. cbn [gpus with_gpus].
    pose proof (tbl_find_key gID _ _ _ Eg) as Hk.
    rewrite tbl_find_save. cbn [gID gpu_unbind]. rewrite Hk.
    destruct (String.eqb_spec id0 id) as [->|Hne].
    + rewrite Eg. rewrite (bool_decide_eq_true_2 (id ∈ id :: ids))
        by (by left).
      by destruct (bool_decide (id ∈ ids)).
    + destruct (bool_decide_reflect (id ∈ ids)) as [Hin|Hout].
      * rewrite bool_decide_eq_true_2; [done|by right].
      * rewrite bool_decide_eq_false_2; [done|].
        rewrite elem_of_cons. intros [?|?]; congruence.
  - rewrite IH by done.
    destruct (String.eqb_spec id0 id) as [->|Hne].
    + rewrite Eg. rewrite (bool_decide_eq_true_2 (id ∈ id :: ids))
        by (by left).
      by destruct (bool_decide (id ∈ ids)).
    + destruct (bool_decide_reflect (id ∈ ids)) as [Hin|Hout].
      * rewrite bool_decide_eq_true_2; [done|by right].
      * rewrite bool_decide_eq_false_2; [done|].
        rewrite elem_of_cons. intros [?|?]; congruence.
Qed.

(** The store after a successful [createAllocation], when no call of the
    store fails. *)
Lemma createAllocation_shape r request node gs now :
  (forall op, fails r op = false) ->
  outErr (createAllocation r request node gs now) = None ->
  tbl_find aID (generateAllocationID now) (allocations r) = None /\
  outRepo (createAllocation r request node gs now)
  = with_nodes
      (mark_gpus
         (with_allocations r
            (allocations r ++ [new_allocation request node gs now]))
         gs (generateAllocationID now) (rJobID request) (rTenantID request))
      (tbl_save nID
         (node_take node (Int.len gs) (rCPUCores request) (rMemoryMB request))
         (nodes r)).
Proof.
  intros Hf. unfold createAllocation, CreateAllocation, store_write,
    tbl_create.
  rewrite Hf. cbn [aID].
  destruct (tbl_find aID (generateAllocationID now) (allocations r));
    [done|].
  cbn [fmap option_fmap option_map outErr outRepo]. intros _.
  split; [done|]. fold (new_allocation request node gs now).
  set (r1 := with_allocations r _).
  destruct (mark_gpus_tables gs r1 (generateAllocationID now)
              (rJobID request) (rTenantID request))
    as (_ & _ & Hn2 & _ & Hf2).
  unfold logged, UpdateNode, store_write.
  rewrite Hf2. cbn [fails r1 with_allocations]. rewrite Hf.
  by rewrite Hn2.
Qed.

(** The store after a successful [Free], when no call of the store
    fails. *)
Lemma Free_shape r id now a n :
  (forall op, fails r op = false) ->
  tbl_find aID id (allocations r) = Some a ->
  tbl_find nID (aNodeID a) (nodes r) = Some n ->
  Free r id now
  = (None,
     with_nodes
       (free_gpus
          (with_allocations r
             (tbl_save aID (alloc_completed a now) (allocations r)))
          (aGPUIDs a))
       (tbl_save nID
          (node_give n (Int.len (aGPUIDs a)) (aCPUCores a) (aMemoryMB a))
          (nodes r))).
Proof.
  intros Hf Ha Hn.
  unfold Free, GetAllocation, store_get. rewrite Hf, Ha.
  unfold UpdateAllocation, store_write. rewrite Hf.
  set (r1 := with_allocations r _).
  destruct (free_gpus_tables (aGPUIDs (alloc_completed a now)) r1)
    as (_ & _ & Hnodes & Hallocs & Hfails).
  cbn [aGPUIDs alloc_completed] in *.
  set (r2 := free_gpus r1 _) in *.
  unfold GetNode, store_get. rewrite Hfails. cbn [fails r1 with_allocations].
  rewrite Hf, Hnodes. cbn [nodes r1 with_allocations aNodeID alloc_completed].
  rewrite Hn. unfold UpdateNode, store_write. rewrite Hfails.
  cbn [fails r1 with_allocations]. rewrite Hf.
  rewrite Hnodes. done.
Qed.

Lemma node_give_take n g c m :
  node_in_range n -> node_give (node_take n g c m) g c m = n.
Proof.
  intros (H1 & H2 & H3). unfold node_give, node_take, node_with_available.
  simpl. rewrite !add_sub_cancel by done. by destruct n.
Qed.

(** X10. Allocation and release cancel out.  On a store where no call
    fails, with unique GPU and node ids and node counters that are 64-bit
    integers: after a successful [Allocate], [Free] of the allocation that
    the result names succeeds; the allocation is then Completed, with the
    instant of the release as [CompletedAt], and still names the job, the
    tenant, the node and the GPUs of the result; every node has its
    availability counters back; every GPU is unallocated or allocated as
    before the allocation and exactly as available as before at every
    instant; jobs and tenants were never touched.  Nothing is said of the
    instants the allocation was made at. *)
Theorem Allocate_then_Free_restores_the_cluster (r : Repository)
    (request : AllocationRequest) (now now' : Time.Time) :
  (forall op, fails r op = false) ->
  tbl_unique gID (gpus r) ->
  tbl_unique nID (nodes r) ->
  (forall n, In n (nodes r) -> node_in_range n) ->
  outErr (Allocate r request now) = None ->
  exists res r' a,
    outResult (Allocate r request now) = Some res /\
    Free (outRepo (Allocate r request now)) (resAllocationID res) now'
      = (None, r') /\
    tbl_find aID (resAllocationID res) (allocations r') = Some a /\
    aState a = AllocationCompleted /\
    aCompletedAt a = Some now' /\
    aJobID a = rJobID request /\
    aTenantID a = rTenantID request /\
    aNodeID a = resNodeID res /\
    aGPUIDs a = resGPUIDs res /\
    Int.len (resGPUIDs res) = rGPUCount request /\
    (forall id, tbl_find nID id (nodes r') = tbl_find nID id (nodes r)) /\
    (forall id g, tbl_find gID id (gpus r) = Some g ->
       exists g', tbl_find gID id (gpus r') = Some g' /\
                  gAllocated g' = gAllocated g /\
                  gNodeID g' = gNodeID g /\
                  forall t, IsAvailable g' t = IsAvailable g t) /\
    jobs r' = jobs r /\ tenants r' = tenants r.
Proof.
  intros Hf Hug Hun Hrange Hok.
  destruct (Allocate_ok r request now Hok)
    as (node & gs & Hin & Heq & Hlen & Hnd & Hall).
  specialize (Hnd Hug).
  rewrite Heq in Hok |- *.
  rewrite (createAllocation_result r request node gs now Hok).
  destruct (createAllocation_shape r request node gs now Hf Hok)
    as [Hfresh ->].
  set (alloc := new_allocation request node gs now).
  set (node' := node_take node (Int.len gs) (rCPUCores request)
                          (rMemoryMB request)).
  set (r1 := with_allocations r (allocations r ++ [alloc])).
  destruct (mark_gpus_tables gs r1 (generateAllocationID now)
              (rJobID request) (rTenantID request))
    as (Hj2 & Ht2 & Hn2 & Ha2 & Hf2).
  pose proof (mark_gpus_bound gs r1 (generateAllocationID now)
                (rJobID request) (rTenantID request)) as Hbound.
  pose proof (fun id => mark_gpus_other gs r1 (generateAllocationID now)
                (rJobID request) (rTenantID request) id) as Hother.
  set (r2 := mark_gpus r1 gs _ _ _) in *.
  set (r3 := with_nodes r2 (tbl_save nID node' (nodes r))).
  assert (Hnode_in : In node (nodes r)).
  { unfold capable_nodes in Hin. apply filter_In in Hin as [Hin _].
    by apply filter_In in Hin as [Hin _]. }
  assert (Hf3 : forall op, fails r3 op = false).
  { intros op. unfold r3. cbn [fails with_nodes]. rewrite Hf2.
    cbn [fails r1 with_allocations]. apply Hf. }
  assert (Ha3 : tbl_find aID (generateAllocationID now) (allocations r3)
                = Some alloc).
  { unfold r3. cbn [allocations with_nodes]. rewrite Ha2.
    cbn [allocations r1 with_allocations].
    rewrite tbl_find_app, Hfresh. unfold tbl_find. simpl.
    by rewrite String.eqb_refl. }
  assert (Hn3 : tbl_find nID (aNodeID alloc) (nodes r3) = Some node').
  { unfold r3. cbn [nodes with_nodes aNodeID alloc new_allocation].
    apply (tbl_save_find nID node'). }
  eexists _, _, (alloc_completed alloc now').
  split; [reflexivity|]. cbn [resAllocationID resNodeID resGPUIDs].
  rewrite (Free_shape r3 _ now' alloc node' Hf3 Ha3 Hn3).
  split; [reflexivity|].
  cbn [aGPUIDs aCPUCores aMemoryMB alloc new_allocation].
  set (r4 := with_allocations r3 _).
  destruct (free_gpus_tables (map gID gs) r4) as (Hj5 & Ht5 & _ & Ha5 & _).
  assert (Hf4 : forall op, fails r4 op = false) by (intros op; apply Hf3).
  pose proof (fun id => free_gpus_find (map gID gs) r4 id Hf4) as Hg5.
  set (r5 := free_gpus r4 (map gID gs)) in *.
  cbn [allocations nodes gpus jobs tenants with_nodes].
  split; [|do 6 (split; [reflexivity|]); split; [|split; [|split; [|split]]]].
  - rewrite Ha5. cbn [allocations r4 with_allocations].
    apply (tbl_save_find aID (alloc_completed alloc now')).
  - unfold Int.len in *. by rewrite length_map.
  - intros id. unfold r3. cbn [nodes with_nodes].
    replace (Int.len (map gID gs)) with (Int.len gs)
      by (unfold Int.len; by rewrite length_map).
    unfold node'. rewrite node_give_take by (by apply Hrange).
    rewrite !tbl_find_save. cbn [nID node_take node_with_available].
    destruct (String.eqb_spec (nID node) id) as [<-|Hne]; [|done].
    symmetry. by apply tbl_find_unique.
  - intros id g Hg. rewrite Hg5.
    cbn [gpus r4 with_allocations r3 with_nodes].
    destruct (bool_decide_reflect (id ∈ map gID gs)) as [Hid|Hid].
    + apply list_elem_of_fmap in Hid as (g0 & -> & Hg0).
      rewrite Forall_forall in Hbound. rewrite Hbound; [|done|done|done].
      rewrite Forall_forall in Hall. destruct (Hall g0 Hg0) as (Hin0 & _ & Hav).
      rewrite (tbl_find_unique gID (gpus r) g0 Hug Hin0) in Hg.
      injection Hg as <-. eexists. split; [reflexivity|].
      unfold IsAvailable in Hav. rewrite !andb_true_iff in Hav.
      destruct Hav as [[[Hna _] _] _]. apply negb_true_iff in Hna.
      split; [by rewrite Hna|]. split; [done|].
      intros t. unfold IsAvailable. simpl. by rewrite Hna.
    + rewrite Hother by done. cbn [gpus r1 with_allocations].
      rewrite Hg. by eexists.
  - by rewrite Hj5.
  - by rewrite Ht5.
Qed.

Lemma Allocate_then_Free_restores_the_cluster_witness :
  (forall op, fails ex_idle op = false) /\
  outErr (Allocate ex_idle ex_gang_request 30) = None /\
  exists res r' a,
    outResult (Allocate ex_idle ex_gang_request 30) = Some res /\
    Free (outRepo (Allocate ex_idle ex_gang_request 30))
         (resAllocationID res) 40 = (None, r') /\
    tbl_find aID (resAllocationID res) (allocations r') = Some a /\
    aState a = AllocationCompleted /\
    aCompletedAt a = Some 40 /\
    aJobID a = rJobID ex_gang_request /\
    aTenantID a = rTenantID ex_gang_request /\
    aNodeID a = resNodeID res /\
    aGPUIDs a = resGPUIDs res /\
    Int.len (resGPUIDs res) = rGPUCount ex_gang_request /\
    (forall id, tbl_find nID id (nodes r') = tbl_find nID id (nodes ex_idle))
    /\
    (forall id g, tbl_find gID id (gpus ex_idle) = Some g ->
       exists g', tbl_find gID id (gpus r') = Some g' /\
                  gAllocated g' = gAllocated g /\
                  gNodeID g' = gNodeID g /\
                  forall t, IsAvailable g' t = IsAvailable g t) /\
    jobs r' = jobs ex_idle /\ tenants r' = tenants ex_idle.
Proof.
  split; [reflexivity|]. split; [reflexivity|].
  apply (Allocate_then_Free_restores_the_cluster ex_idle ex_gang_request
           30 40).
  - reflexivity.
  - unfold tbl_unique. simpl. apply NoDup_cons. split.
    + intros H. apply list_elem_of_singleton in H. discriminate.
    + apply NoDup_singleton.
  - unfold tbl_unique. simpl. apply NoDup_singleton.
  - intros n [<-|[]]. unfold node_in_range, Int.in_range, Int.min_int,
      Int.max_int. simpl. lia.
  - reflexivity.
Defined.

(* ===================================================================== *)
(** ** Submission: what a call touches, and how it fails *)
(* ===================================================================== *)

Lemma validateJob_error_class job e :
  validateJob job = Some e ->
  IsQuotaExceeded e = false /\ IsNotFound e = false.
Proof.
  unfold validateJob.
  destruct (_ <=? 0); [by intros [= <-]|].
  destruct (8 <? _); [by intros [= <-]|].
  destruct (String.eqb _ _); [by intros [= <-]|done].
Qed.

Lemma GetTenant_error_class r id e :
  GetTenant r id = Err e ->
  IsQuotaExceeded e = false /\
  (IsNotFound e = true <-> e = ErrTenantNotFound).
Proof.
  unfold GetTenant, store_get.
  destruct (fails r _); [by intros [= <-]|].
  destruct (tbl_find _ _ _); [done|]. by intros [= <-].
Qed.

Lemma Enqueue_error_class q job now e :
  Enqueue q job now = Err e ->
  IsQuotaExceeded e = false /\ IsNotFound e = false.
Proof.
  unfold Enqueue.
  destruct (_ <=? _); [by intros [= <-]|].
  destruct (bool_decide _); [by intros [= <-]|done].
Qed.

(** X11. [SubmitJob] writes nothing but the job table and the queue:
    tenants (so the usage counters), GPUs, nodes, allocations and the
    configuration are as before, whatever it returns.  On success the job,
    Pending and stamped, is appended to the job table, and the queue is
    the one [Enqueue] makes of it for that job at some instant not before
    the stamp.  On every error the queue is as before, and unless the
    error is the enqueue failure the whole scheduler is as before.  The
    error is a quota error (the one the REST handler answers with 403)
    exactly when the job is valid, its tenant was read and the quota test
    failed; it is a not-found error exactly when the job is valid and the
    tenant is not in the store. *)
Theorem SubmitJob_rejections_leave_no_trace (s : Scheduler) (job : Job)
    (now : Time.Time) :
  let out := SubmitJob s job now in
  tenants (storage (snd out)) = tenants (storage s) /\
  gpus (storage (snd out)) = gpus (storage s) /\
  nodes (storage (snd out)) = nodes (storage s) /\
  allocations (storage (snd out)) = allocations (storage s) /\
  config (snd out) = config s /\
  match fst out with
  | None =>
      jobs (storage (snd out))
        = jobs (storage s) ++ [job_submitted job now] /\
      exists t, now <= t /\
        Enqueue (queue s) (job_submitted job now) t = Ok (queue (snd out))
  | Some e =>
      queue (snd out) = queue s /\
      (snd out = s \/ exists err, e = Wrapf "failed to enqueue job" err) /\
      (IsQuotaExceeded e = true <->
       validateJob job = None /\
       exists t, GetTenant (storage s) (jTenantID job) = Ok t /\
                 HasAvailableQuota t (jGPUCount job) (jGPUMemoryMB job)
                   (jCPUCores job) (jMemoryMB job) = false) /\
      (IsNotFound e = true <->
       validateJob job = None /\
       GetTenant (storage s) (jTenantID job) = Err ErrTenantNotFound)
  end.
Proof.
  cbv zeta. unfold SubmitJob.
  destruct (validateJob job) as [ev|] eqn:Ev.
  { destruct (validateJob_error_class _ _ Ev) as [Hq Hn].
    cbn [fst snd IsQuotaExceeded IsNotFound]. rewrite Hq, Hn.
    do 6 (split; [done|]). split; [by left|].
    split; (split; [done|by intros [? _]]). }
  destruct (GetTenant (storage s) (jTenantID job)) as [t|et] eqn:Et.
  2:{ destruct (GetTenant_error_class _ _ _ Et) as [Hq Hn].
      cbn [fst snd IsQuotaExceeded IsNotFound]. rewrite Hq.
      do 6 (split; [done|]). split; [by left|]. split.
      - split; [done|]. by intros (_ & t & ? & _).
      - rewrite Hn. split; [by intros ->|]. by intros [_ [= ->]]. }
  destruct (HasAvailableQuota t _ _ _ _) eqn:Eq; cbn [negb].
  2:{ cbn [fst snd IsQuotaExceeded IsNotFound].
      do 6 (split; [done|]). split; [by left|]. split.
      - split; [eauto|done].
      - split; [done|]. by intros [_ ?]. }
  unfold CreateJob, store_write.
  assert (Hcreate_err : forall e0,
    let e := Wrapf "failed to create job" e0 in
    IsQuotaExceeded e0 = false -> IsNotFound e0 = false ->
    (IsQuotaExceeded e = true <->
     @None error = None /\
     exists t0, @Ok Tenant t = Ok t0 /\
                HasAvailableQuota t0 (jGPUCount job) (jGPUMemoryMB job)
                  (jCPUCores job) (jMemoryMB job) = false) /\
    (IsNotFound e = true <->
     @None error = None /\ @Ok Tenant t = Err ErrTenantNotFound)).
  { intros e0 e Hq Hn. unfold e. cbn [IsQuotaExceeded IsNotFound].
    rewrite Hq, Hn. split; (split; [done|]).
    - intros (_ & t0 & [= <-] & H). congruence.
    - by intros [_ ?]. }
  destruct (fails (storage s) _) eqn:Ef.
  { cbn [fst snd]. do 6 (split; [done|]). split; [by left|].
    by apply Hcreate_err. }
  unfold tbl_create.
  destruct (tbl_find jID _ (jobs (storage s))) eqn:Efind;
    cbn [fmap option_fmap option_map].
  { cbn [fst snd]. do 6 (split; [done|]). split; [by left|].
    by apply Hcreate_err. }
  destruct (Enqueue (queue s) (job_submitted job now) now) as [q1|eq] eqn:Eenq.
  { cbn [fst snd]. do 6 (split; [done|]). exists now. split; [lia|done]. }
  destruct (Enqueue_error_class _ _ _ _ Eenq) as [Hq Hn].
  cbn [fst snd IsQuotaExceeded IsNotFound]. rewrite Hq, Hn.
  do 6 (split; [done|]). split; [right; by eexists|].
  split; (split; [done|]).
  - intros (_ & t0 & [= <-] & H). congruence.
  - by intros [_ ?].
Qed.

(* ===================================================================== *)
(** ** Starting and cancelling a job *)
(* ===================================================================== *)

Lemma Free_tables r id now :
  jobs (snd (Free r id now)) = jobs r /\
  tenants (snd (Free r id now)) = tenants r /\
  fails (snd (Free r id now)) = fails r.
Proof.
  unfold Free. destruct (GetAllocation r id) as [a|e]; [|done].
  unfold UpdateAllocation, store_write. destruct (fails r _); [done|].
  set (r1 := with_allocations r _).
  destruct (free_gpus_tables (aGPUIDs (alloc_completed a now)) r1)
    as (H1 & H2 & _ & _ & H5).
  set (r2 := free_gpus r1 _) in *.
  destruct (GetNode r2 _) as [n|e]; [|simpl; by rewrite H1, H2, H5].
  unfold UpdateNode, store_write.
  destruct (fails r2 _); simpl; by rewrite ?H1, ?H2, ?H5.
Qed.

Lemma free_all_tables allocs r now :
  let r' := fold_left (fun r alloc => snd (Free r (aID alloc) now))
                      allocs r in
  jobs r' = jobs r /\ tenants r' = tenants r /\ fails r' = fails r.
Proof.
  revert r. induction allocs as [|a allocs IH]; intros r; simpl; [done|].
  destruct (Free_tables r (aID a) now) as (H1 & H2 & H3).
  destruct (IH (snd (Free r (aID a) now))) as (K1 & K2 & K3).
  simpl in *. by rewrite K1, K2, K3.
Qed.

Lemma startJob_charge r job now tenant :
  (forall op, fails r op = false) ->
  tbl_find tID (jTenantID job) (tenants r) = Some tenant ->
  startJob r job now
  = (None,
     with_tenants
       (with_jobs r (tbl_save jID (job_started job now) (jobs r)))
       (tbl_save tID
          (UpdateUsage tenant (jGPUCount job) (jGPUMemoryMB job)
             (jCPUCores job) (jMemoryMB job) 1)
          (tenants r))).
Proof.
  intros Hf Ht. unfold startJob, UpdateJob, store_write. rewrite Hf.
  unfold GetTenant, store_get. cbn [fails with_jobs tenants jTenantID
    job_started]. rewrite Hf, Ht.
  unfold UpdateTenant, store_write. cbn [fails with_jobs]. rewrite Hf.
  done.
Qed.

Lemma freeJobResources_release r job now tenant :
  (forall op, fails r op = false) ->
  tbl_find tID (jTenantID job) (tenants r) = Some tenant ->
  exists r',
    freeJobResources r job now = (None, r') /\
    tenants r'
      = tbl_save tID
          (UpdateUsage tenant (Int.neg (jGPUCount job))
             (Int.neg (jGPUMemoryMB job)) (Int.neg (jCPUCores job))
             (Int.neg (jMemoryMB job)) (-1))
          (tenants r) /\
    jobs r' = jobs r /\
    (forall op, fails r' op = false).
Proof.
  intros Hf Ht. unfold freeJobResources, GetJobAllocations, store_list.
  rewrite Hf.
  set (allocs := List.filter _ (allocations r)).
  destruct (free_all_tables allocs r now) as (H1 & H2 & H3).
  set (r1 := fold_left _ allocs r) in *.
  unfold GetTenant, store_get. rewrite H3, Hf, H2, Ht.
  unfold UpdateTenant, store_write. rewrite H3, Hf.
  eexists. split; [reflexivity|]. cbn [tenants jobs fails with_tenants].
  rewrite H1, H2, H3. done.
Qed.

Lemma UpdateUsage_release t g gm c m :
  usage_in_range t ->
  UpdateUsage (UpdateUsage t g gm c m 1) (Int.neg g) (Int.neg gm)
              (Int.neg c) (Int.neg m) (-1) = t.
Proof.
  intros (H1 & H2 & H3 & H4 & H5). unfold UpdateUsage. simpl.
  rewrite !add_neg_cancel by done. rewrite ?add_one_cancel by done.
  by destruct t.
Qed.

(** X12. Start, then cancel.  On a store where no call fails, for a job
    whose tenant is in the store with usage counters that are 64-bit
    integers: [startJob] sets the job Running, stamped, and charges the
    job's GPUs, GPU memory, CPU cores, memory and one job to the tenant;
    [CancelJob] of that running job then succeeds, sets it Cancelled with
    the completion time, and the tenant's usage is exactly what it was
    before the start; the queue is not touched. *)
Theorem start_then_cancel_restores_tenant_usage (s : Scheduler) (job : Job)
    (now now' : Time.Time) (tenant : Tenant) :
  (forall op, fails (storage s) op = false) ->
  tbl_find tID (jTenantID job) (tenants (storage s)) = Some tenant ->
  usage_in_range tenant ->
  exists r1 s',
    startJob (storage s) job now = (None, r1) /\
    tbl_find jID (jID job) (jobs r1) = Some (job_started job now) /\
    tbl_find tID (jTenantID job) (tenants r1)
      = Some (UpdateUsage tenant (jGPUCount job) (jGPUMemoryMB job)
                (jCPUCores job) (jMemoryMB job) 1) /\
    CancelJob (with_storage s r1) None (jID job) now' = (None, s') /\
    tbl_find jID (jID job) (jobs (storage s'))
      = Some (job_cancelled (job_started job now) now') /\
    tbl_find tID (jTenantID job) (tenants (storage s')) = Some tenant /\
    (forall id, id <> jTenantID job ->
       tbl_find tID id (tenants (storage s'))
       = tbl_find tID id (tenants (storage s))) /\
    queue s' = queue s.
Proof.
  intros Hf Ht Hrange.
  pose proof (tbl_find_key tID _ _ _ Ht) as Htid.
  pose proof (startJob_charge _ job now tenant Hf Ht) as Hstart.
  set (tenant' := UpdateUsage tenant (jGPUCount job) (jGPUMemoryMB job)
                    (jCPUCores job) (jMemoryMB job) 1) in *.
  set (r1 := with_tenants _ _) in Hstart.
  assert (Hf1 : forall op, fails r1 op = false) by (intros op; apply Hf).
  assert (Hjob1 : tbl_find jID (jID job) (jobs r1)
                  = Some (job_started job now)).
  { unfold r1. cbn [jobs with_tenants with_jobs].
    apply (tbl_save_find jID (job_started job now)). }
  assert (Ht1 : tbl_find tID (jTenantID job) (tenants r1) = Some tenant').
  { unfold r1. cbn [tenants with_tenants]. rewrite <- Htid.
    apply (tbl_save_find tID tenant'). }
  set (job'' := job_cancelled (job_started job now) now').
  destruct (freeJobResources_release r1 job'' now' tenant' Hf1 Ht1)
    as (r2 & Hfree & Hten2 & Hjobs2 & Hf2).
  exists r1, (with_storage (with_storage s r1)
                (with_jobs r2 (tbl_save jID job'' (jobs r2)))).
  split; [done|]. split; [done|]. split; [done|]. split.
  { unfold CancelJob, GetJob. cbn [storage with_storage].
    rewrite Hjob1. cbn [jState job_started]. fold job''.
    rewrite Hfree. cbn [snd]. unfold UpdateJob, store_write.
    by rewrite Hf2. }
  cbn [storage with_storage tenants jobs with_jobs queue].
  split; [apply (tbl_save_find jID job'')|]. rewrite Hten2.
  assert (Hback : UpdateUsage tenant' (Int.neg (jGPUCount job''))
                    (Int.neg (jGPUMemoryMB job'')) (Int.neg (jCPUCores job''))
                    (Int.neg (jMemoryMB job'')) (-1) = tenant).
  { unfold tenant'. cbn [jGPUCount jGPUMemoryMB jCPUCores jMemoryMB job''
      job_cancelled job_started]. by apply UpdateUsage_release. }
  rewrite Hback. split; [|split; [|done]].
  - rewrite <- Htid. apply (tbl_save_find tID tenant).
  - intros id Hne. unfold r1. cbn [tenants with_tenants].
    rewrite !tbl_save_find_ne; [done| |].
    + unfold tenant'. cbn [tID UpdateUsage]. congruence.
    + congruence.
Qed.

Lemma start_then_cancel_restores_tenant_usage_witness :
  (forall op, fails (storage (NewScheduler ex_config ex_idle)) op = false) /\
  tbl_find tID (jTenantID ex_job) (tenants ex_idle) = Some ex_tenant /\
  usage_in_range ex_tenant /\
  exists r1 s',
    startJob ex_idle ex_job 10 = (None, r1) /\
    tbl_find tID "team-a" (tenants r1)
      = Some (mkTenant "team-a" 4 64000 32 128000 10 2 32000 4 8000 1 true) /\
    CancelJob (with_storage (NewScheduler ex_config ex_idle) r1) None
              "job-1" 20 = (None, s') /\
    tbl_find tID "team-a" (tenants (storage s')) = Some ex_tenant.
Proof.
  split; [reflexivity|]. split; [reflexivity|].
  assert (Hr : usage_in_range ex_tenant).
  { unfold usage_in_range, Int.in_range, Int.min_int, Int.max_int. simpl.
    lia. }
  split; [exact Hr|].
  destruct (start_then_cancel_restores_tenant_usage
              (NewScheduler ex_config ex_idle) ex_job 10 20 ex_tenant)
    as (r1 & s' & H1 & _ & H3 & H4 & _ & H6 & _);
    [reflexivity|reflexivity|exact Hr|].
  exists r1, s'. split; [exact H1|]. split; [exact H3|].
  split; [exact H4|exact H6].
Defined.

Lemma Job_IsActive_states job :
  Job_IsActive job = true <->
  jState job = JobStatePending \/ jState job = JobStateRunning.
Proof.
  unfold Job_IsActive. rewrite orb_true_iff, !JobState_eqb_eq. tauto.
Qed.

Lemma Job_IsTerminal_states job :
  Job_IsTerminal job = true <->
  jState job = JobStateCompleted \/ jState job = JobStateFailed \/
  jState job = JobStateCancelled.
Proof.
  unfold Job_IsTerminal. rewrite !orb_true_iff, !JobState_eqb_eq. tauto.
Qed.

(** X13. [CancelJob] cancels active jobs only.  A job is active exactly
    when its state is Pending or Running, whatever string the state is; an
    active job is not terminal, and a terminal job (Completed, Failed,
    Cancelled) or a Preempted one is not active.  For a job that is not
    active [CancelJob] returns the cannot-cancel error, which names the
    state, and changes nothing; for a job id that is not in the store it
    returns the not-found error (the one the REST handler answers with
    404) and changes nothing; an error of the first read is returned as
    it is. *)
Theorem CancelJob_cancels_active_jobs_only (s : Scheduler)
    (fault : option error) (jobID : string) (now : Time.Time) :
  match GetJob (storage s) fault jobID with
  | Err e =>
      CancelJob s fault jobID now = (Some e, s) /\
      match fault with
      | Some err => e = err
      | None => e = ErrJobNotFound /\ IsNotFound e = true
      end
  | Ok job =>
      jID job = jobID /\
      (Job_IsActive job = true <->
       jState job = JobStatePending \/ jState job = JobStateRunning) /\
      (Job_IsActive job = true -> Job_IsTerminal job = false) /\
      (Job_IsTerminal job = true \/ jState job = JobStatePreempted ->
       Job_IsActive job = false) /\
      (Job_IsActive job = false ->
       CancelJob s fault jobID now
       = (Some (Errorf ("cannot cancel job in state: "
                        +:+ JobState_string (jState job))), s))
  end.
Proof.
  unfold CancelJob. destruct (GetJob (storage s) fault jobID) as [job|e] eqn:E.
  - unfold GetJob in E. destruct fault; [done|].
    destruct (tbl_find jID jobID (jobs (storage s))) as [j|] eqn:Ef; [|done].
    injection E as ->. split; [by eapply tbl_find_key|].
    split; [apply Job_IsActive_states|]. split; [|split].
    + intros Ha. apply Job_IsActive_states in Ha.
      apply not_true_is_false. rewrite Job_IsTerminal_states.
      destruct Ha as [->| ->]; intros [?|[?|?]]; discriminate.
    + intros Ht. apply not_true_is_false. rewrite Job_IsActive_states.
      rewrite Job_IsTerminal_states in Ht.
      destruct Ht as [[->|[->| ->]]| ->]; intros [?|?]; discriminate.
    + unfold Job_IsActive. intros Ha. apply orb_false_iff in Ha as [-> ->].
      done.
  - split; [done|]. unfold GetJob in E. destruct fault; [by injection E|].
    destruct (tbl_find _ _ _); [done|]. by injection E as <-.
Qed.

(** [Remove] and [Get] on a well-formed queue. *)
Lemma Remove_Get q jobID :
  queue_wf q ->
  exists found q',
    Remove q jobID = Ok (found, q') /\
    queue_wf q' /\
    Get q' jobID = None /\
    (forall id, id <> jobID -> Get q' id = Get q id) /\
    (found = false -> q' = q).
Proof.
  intros Hwf. destruct (Remove_wf q jobID Hwf) as [[Hout Hrem]|Hex].
  - exists false, q. split; [done|]. split; [done|].
    split; [by apply Get_None|]. done.
  - destruct Hex as (k & it0 & it & q' & Hk & Hs & Hid & Hrem & Hmap & _
                     & Hlen & Hperm & Hwf').
    exists true, q'. split; [done|]. split; [done|].
    split; [|split; [|done]].
    + apply Get_None; [done|]. rewrite <- (wf_map q' Hwf'), Hmap.
      rewrite elem_of_difference, elem_of_singleton. tauto.
    + intros id Hne. apply (Get_other q q' (qJob it)); [done|done| |].
      * apply (Hperm _ qJob qJob_set_index).
      * congruence.
Qed.

(** X14. [CancelJob] of a Pending job, the queue having any history.  The
    job is taken out of the queue (if it was there; the other jobs stay)
    before the store is written.  When the update of the job row
    succeeds, the call succeeds and the row is Cancelled with the
    completion time.  When the update fails, the call returns that error
    with the job already out of the queue while its row still says
    Pending.  Tenants, GPUs, nodes and allocations are not touched. *)
Theorem CancelJob_pending_job_leaves_the_queue (m : Z)
    (cs : list queue_call) (s : Scheduler) (jobID : string) (job : Job)
    (now : Time.Time) :
  run_calls cs (NewQueue m) = Some (queue s) ->
  tbl_find jID jobID (jobs (storage s)) = Some job ->
  jState job = JobStatePending ->
  let out := CancelJob s None jobID now in
  Get (queue (snd out)) jobID = None /\
  (forall id, id <> jobID ->
     Get (queue (snd out)) id = Get (queue s) id) /\
  tenants (storage (snd out)) = tenants (storage s) /\
  gpus (storage (snd out)) = gpus (storage s) /\
  nodes (storage (snd out)) = nodes (storage s) /\
  allocations (storage (snd out)) = allocations (storage s) /\
  (if fails (storage s) (OpUpdateJob jobID)
   then fst out = Some (StoreError (OpUpdateJob jobID)) /\
        jobs (storage (snd out)) = jobs (storage s)
   else fst out = None /\
        tbl_find jID jobID (jobs (storage (snd out)))
          = Some (job_cancelled job now) /\
        forall id, id <> jobID ->
          tbl_find jID id (jobs (storage (snd out)))
          = tbl_find jID id (jobs (storage s))).
Proof.
  intros Hrun Hfind Hstate. pose proof (history_wf _ _ _ Hrun) as Hwf.
  pose proof (tbl_find_key jID _ _ _ Hfind) as Hid.
  cbv zeta. unfold CancelJob, GetJob. rewrite Hfind, Hstate.
  destruct (Remove_Get (queue s) jobID Hwf)
    as (found & q' & -> & _ & Hnone & Hother & _).
  unfold UpdateJob, store_write. cbn [jID job_cancelled]. rewrite Hid.
  destruct (fails (storage s) (OpUpdateJob jobID)).
  - cbn [fst snd queue with_queue storage]. by repeat split.
  - cbn [fst snd queue with_queue storage with_storage with_jobs
         tenants gpus nodes allocations jobs].
    do 6 (split; [done|]). split; [done|]. split.
    + rewrite <- Hid at 1.
      apply (tbl_save_find jID (job_cancelled job now)).
    + intros id Hne. apply tbl_save_find_ne. cbn [jID job_cancelled].
      congruence.
Qed.

Lemma CancelJob_pending_job_leaves_the_queue_witness :
  run_calls [CallEnqueue (job_submitted ex_job 1000) 1000] (NewQueue 100)
    = Some (queue ex_submitted) /\
  tbl_find jID "job-1" (jobs (storage ex_submitted))
    = Some (job_submitted ex_job 1000) /\
  Get (queue ex_submitted) "job-1" = Some (job_submitted ex_job 1000) /\
  Get (queue (snd (CancelJob ex_submitted None "job-1" 2000))) "job-1"
    = None /\
  tenants (storage (snd (CancelJob ex_submitted None "job-1" 2000)))
    = tenants (storage ex_submitted).
Proof.
  split; [reflexivity|]. split; [reflexivity|]. split; [reflexivity|].
  destruct (CancelJob_pending_job_leaves_the_queue 100
              [CallEnqueue (job_submitted ex_job 1000) 1000]
              ex_submitted "job-1" (job_submitted ex_job 1000) 2000)
    as (H1 & _ & H3 & _); [reflexivity|reflexivity|reflexivity|].
  split; [exact H1|exact H3].
Defined.

(* ===================================================================== *)
(** ** The scheduling cycle *)
(* ===================================================================== *)

Lemma CreateAllocation_error_class r a e :
  CreateAllocation r a = Err e -> IsResourceError e = false.
Proof.
  unfold CreateAllocation, store_write.
  destruct (fails r _); [by intros [= <-]|].
  destruct (tbl_create _ _ _); [done|]. by intros [= <-].
Qed.

Lemma gangSchedule_error_class r request ns now e :
  outErr (gangSchedule r request ns now) = Some e ->
  IsResourceError e = false.
Proof.
  induction ns as [|node rest IH]; simpl; [by intros [= <-]|].
  destruct (rGPUCount request <=? nAvailableGPUs node); [|done].
  destruct (ListGPUsByNode r (nID node)) as [gs|e']; [|done].
  destruct (Int.len _ =? rGPUCount request); [|done].
  unfold createAllocation.
  destruct (CreateAllocation r _) as [r1|e1] eqn:E; [done|].
  intros [= <-]. simpl. by eapply CreateAllocation_error_class.
Qed.

Lemma Allocate_gang_error_class r request now e :
  rGangScheduling request = true ->
  capable_nodes r request <> [] ->
  outErr (Allocate r request now) = Some e ->
  IsResourceError e = false.
Proof.
  intros Hgang Hcap. unfold Allocate, ListNodes, store_list.
  destruct (fails r OpListNodes); [by intros [= <-]|].
  fold (capable_nodes r request).
  destruct (capable_nodes r request) as [|n ns]; [done|].
  cbn [length Nat.eqb]. rewrite Hgang. apply gangSchedule_error_class.
Qed.

(** X15. A gang job that cannot be placed never triggers preemption.  When
    the job at the head of the queue asks for gang scheduling and some
    online node passes the capacity test, a failed allocation returns an
    error that is not a resource error (the gang-scheduling failure, or an
    error of the store), so the cycle stops without selecting a victim,
    whatever the preemption option says: queue, store and counters are as
    before. *)
Theorem gang_placement_failure_never_preempts (fuel : nat)
    (clock : nat -> Time.Time) (k : nat) (s : Scheduler) (job : Job) :
  Peek (queue s) = Some job ->
  jGangScheduling job = true ->
  capable_nodes (storage s) (request_of job) <> [] ->
  fst (tryAllocateJob (storage s) job (clock k)) <> Ok true ->
  (exists e, tryAllocateJob (storage s) job (clock k) = (Err e, storage s) /\
             IsResourceError e = false) /\
  cycle_loop fuel clock k s = s.
Proof.
  intros Hpeek Hgang Hcap Hfail.
  destruct (tryAllocateJob_not_allocated _ _ _ Hfail) as [err Herr].
  assert (Hclass : IsResourceError err = false).
  { unfold tryAllocateJob in Herr. fold (request_of job) in Herr.
    destruct (outErr (Allocate (storage s) (request_of job) (clock k)))
      as [e|] eqn:E; [|done].
    injection Herr as <- _.
    by apply (Allocate_gang_error_class (storage s) (request_of job)
                (clock k) e Hgang Hcap E). }
  split; [eauto|].
  destruct fuel as [|fuel]; [done|]. cbn [cycle_loop].
  destruct (IsEmpty (queue s)); [done|]. rewrite Hpeek, Herr.
  rewrite with_storage_same, Hclass. by rewrite andb_false_r.
Qed.

Lemma gang_placement_failure_never_preempts_witness :
  Peek (queue ex_gang_blocked) = Some (job_submitted ex_gang_job 10) /\
  EnablePreemption (config ex_gang_blocked) = true /\
  SelectVictims (storage ex_gang_blocked) (job_submitted ex_gang_job 10)
    = Ok [ex_victim] /\
  tryAllocateJob (storage ex_gang_blocked) (job_submitted ex_gang_job 10) 20
    = (Err ErrGangSchedulingFailed, storage ex_gang_blocked) /\
  cycle_loop 5 (fun _ => 20) 0 ex_gang_blocked = ex_gang_blocked.
Proof.
  split; [reflexivity|]. split; [reflexivity|]. split; [reflexivity|].
  split; [reflexivity|].
  apply (gang_placement_failure_never_preempts 5 (fun _ => 20) 0
           ex_gang_blocked (job_submitted ex_gang_job 10)).
  - reflexivity.
  - reflexivity.
  - vm_compute. discriminate.
  - vm_compute. discriminate.
Defined.

(** [heap.Pop] on a non-empty array, whatever its order. *)
Lemma heap_Pop_any (pq : PriorityQueue) :
  (0 < length pq)%nat ->
  exists it pq',
    heap_Pop pq = Some (it, pq') /\
    S (length pq') = length pq /\
    forall B (f : QueueItem -> B),
      (forall a i, f (set_index a i) = f a) ->
      map f pq ≡ₚ f it :: map f pq'.
Proof.
  intros Hpos. unfold heap_Pop, pq_Len. rewrite heap_down_fst.
  set (n := (length pq - 1)%nat).
  set (pq2 := fst (down_loop n (pq_Swap pq 0 n) 0 n)).
  assert (Hlen2 : length pq2 = S n)
    by (unfold pq2; rewrite down_loop_length, pq_Swap_length; lia).
  destruct (pq_Pop_last pq2 n Hlen2) as (item & Hitem & -> & Hperm).
  eexists _, _. split; [done|]. split; [rewrite length_take; lia|].
  intros B f Hf. rewrite <- (Hperm B f Hf). unfold pq2.
  by rewrite (down_loop_perm f Hf), (pq_Swap_perm f Hf).
Qed.

Lemma Dequeue_nonempty q :
  (0 < length (items q))%nat ->
  exists job,
    fst (Dequeue q) = Some job /\
    S (length (items (snd (Dequeue q)))) = length (items q) /\
    Queue_List q ≡ₚ job :: Queue_List (snd (Dequeue q)) /\
    maxSize (snd (Dequeue q)) = maxSize q.
Proof.
  intros Hpos. unfold Dequeue, Dequeue_item.
  destruct (Nat.eqb_spec (length (items q)) 0) as [?|_]; [lia|].
  destruct (heap_Pop_any (items q) Hpos) as (it & pq' & -> & Hlen & Hperm).
  exists (qJob it). cbn [fst snd items maxSize]. repeat split; [done|].
  apply (Hperm _ qJob qJob_set_index).
Qed.

Lemma Peek_nonempty q job : Peek q = Some job -> (0 < length (items q))%nat.
Proof.
  unfold Peek. destruct (items q !! 0%nat) as [it|] eqn:E; [|done].
  intros _. by apply lookup_lt_Some in E.
Qed.

Lemma tryPreemption_frame s job now :
  queue (snd (tryPreemption s job now)) = queue s /\
  config (snd (tryPreemption s job now)) = config s /\
  scheduledJobs (snd (tryPreemption s job now)) = scheduledJobs s /\
  failedJobs (snd (tryPreemption s job now)) = failedJobs s.
Proof.
  unfold tryPreemption. destruct (negb _); [done|].
  destruct (SelectVictims (storage s) job) as [victims|e]; [|done].
  destruct (length victims =? 0)%nat; [done|].
  by destruct (preempt_all _ _ _ _ _) as [[ok r'] count].
Qed.

(** The loop of the cycle, as far as the queue and the two counters of
    started jobs go. *)
Lemma cycle_loop_accounting fuel clock k s :
  0 <= scheduledJobs s -> 0 <= failedJobs s ->
  scheduledJobs s + failedJobs s + Size (queue s) <= Int.max_int ->
  let s' := cycle_loop fuel clock k s in
  config s' = config s /\
  maxSize (queue s') = maxSize (queue s) /\
  Queue_List (queue s') ⊆ Queue_List (queue s) /\
  scheduledJobs s <= scheduledJobs s' /\
  failedJobs s <= failedJobs s' /\
  scheduledJobs s' + failedJobs s'
    = scheduledJobs s + failedJobs s + (Size (queue s) - Size (queue s')).
Proof.
  revert k s. induction fuel as [|fuel IH]; intros k s Hs Hf Hmax.
  { simpl. repeat split; [done|lia|lia|lia]. }
  cbn [cycle_loop].
  destruct (IsEmpty (queue s)).
  { repeat split; [done|lia|lia|lia]. }
  destruct (Peek (queue s)) as [job|] eqn:Hpeek.
  2:{ repeat split; [done|lia|lia|lia]. }
  destruct (tryAllocateJob (storage s) job (clock k)) as [[allocated|err] r1].
  - destruct allocated.
    2:{ cbn [config queue scheduledJobs failedJobs with_storage].
        repeat split; [done|lia|lia|lia]. }
    cbn [config queue scheduledJobs failedJobs storage with_storage].
    destruct (Dequeue_nonempty (queue s) (Peek_nonempty _ _ Hpeek))
      as (j & _ & Hlen & Hperm & Hmaxsize).
    set (q' := snd (Dequeue (queue s))) in *.
    assert (Hsize : Size q' = Size (queue s) - 1)
      by (unfold Size, Int.len; lia).
    assert (Hpos : 1 <= Size (queue s))
      by (unfold Size, Int.len in *; lia).
    assert (Hsub : Queue_List q' ⊆ Queue_List (queue s)).
    { intros x Hx. rewrite Hperm. by right. }
    unfold Int.max_int in Hmax.
    destruct (startJob r1 job (clock k)) as [[e|] r2].
    + match goal with
      | |- context [cycle_loop fuel clock (S k) ?s2] =>
          destruct (IH (S k) s2) as (H1 & H2 & H3 & H4 & H5 & H6)
      end.
      * done.
      * cbn [failedJobs]. unfold Int.add.
        rewrite wrap_in_range
          by (unfold Int.in_range, Int.min_int, Int.max_int; lia). lia.
      * cbn [failedJobs scheduledJobs queue]. unfold Int.add, Int.max_int.
        rewrite wrap_in_range
          by (unfold Int.in_range, Int.min_int, Int.max_int; lia). lia.
      * cbn [failedJobs scheduledJobs queue config] in *.
        unfold Int.add in *.
        rewrite wrap_in_range in *
          by (unfold Int.in_range, Int.min_int, Int.max_int; lia).
        repeat split; [done|congruence| |lia|lia|lia].
        intros x Hx. apply Hsub. by apply H3.
    + match goal with
      | |- context [cycle_loop fuel clock (S k) ?s2] =>
          destruct (IH (S k) s2) as (H1 & H2 & H3 & H4 & H5 & H6)
      end.
      * cbn [scheduledJobs]. unfold Int.add.
        rewrite wrap_in_range
          by (unfold Int.in_range, Int.min_int, Int.max_int; lia). lia.
      * done.
      * cbn [failedJobs scheduledJobs queue]. unfold Int.add, Int.max_int.
        rewrite wrap_in_range
          by (unfold Int.in_range, Int.min_int, Int.max_int; lia). lia.
      * cbn [failedJobs scheduledJobs queue config] in *.
        unfold Int.add in *.
        rewrite wrap_in_range in *
          by (unfold Int.in_range, Int.min_int, Int.max_int; lia).
        repeat split; [done|congruence| |lia|lia|lia].
        intros x Hx. apply Hsub. by apply H3.
  - set (s1 := with_storage s r1).
    destruct (EnablePreemption (config s1) && IsResourceError err).
    2:{ cbn [s1 config queue scheduledJobs failedJobs with_storage].
        repeat split; [done|lia|lia|lia]. }
    destruct (tryPreemption_frame s1 job (clock k)) as (Hq & Hc & Hsj & Hfj).
    destruct (tryPreemption s1 job (clock k)) as [ok s2].
    cbn [snd] in *.
    cbn [s1 config queue scheduledJobs failedJobs with_storage] in *.
    destruct ok.
    + destruct (IH (S k) s2) as (H1 & H2 & H3 & H4 & H5 & H6);
        [lia|lia|rewrite Hq, Hsj, Hfj; lia|].
      rewrite Hq, Hc, Hsj, Hfj in *. done.
    + rewrite Hq, Hc, Hsj, Hfj. repeat split; [done|lia|lia|lia].
Qed.

(** X16. A scheduling cycle that runs alone, no [SubmitJob] or [CancelJob]
    of another goroutine reaching the queue while it runs, accounts for
    every job it takes from the queue.  With the two counters non-negative
    and their sum plus the queue size within 64 bits: after the cycle,
    whatever it did, the queue holds a part of the jobs it held before;
    neither counter went down; and the number of jobs that left the queue
    is exactly the increase of [scheduledJobs] plus the increase of
    [failedJobs] (a job whose start fails after its allocation is dequeued
    all the same and counted as failed).  The configuration and [maxSize]
    are untouched. *)
Theorem schedulingCycle_counts_every_job_it_takes (fuel : nat)
    (now : Time.Time) (clock : nat -> Time.Time) (s : Scheduler) :
  0 <= scheduledJobs s -> 0 <= failedJobs s ->
  scheduledJobs s + failedJobs s + Size (queue s) <= Int.max_int ->
  let s' := schedulingCycle fuel now clock s in
  config s' = config s /\
  maxSize (queue s') = maxSize (queue s) /\
  Queue_List (queue s') ⊆ Queue_List (queue s) /\
  scheduledJobs s <= scheduledJobs s' /\
  failedJobs s <= failedJobs s' /\
  Size (queue s) - Size (queue s')
    = (scheduledJobs s' - scheduledJobs s) + (failedJobs s' - failedJobs s).
Proof.
  intros Hs Hf Hmax. unfold schedulingCycle.
  set (s0 := with_queue s (ApplyAging (queue s) 10 (5 * Time.Minute) now)).
  assert (Hsize0 : Size (queue s0) = Size (queue s)).
  { unfold s0, Size, Int.len. cbn [queue with_queue].
    by rewrite ApplyAging_items, heap_Init_length, length_map. }
  assert (Hlist0 : Queue_List (queue s0) ≡ₚ Queue_List (queue s)).
  { unfold s0, Queue_List. cbn [queue with_queue].
    rewrite ApplyAging_items.
    rewrite (heap_Init_perm qJob qJob_set_index).
    rewrite map_map. erewrite map_ext; [done|].
    intros a. simpl. by rewrite aged_job. }
  destruct (cycle_loop_accounting fuel clock 0 s0)
    as (H1 & H2 & H3 & H4 & H5 & H6); [done|done| |].
  { rewrite Hsize0. exact Hmax. }
  cbv zeta. rewrite Hsize0 in H6.
  repeat split; [done|done| |done|done|].
  - intros x Hx. rewrite <- Hlist0. by apply H3.
  - change (scheduledJobs s0) with (scheduledJobs s) in *.
    change (failedJobs s0) with (failedJobs s) in *. lia.
Qed.

Lemma schedulingCycle_counts_every_job_it_takes_witness :
  0 <= scheduledJobs ex_submitted /\
  0 <= failedJobs ex_submitted /\
  Size (queue ex_submitted) = 1 /\
  let s' := schedulingCycle 5 2000 (fun _ => 2000) ex_submitted in
  Size (queue s') = 0 /\ scheduledJobs s' = 1 /\ failedJobs s' = 0 /\
  Size (queue ex_submitted) - Size (queue s')
    = (scheduledJobs s' - scheduledJobs ex_submitted)
      + (failedJobs s' - failedJobs ex_submitted).
Proof.
  split; [vm_compute; discriminate|]. split; [vm_compute; discriminate|].
  split; [reflexivity|]. cbv zeta.
  split; [reflexivity|]. split; [reflexivity|]. split; [reflexivity|].
  apply (schedulingCycle_counts_every_job_it_takes 5 2000 (fun _ => 2000)
           ex_submitted); vm_compute; discriminate.
Defined.

(* ===================================================================== *)
(** ** The loop of the cycle ends *)
(* ===================================================================== *)





Lemma Preempt_jobs r victim p now :
  fst (Preempt r victim p now) = None ->
  jobs (snd (Preempt r victim p now))
    = tbl_save jID (job_preempted victim) (jobs r).
Proof.
  unfold Preempt, UpdateJob, store_write.
  destruct (fails r _); [done|].
  set (r1 := with_jobs r _).
  destruct (GetJobAllocations r1 _) as [allocs|e]; [|done]. intros _.
  cbn [snd]. change (tbl_save jID (job_preempted victim) (jobs r))
    with (jobs r1). generalize r1. clear r1.
  induction allocs as [|a allocs IH]; intros r1; simpl; [done|].
  rewrite IH. apply preempt_allocation_tenants.
Qed.

Lemma pick_victim_In cands v : pick_victim cands = Some v -> In v cands.
Proof.
  unfold pick_victim.
  destruct (pick_victim_scan cands 999999 None) as [[_ Hout]|Hex].
  - cbv zeta in Hout. by rewrite Hout.
  - destruct Hex as (pre & v0 & post & -> & Hout & _).
    cbv zeta in Hout. rewrite Hout. intros [= <-].
    apply in_or_app. right. by left.
Qed.






(* ===================================================================== *)
(** ** Victim selection: what can be returned *)
(* ===================================================================== *)

(** X18. [SelectVictims] fails only when the listing of the Running jobs
    fails.  Otherwise it returns at most one job, and a returned job is a
    Running job of the store whose priority is strictly below the
    requesting job's and below 999999 and whose tenant was read and allows
    preemption.  It returns no job exactly when every candidate has
    priority 999999 or more: a candidate at or above that bound is never
    preempted, whatever the priority of the requesting job. *)
Theorem SelectVictims_returns_at_most_one_lower_job (r : Repository)
    (requestingJob : Job) :
  match SelectVictims r requestingJob with
  | Err e =>
      fails r (OpListJobsByState JobStateRunning) = true /\
      e = StoreError (OpListJobsByState JobStateRunning)
  | Ok victims =>
      (length victims <= 1)%nat /\
      Forall (fun v =>
                In v (jobs r) /\ jState v = JobStateRunning /\
                jPriority v < jPriority requestingJob /\
                jPriority v < 999999 /\
                exists tenant, GetTenant r (jTenantID v) = Ok tenant /\
                               tAllowPreemption tenant = true) victims /\
      (victims = [] <->
       Forall (fun c => 999999 <= jPriority c) (candidates r requestingJob))
  end.
Proof.
  unfold SelectVictims, ListJobsByState, store_list.
  destruct (fails r (OpListJobsByState JobStateRunning)) eqn:Ef; [done|].
  fold (candidates r requestingJob).
  assert (Hcand : forall v, In v (candidates r requestingJob) ->
            In v (jobs r) /\ jState v = JobStateRunning /\
            jPriority v < jPriority requestingJob /\
            exists tenant, GetTenant r (jTenantID v) = Ok tenant /\
                           tAllowPreemption tenant = true).
  { intros v Hv. unfold candidates in Hv.
    apply filter_In in Hv as [Hv Hc]. apply filter_In in Hv as [Hv Hrun].
    apply is_candidate_spec in Hc as [Hlt Hten].
    split; [done|]. split; [by apply JobState_eqb_eq|]. done. }
  destruct (candidates r requestingJob) as [|c cs] eqn:Ec.
  { simpl. split; [lia|]. split; [constructor|]. split; [constructor|done]. }
  cbn [length Nat.eqb]. unfold pick_victim.
  destruct (pick_victim_scan (c :: cs) 999999 None) as [[Hall Hout]|Hex].
  - cbv zeta in Hout. rewrite Hout. simpl.
    split; [lia|]. split; [constructor|]. done.
  - destruct Hex as (pre & v & post & Heq & Hout & Hlt & _ & _).
    cbv zeta in Hout. rewrite Hout. simpl. split; [lia|]. split.
    + constructor; [|constructor].
      assert (Hin : In v (c :: cs))
        by (rewrite Heq; apply in_or_app; right; by left).
      destruct (Hcand v Hin) as (H1 & H2 & H3 & H4). done.
    + split; [done|]. intros Hall. rewrite Heq in Hall.
      apply Forall_app in Hall as [_ Hall].
      apply Forall_cons in Hall as [Hv _]. lia.
Qed.

(* ===================================================================== *)
(** ** Preemption and release: partial effects *)
(* ===================================================================== *)

(** X19. [Preempt], for every store and victim.  It never writes the
    tenant table, so the victim's share of its tenant's usage stays
    charged.  When it returns no error the victim's row is Preempted with
    its preemption count one higher, and the other job rows are as before.
    It returns an error in two cases: the update of the victim's row
    failed, and then nothing changed; or the listing of the victim's
    allocations failed, and then the row is already Preempted while
    allocations, GPUs and nodes are as before. *)
Theorem Preempt_marks_the_victim_and_keeps_the_usage (r : Repository)
    (victim : Job) (preemptorID : string) (now : Time.Time) :
  let out := Preempt r victim preemptorID now in
  tenants (snd out) = tenants r /\
  match fst out with
  | None =>
      tbl_find jID (jID victim) (jobs (snd out))
        = Some (job_preempted victim) /\
      jState (job_preempted victim) = JobStatePreempted /\
      jPreemptedCount (job_preempted victim)
        = Int.add (jPreemptedCount victim) 1 /\
      forall id, id <> jID victim ->
        tbl_find jID id (jobs (snd out)) = tbl_find jID id (jobs r)
  | Some e =>
      (fails r (OpUpdateJob (jID victim)) = true /\ snd out = r) \/
      (fails r (OpUpdateJob (jID victim)) = false /\
       snd out = with_jobs r (tbl_save jID (job_preempted victim) (jobs r)))
  end.
Proof.
  cbv zeta. split; [apply Preempt_tenants_unchanged|].
  pose proof (Preempt_jobs r victim preemptorID now) as Hjobs.
  unfold Preempt, UpdateJob, store_write in *.
  cbn [jID job_preempted] in *.
  destruct (fails r (OpUpdateJob (jID victim))); [left; by split|].
  destruct (GetJobAllocations _ _) as [allocs|e]; [|right; by split].
  cbn [fst snd] in *. rewrite (Hjobs eq_refl).
  split; [apply (tbl_save_find jID (job_preempted victim))|].
  split; [done|]. split; [done|].
  intros id Hne. by apply tbl_save_find_ne.
Qed.

(** X20. [Free] is not atomic.  For an allocation id that cannot be read
    it returns the error of the read and changes nothing.  For a stored
    allocation whose update fails it changes nothing.  But when the
    allocation was updated and its node then cannot be read, [Free]
    returns that error although the allocation is already Completed: the
    node's counters are not given back.  In all cases jobs and tenants
    are untouched. *)
Theorem Free_is_not_atomic (r : Repository) (id : string)
    (now : Time.Time) :
  jobs (snd (Free r id now)) = jobs r /\
  tenants (snd (Free r id now)) = tenants r /\
  match GetAllocation r id with
  | Err e => Free r id now = (Some e, r)
  | Ok a =>
      aID a = id /\
      if fails r (OpUpdateAllocation id)
      then Free r id now = (Some (StoreError (OpUpdateAllocation id)), r)
      else
        match GetNode r (aNodeID a) with
        | Err e =>
            fst (Free r id now) = Some e /\
            tbl_find aID id (allocations (snd (Free r id now)))
              = Some (alloc_completed a now) /\
            aState (alloc_completed a now) = AllocationCompleted /\
            nodes (snd (Free r id now)) = nodes r
        | Ok n =>
            fst (Free r id now) = None ->
            tbl_find aID id (allocations (snd (Free r id now)))
              = Some (alloc_completed a now) /\
            tbl_find nID (aNodeID a) (nodes (snd (Free r id now)))
              = Some (node_give n (Int.len (aGPUIDs a)) (aCPUCores a)
                        (aMemoryMB a))
        end
  end.
Proof.
  destruct (Free_tables r id now) as (Hj & Ht & _).
  split; [done|]. split; [done|]. clear Hj Ht.
  unfold Free. destruct (GetAllocation r id) as [a|e] eqn:Ea; [|done].
  assert (Hid : aID a = id).
  { unfold GetAllocation, store_get in Ea. destruct (fails r _); [done|].
    destruct (tbl_find aID id (allocations r)) eqn:Ef; [|done].
    injection Ea as ->. by eapply tbl_find_key. }
  split; [done|].
  unfold UpdateAllocation, store_write. cbn [aID alloc_completed].
  rewrite Hid. destruct (fails r (OpUpdateAllocation id)); [done|].
  set (r1 := with_allocations r _).
  destruct (free_gpus_tables (aGPUIDs (alloc_completed a now)) r1)
    as (_ & _ & Hnodes & Hallocs & Hfails).
  set (r2 := free_gpus r1 _) in *.
  assert (Hget : GetNode r2 (aNodeID (alloc_completed a now))
                 = GetNode r (aNodeID a)).
  { unfold GetNode, store_get. by rewrite Hfails, Hnodes. }
  rewrite Hget.
  assert (Hdone : tbl_find aID id (allocations r2)
                  = Some (alloc_completed a now)).
  { rewrite Hallocs. cbn [allocations r1 with_allocations].
    rewrite <- Hid at 1. apply (tbl_save_find aID (alloc_completed a now)). }
  destruct (GetNode r (aNodeID a)) as [n|e] eqn:En; [|done].
  assert (Hn : nID n = aNodeID a).
  { unfold GetNode, store_get in En.
    destruct (fails r (OpGetNode (aNodeID a))); [done|].
    destruct (tbl_find nID (aNodeID a) (nodes r)) eqn:Ef; [|done].
    injection En as ->. by eapply tbl_find_key. }
  unfold UpdateNode, store_write.
  destruct (fails r2 _); [done|]. intros _.
  cbn [snd allocations nodes with_nodes]. split; [done|].
  cbn [aNodeID aGPUIDs aCPUCores aMemoryMB alloc_completed].
  rewrite <- Hn at 1.
  apply (tbl_save_find nID (node_give n (Int.len (aGPUIDs a)) (aCPUCores a)
                              (aMemoryMB a))).
Qed.

(* ===================================================================== *)
(** ** Quota test and charge *)
(* ===================================================================== *)

(** X21. The quota test is the test that the charge stays within the
    ceilings: [HasAvailableQuota] accepts a request exactly when, after
    [UpdateUsage] has added the request and one job (the charge that
    [startJob] makes), every usage counter is at most its ceiling.  Both
    form the same 64-bit sums. *)
Theorem HasAvailableQuota_iff_charge_within_ceilings (t : Tenant)
    (gpus0 gpuMemory cpus memory : Z) :
  let t' := UpdateUsage t gpus0 gpuMemory cpus memory 1 in
  HasAvailableQuota t gpus0 gpuMemory cpus memory = true <->
  tCurrentGPUs t' <= tMaxGPUs t' /\
  tCurrentGPUMemory t' <= tMaxGPUMemoryMB t' /\
  tCurrentCPUCores t' <= tMaxCPUCores t' /\
  tCurrentMemory t' <= tMaxMemoryMB t' /\
  tCurrentJobs t' <= tMaxConcurrentJobs t'.
Proof.
  cbv zeta. unfold HasAvailableQuota, UpdateUsage. simpl.
  rewrite !andb_true_iff, !Z.leb_le. tauto.
Qed.

(* ===================================================================== *)
(** ** A job that was persisted but not enqueued *)
(* ===================================================================== *)

(** X22. After a submission that persisted the job and then failed to
    enqueue it, [GetJobStatus] reports the job as Pending with queue
    position -1 and an estimated wait of zero (for a job id that is not
    queued already): the store says the job waits, the queue does not
    know it. *)
Theorem stranded_job_is_reported_pending_but_unqueued (s s' : Scheduler)
    (job : Job) (now : Time.Time) (e : error) :
  SubmitJob s job now = (Some (Wrapf "failed to enqueue job" e), s') ->
  jID job ∉ jobMap (queue s) ->
  queue s' = queue s /\
  GetJob (storage s') None (jID job) = Ok (job_submitted job now) /\
  GetJobStatus s' None (jID job)
    = Ok (mkJobStatus (jID job) JobStatePending "" [] "" (-1) 0).
Proof.
  unfold SubmitJob. intros H Hnew.
  destruct (validateJob job); [discriminate|].
  destruct (GetTenant (storage s) (jTenantID job)) as [t|et];
    [|discriminate].
  destruct (negb _); [discriminate|].
  unfold CreateJob, store_write, tbl_create in H.
  destruct (fails (storage s) _); [discriminate|].
  cbn [jID job_submitted] in H.
  destruct (tbl_find jID (jID job) (jobs (storage s))) eqn:Efind;
    cbn [fmap option_fmap option_map] in H; [discriminate|].
  destruct (Enqueue (queue s) (job_submitted job now) now) as [q1|eq];
    [discriminate|].
  injection H as _ <-.
  assert (Hget : GetJob (with_jobs (storage s)
                           (jobs (storage s) ++ [job_submitted job now]))
                        None (jID job) = Ok (job_submitted job now)).
  { unfold GetJob. cbn [jobs with_jobs]. rewrite tbl_find_app, Efind.
    unfold tbl_find. simpl. by rewrite String.eqb_refl. }
  split; [done|]. cbn [storage with_storage]. split; [exact Hget|].
  unfold GetJobStatus. cbn [storage with_storage queue]. rewrite Hget.
  cbn [jState job_submitted JobState_eqb jID].
  unfold estimateWaitTime, GetPosition. cbn [jID job_submitted].
  rewrite bool_decide_eq_false_2 by done. done.
Qed.

Lemma stranded_job_is_reported_pending_but_unqueued_witness :
  SubmitJob (NewScheduler ex_config_full ex_idle) ex_job 1000
    = (Some (Wrapf "failed to enqueue job" (QueueFullError 0)),
       snd (SubmitJob (NewScheduler ex_config_full ex_idle) ex_job 1000)) /\
  GetJobStatus (snd (SubmitJob (NewScheduler ex_config_full ex_idle)
                       ex_job 1000)) None "job-1"
    = Ok (mkJobStatus "job-1" JobStatePending "" [] "" (-1) 0).
Proof.
  split; [reflexivity|].
  apply (stranded_job_is_reported_pending_but_unqueued
           (NewScheduler ex_config_full ex_idle) _ ex_job 1000
           (QueueFullError 0)).
  - reflexivity.
  - apply (bool_decide_unpack _). vm_compute. exact I.
Defined.

(* ===================================================================== *)
(** ** The node's counters after an allocation *)
(* ===================================================================== *)

Lemma sub_in_range a b :
  Int.in_range a -> 0 <= b <= a -> Int.sub a b = a - b.
Proof.
  intros Ha Hb. apply wrap_in_range.
  unfold Int.in_range, Int.min_int, Int.max_int in *. lia.
Qed.

(** X23. An allocation never oversubscribes the counters of its node.  On
    a store where no call fails and the node counters are 64-bit
    integers, a successful [Allocate] for a request with non-negative CPU
    and memory amounts replaces the row of one node that had the
    capacity, with the requested GPUs, CPU cores and memory subtracted
    from its available counters, none of which becomes negative. *)
Theorem Allocate_never_oversubscribes_the_node (r : Repository)
    (request : AllocationRequest) (now : Time.Time) :
  (forall op, fails r op = false) ->
  (forall n, In n (nodes r) -> node_in_range n) ->
  0 <= rCPUCores request -> 0 <= rMemoryMB request ->
  outErr (Allocate r request now) = None ->
  exists node,
    In node (nodes r) /\
    HasCapacity node (rGPUCount request) (rCPUCores request)
                (rMemoryMB request) = true /\
    0 <= rGPUCount request /\
    nodes (outRepo (Allocate r request now))
      = tbl_save nID
          (node_with_available node
             (nAvailableGPUs node - rGPUCount request)
             (nAvailableCPUCores node - rCPUCores request)
             (nAvailableMemoryMB node - rMemoryMB request))
          (nodes r) /\
    0 <= nAvailableGPUs node - rGPUCount request /\
    0 <= nAvailableCPUCores node - rCPUCores request /\
    0 <= nAvailableMemoryMB node - rMemoryMB request.
Proof.
  intros Hf Hrange Hc Hm Hok.
  destruct (Allocate_ok r request now Hok)
    as (node & gs & Hin & Heq & Hlen & _ & _).
  rewrite Heq in Hok |- *.
  destruct (createAllocation_shape r request node gs now Hf Hok) as [_ ->].
  unfold capable_nodes in Hin. apply filter_In in Hin as [Hin Hcap].
  apply filter_In in Hin as [Hin _].
  destruct (Hrange node Hin) as (R1 & R2 & R3).
  pose proof Hcap as Hcap'. unfold HasCapacity in Hcap'.
  rewrite !andb_true_iff, !Z.leb_le in Hcap'.
  destruct Hcap' as [[[_ Hg] Hcc] Hmm].
  assert (Hg0 : 0 <= rGPUCount request)
    by (rewrite <- Hlen; unfold Int.len; lia).
  exists node. split; [done|]. split; [done|]. split; [done|].
  cbn [nodes with_nodes]. rewrite Hlen. unfold node_take.
  rewrite !sub_in_range by (done || lia).
  repeat split; lia.
Qed.

Lemma Allocate_never_oversubscribes_the_node_witness :
  (forall op, fails ex_idle op = false) /\
  outErr (Allocate ex_idle ex_gang_request 30) = None /\
  map nAvailableGPUs (nodes (outRepo (Allocate ex_idle ex_gang_request 30)))
    = [0] /\
  exists node,
    In node (nodes ex_idle) /\
    nodes (outRepo (Allocate ex_idle ex_gang_request 30))
      = tbl_save nID
          (node_with_available node
             (nAvailableGPUs node - 2) (nAvailableCPUCores node - 4)
             (nAvailableMemoryMB node - 8000))
          (nodes ex_idle).
Proof.
  split; [reflexivity|]. split; [reflexivity|]. split; [reflexivity|].
  destruct (Allocate_never_oversubscribes_the_node ex_idle ex_gang_request 30)
    as (node & H1 & _ & _ & H4 & _).
  - reflexivity.
  - intros n Hn. apply (Forall_forall (fun n => node_in_range n)
                          (nodes ex_idle)); [|by apply list_elem_of_In].
    repeat constructor; vm_compute; discriminate.
  - vm_compute. discriminate.
  - vm_compute. discriminate.
  - reflexivity.
  - exists node. split; [exact H1|exact H4].
Defined.

(* ===================================================================== *)
(** ** One preemption *)
(* ===================================================================== *)

(** X24. When [tryPreemption] reports success it has preempted exactly one
    job: the victim that [SelectVictims] returned, a Running job of the
    store of strictly lower priority than the requesting job.  Its row is
    now Preempted, the counter of preempted jobs is one higher, and the
    queue, the other two counters, the configuration and the tenant
    table (so also the victim's tenant's usage) are as before. *)
Theorem tryPreemption_preempts_exactly_one_job (s s2 : Scheduler)
    (job : Job) (now : Time.Time) :
  tryPreemption s job now = (true, s2) ->
  exists victim,
    SelectVictims (storage s) job = Ok [victim] /\
    In victim (jobs (storage s)) /\
    jState victim = JobStateRunning /\
    jPriority victim < jPriority job /\
    jobs (storage s2)
      = tbl_save jID (job_preempted victim) (jobs (storage s)) /\
    tenants (storage s2) = tenants (storage s) /\
    preemptedJobs s2 = Int.add (preemptedJobs s) 1 /\
    queue s2 = queue s /\ config s2 = config s /\
    scheduledJobs s2 = scheduledJobs s /\ failedJobs s2 = failedJobs s.
Proof.
  unfold tryPreemption. destruct (negb _); [done|].
  destruct (SelectVictims (storage s) job) as [victims|e] eqn:Esel; [|done].
  assert (Hshape : victims = [] \/ exists v, victims = [v] /\
            In v (candidates (storage s) job)).
  { revert Esel. unfold SelectVictims, ListJobsByState, store_list.
    destruct (fails (storage s) _); [done|].
    fold (candidates (storage s) job).
    destruct (length _ =? 0)%nat; [intros [= <-]; by left|].
    destruct (pick_victim (candidates (storage s) job)) as [v|] eqn:Ep;
      [|intros [= <-]; by left].
    intros [= <-]. right. exists v. split; [done|].
    by apply pick_victim_In. }
  destruct Hshape as [->|(victim & -> & Hcand)]; [done|].
  cbn [length Nat.eqb preempt_all].
  pose proof (Preempt_jobs (storage s) victim (jID job) now) as Hj.
  pose proof (Preempt_tenants_unchanged (storage s) victim (jID job) now)
    as Ht.
  destruct (Preempt (storage s) victim (jID job) now) as [[e|] r']; [done|].
  intros [= <-]. exists victim. cbn [storage queue config preemptedJobs
    scheduledJobs failedJobs fst snd] in *.
  unfold candidates in Hcand. apply filter_In in Hcand as [Hrun Hc].
  apply filter_In in Hrun as [Hin Hrun].
  apply is_candidate_spec in Hc as [Hlt _].
  split; [done|]. split; [done|]. split; [by apply JobState_eqb_eq|].
  split; [done|]. split; [by apply Hj|]. by repeat split.
Qed.

Lemma tryPreemption_preempts_exactly_one_job_witness :
  tryPreemption (NewScheduler ex_config ex_running) ex_high_job 50
    = (true,
       snd (tryPreemption (NewScheduler ex_config ex_running) ex_high_job
              50)) /\
  exists victim,
    SelectVictims ex_running ex_high_job = Ok [victim] /\
    jPriority victim < jPriority ex_high_job /\
    preemptedJobs
      (snd (tryPreemption (NewScheduler ex_config ex_running) ex_high_job 50))
      = 1 /\
    tenants (storage (snd (tryPreemption (NewScheduler ex_config ex_running)
                             ex_high_job 50)))
      = [ex_tenant_charged].
Proof.
  split; [reflexivity|].
  destruct (tryPreemption_preempts_exactly_one_job
              (NewScheduler ex_config ex_running)
              (snd (tryPreemption (NewScheduler ex_config ex_running)
                      ex_high_job 50))
              ex_high_job 50 eq_refl)
    as (victim & H1 & _ & _ & H4 & _ & H6 & H7 & _).
  exists victim. split; [exact H1|]. split; [exact H4|].
  split; [exact H7|exact H6].
Defined.

(* ===================================================================== *)
(** ** The order of [Dequeue] after removals *)
(* ===================================================================== *)

(** X25. Priority order survives [Remove] and [Clear].  Take any history
    of calls of the queue's methods, removals and clearings included, by
    callers that do not write to a job while it is queued (the scheduler
    never does).  Then [n] calls of [Dequeue] return [min n size] jobs in
    non-increasing order of the 64-bit sum [Priority + AgingBoost] that
    [Less] forms, and of two jobs of equal sum the one returned first was
    not enqueued later; for two jobs whose priority plus aging boost fits
    in 64 bits this is the order of priority plus aging boost itself.  As
    many calls as the queue has items return exactly the jobs that [List]
    shows, and after a further [Enqueue] that succeeds they return that
    job and the same jobs as before. *)
Theorem Dequeue_order_survives_Remove_and_Clear (m : Z)
    (cs : list queue_call) (q : Queue) (n : nat) :
  run_calls cs (NewQueue m) = Some q ->
  dequeue_many n q = map qJob (drain n q) /\
  length (dequeue_many n q) = Nat.min n (length (items q)) /\
  dequeue_many (length (items q)) q ≡ₚ Queue_List q /\
  (forall job now q',
     Enqueue q job now = Ok q' ->
     dequeue_many (length (items q')) q'
       ≡ₚ job :: dequeue_many (length (items q)) q) /\
  forall i j a b,
    (i < j)%nat -> drain n q !! i = Some a -> drain n q !! j = Some b ->
    total_priority b <= total_priority a /\
    (total_priority a = total_priority b ->
     qEnqueuedAt a <= qEnqueuedAt b) /\
    (Int.in_range (qPriority a + qAgingBoost a) ->
     Int.in_range (qPriority b + qAgingBoost b) ->
     qPriority b + qAgingBoost b <= qPriority a + qAgingBoost a /\
     (qPriority a + qAgingBoost a = qPriority b + qAgingBoost b ->
      qEnqueuedAt a <= qEnqueuedAt b)).
Proof.
  intros Hrun. pose proof (history_wf _ _ _ Hrun) as Hwf.
  pose proof (wf_heap q Hwf) as Hok.
  split; [apply dequeue_many_drain|].
  split; [by rewrite dequeue_many_drain, length_map, drain_length|].
  split; [by apply dequeue_all_List|]. split.
  - intros job now q' Henq.
    pose proof (Enqueue_wf _ _ _ _ Hwf Henq) as Hwf'.
    rewrite (dequeue_all_List q' (wf_heap q' Hwf')).
    rewrite (dequeue_all_List q Hok). by eapply Enqueue_List.
  - intros i j a b Hij Ha Hb.
    pose proof (StronglySorted_lookup_lt _ _ i j a b (drain_sorted n q Hok)
                  Hij Ha Hb) as Hle.
    simpl in Hle. apply item_less_false in Hle.
    split; [lia|]. split; [lia|].
    intros Hra Hrb. unfold total_priority in Hle.
    rewrite (add_in_range _ _ Hra), (add_in_range _ _ Hrb) in Hle. lia.
Qed.

Lemma Dequeue_order_survives_Remove_and_Clear_witness :
  run_calls ex_calls_removed (NewQueue 10) = Some ex_queue_removed /\
  map jID (dequeue_many 3 ex_queue_removed) = ["job-3"; "job-2"] /\
  dequeue_many (length (items ex_queue_removed)) ex_queue_removed
    ≡ₚ Queue_List ex_queue_removed.
Proof.
  split; [reflexivity|]. split; [reflexivity|].
  destruct (Dequeue_order_survives_Remove_and_Clear 10 ex_calls_removed
              ex_queue_removed 3 eq_refl) as (_ & _ & H & _).
  exact H.
Defined.

(* ===================================================================== *)
(** ** [tryAllocateJob] *)
(* ===================================================================== *)

(** X26. [tryAllocateJob] never returns (false, nil): it returns true
    exactly when [Allocate] returns no error, and otherwise it returns
    [Allocate]'s error with the store unchanged.  So in the scheduling
    cycle the branch for a job that was not allocated without an error is
    never taken. *)
Theorem tryAllocateJob_never_fails_without_error (r : Repository)
    (job : Job) (now : Time.Time) :
  fst (tryAllocateJob r job now) <> Ok false /\
  (fst (tryAllocateJob r job now) = Ok true <->
   outErr (Allocate r (request_of job) now) = None) /\
  match outErr (Allocate r (request_of job) now) with
  | Some e => tryAllocateJob r job now = (Err e, r)
  | None => True
  end.
Proof.
  unfold tryAllocateJob. fold (request_of job).
  pose proof (Allocate_success r (request_of job) now) as Hs.
  pose proof (Allocate_error r (request_of job) now) as He.
  destruct (outErr (Allocate r (request_of job) now)) as [e|].
  - cbn [fst]. split; [done|]. split; [done|]. by rewrite (He e eq_refl).
  - specialize (Hs eq_refl).
    destruct (outResult (Allocate r (request_of job) now)) as [res|];
      [|done].
    cbn [fst] in *. injection Hs as ->. done.
Qed.
